(** * TreeDB: a parent-pointer tree table behind a small HTTP API

    Shallow embedding of
    - [src/server.js]: the node API ([GET], [POST], [PUT], [DELETE] on
      [/api/nodes]) over one SQLite table,
    - [src/public/js/utils/tree.js]: the client's closure traversals, and
      [moveNode], [validateTree] and [filterTree] that are built on them,
    - [src/public/js/ui/ui.js]: [TreeRenderer.buildForest] and
      [DetailsRenderer.deleteNode], the latter over [request] of
      [src/public/js/api/api.js],
    - [src/public/js/config/config-form-controller.js]: [applyConfig] and
      [cleanupConflictingSessions],
    - [src/Scripts/test-0.sql]: the two-phase renumbering of [sort_order],
    and of the session registry that the specification describes.

    SQLite itself is not part of the repository: what the handlers leave to
    it and is not worked out here is the record [Server.Engine], over which
    the properties of the server are stated. *)

From stdpp Require Import base list relations.
From Stdlib Require Import ZArith Lia String Ascii Sorted Permutation.

Local Open Scope Z_scope.
Local Open Scope string_scope.
Local Open Scope list_scope.

(** ** JavaScript values *)

Module Js.

(** A JavaScript number as far as the server can tell numbers apart: [NaN],
    an integer, or some other number (a fraction or an infinity), which the
    server passes through without looking at it. *)
Inductive JsNum : Type :=
  | NaN
  | Int (z : Z)
  | NonInt (tag : nat).

(** The values a parsed JSON body can hold, and [undefined]. An array or an
    object is kept as the string its conversion to a primitive gives. *)
Inductive JsValue : Type :=
  | JUndefined
  | JNull
  | JBool (b : bool)
  | JNumber (n : JsNum)
  | JString (s : string)
  | JObject (prim : string).

(** [Number.isNaN] *)
Definition isNaN (n : JsNum) : bool :=
  match n with NaN => true | _ => false end.

(** [String.prototype.toLowerCase], on the ASCII letters. *)
Definition toLowerAscii (c : ascii) : ascii :=
  let n := nat_of_ascii c in
  if (65 <=? n)%nat && (n <=? 90)%nat then ascii_of_nat (n + 32) else c.

Fixpoint toLowerCase (s : string) : string :=
  match s with
  | EmptyString => EmptyString
  | String c rest => String (toLowerAscii c) (toLowerCase rest)
  end.

(** [String.prototype.includes] *)
Fixpoint includes (s sub : string) : bool :=
  String.prefix sub s ||
  match s with
  | EmptyString => false
  | String _ rest => includes rest sub
  end.

(** A JavaScript object as the list of its own enumerable properties, in the
    order of [Object.keys]. *)
Definition JsObject : Type := list (string * JsValue).

(** [obj[key]]: the value of the property, [undefined] when there is none. *)
Fixpoint getProp (obj : JsObject) (key : string) : JsValue :=
  match obj with
  | [] => JUndefined
  | (k, v) :: rest => if String.eqb k key then v else getProp rest key
  end.

(** [Object.keys] *)
Definition keys (obj : JsObject) : list string := map fst obj.

Section Coercion.

(** The conversion of a string to a number (ECMAScript's StringToNumber)
    is the engine's; the server only tests its result for [NaN]. *)
Variable StringToNumber : string -> JsNum.

(** [Number(value)] *)
Definition Number (value : JsValue) : JsNum :=
  match value with
  | JUndefined => NaN
  | JNull => Int 0
  | JBool true => Int 1
  | JBool false => Int 0
  | JNumber n => n
  | JString s => StringToNumber s
  | JObject prim => StringToNumber prim
  end.

End Coercion.

End Js.

Import Js.

(** ** The node API of [server.js] *)

Module Server.

(** A row of the node table: the primary key, the parent column and the
    other columns by name. [SELECT *] hands these rows to the client. *)
Record Row : Type := mkRow {
  id : Z;
  parent_id : option Z;
  extra : list (string * JsValue)
}.

(** The table: the names of its other columns, its rows, and the largest
    key that [AUTOINCREMENT] has handed out. *)
Record Db : Type := mkDb {
  schema : list string;
  rows : list Row;
  sequence : Z
}.

Definition ids (db : Db) : list Z := map id (rows db).

Definition hasId (db : Db) (i : Z) : bool :=
  existsb (fun r => Z.eqb (id r) i) (rows db).

(** What a handler sends. *)
Inductive Body : Type :=
  | BodyRows (rs : list Row)
  | BodyRow (r : option Row)
  | BodyError
  | BodyEmpty.

Record Response : Type := mkResponse {
  status : Z;
  body : Body
}.

Definition sendJsonRows (st : Z) (rs : list Row) : Response := mkResponse st (BodyRows rs).
Definition sendJsonRow (st : Z) (r : option Row) : Response := mkResponse st (BodyRow r).
Definition sendError (st : Z) : Response := mkResponse st BodyError.
Definition sendNoContent : Response := mkResponse 204 BodyEmpty.

(** What running a statement gives: an error, or [this.changes],
    [this.lastID] and the table after it. *)
Inductive RunResult : Type :=
  | RunError
  | RunOk (changes : nat) (lastID : Z) (db' : Db).

(** The SQLite engine is not part of the repository. What the handlers
    leave to it, and this model does not work out, is taken as given:
    - [otherStatement db kvs target]: the result of the [UPDATE] (for
      [target] an id) or [INSERT] (for [None]) in which some pasted key is
      not written as the name of a column of the table. Such a key may still
      name a column in other letter case, be [rowid], [oid] or [_rowid_] and
      so stand for the key column, or be SQL text of its own;
    - [storedAs col v]: what [SELECT *] gives back for the value [v], not
      [NULL], bound into the column [col] (the binding of the sqlite3 module
      and the affinity of the column);
    - [maxVariables]: the most host parameters one statement may have
      ([SQLITE_MAX_VARIABLE_NUMBER], 999 or 32766 in stock builds). *)
Record Engine : Type := mkEngine {
  otherStatement : Db -> list (string * JsValue) -> option Z -> RunResult;
  storedAs : string -> JsValue -> JsValue;
  maxVariables : nat
}.

Section Handlers.

Variable engine : Engine.

Variable StringToNumber : string -> JsNum.

(** [ID_FIELD] and [PARENT_FIELD] of lines 11 and 12: the configured names
    of the key column and of the parent column. *)
Variable ID_FIELD : string.
Variable PARENT_FIELD : string.

(** [normalizeIncomingValue], lines 220 to 229. *)
Definition isIdLike (key : string) : bool :=
  String.eqb key PARENT_FIELD || includes (toLowerCase key) "id".

Definition normalizeIncomingValue (key : string) (value : JsValue) : JsValue :=
  match value with
  | JString "" => JNull
  | JUndefined => JNull
  | _ =>
      if isIdLike key then
        let numeric := Number StringToNumber value in
        if isNaN numeric then JNull else JNumber numeric
      else value
  end.

(** [sanitizePayload]: a body that is an object is copied property by
    property; the handlers are given the parsed object. *)
Definition sanitizePayload (payload : JsObject) : JsObject :=
  map (fun key => (key, getProp payload key)) (keys payload).

(** [Object.keys(payload).filter(key => key !== ID_FIELD)] *)
Definition columnsOf (payload : JsObject) : list string :=
  List.filter (fun key => negb (String.eqb key ID_FIELD)) (keys payload).

(** [columns.map(col => normalizeIncomingValue(col, payload[col]))], each
    value next to its column: what [POST] and [PUT] bind to the statement. *)
Definition boundValues (payload : JsObject) : list (string * JsValue) :=
  map (fun col => (col, normalizeIncomingValue col (getProp payload col)))
      (columnsOf payload).

(** *** The statements, as SQLite runs them on this table

    The table is the one the server creates at start-up: an
    [INTEGER PRIMARY KEY AUTOINCREMENT] key, a parent column that
    [REFERENCES] the key [ON DELETE SET NULL], foreign keys enforced
    ([PRAGMA foreign_keys = ON]); the other columns have no constraint and
    no default. The handlers paste the payload's keys into the statement as
    column names. The statements worked out here are those in which every
    key is written as the name of a column; the others are the engine's
    ([otherStatement]). *)

(** [col] is written as the name of the parent column or of another
    column. *)
Definition knownColumn (db : Db) (col : string) : bool :=
  String.eqb col PARENT_FIELD || existsb (String.eqb col) (schema db).

(** The reference a bound value puts in the parent column: [NULL], or an
    integer key. Any other number stays a real there and matches no key. *)
Definition asParent (v : JsValue) : option (option Z) :=
  match v with
  | JNull => Some None
  | JNumber (Int z) => Some (Some z)
  | _ => None
  end.

Fixpoint setExtra (cols : list (string * JsValue)) (key : string) (v : JsValue)
  : list (string * JsValue) :=
  match cols with
  | [] => [(key, v)]
  | (k, x) :: rest =>
      if String.eqb k key then (k, v) :: rest else (k, x) :: setExtra rest key v
  end.

(** What a column other than the parent holds once [v] has been bound into
    it. *)
Definition storedValue (col : string) (v : JsValue) : JsValue :=
  match v with
  | JNull => JNull
  | _ => storedAs engine col v
  end.

(** One [col = ?] of the [SET] list, on one row. [present] tells which keys
    the foreign key finds; [None] is a constraint failure. *)
Definition assign (present : Z -> bool) (r : Row) (kv : string * JsValue) : option Row :=
  let (col, v) := kv in
  if String.eqb col PARENT_FIELD then
    match asParent v with
    | Some None => Some (mkRow (id r) None (extra r))
    | Some (Some p) =>
        if present p then Some (mkRow (id r) (Some p) (extra r)) else None
    | None => None
    end
  else Some (mkRow (id r) (parent_id r) (setExtra (extra r) col (storedValue col v))).

Fixpoint assignAll (present : Z -> bool) (r : Row) (kvs : list (string * JsValue))
  : option Row :=
  match kvs with
  | [] => Some r
  | kv :: rest =>
      match assign present r kv with
      | Some r' => assignAll present r' rest
      | None => None
      end
  end.

Fixpoint updateRows (present : Z -> bool) (kvs : list (string * JsValue))
    (targetId : Z) (rs : list Row) : option (list Row) :=
  match rs with
  | [] => Some []
  | r :: rest =>
      match (if Z.eqb (id r) targetId then assignAll present r kvs else Some r),
            updateRows present kvs targetId rest with
      | Some r', Some rest' => Some (r' :: rest')
      | _, _ => None
      end
  end.

(** [UPDATE t SET col = ?, ... WHERE id = ?] *)
Definition execUpdate (db : Db) (kvs : list (string * JsValue)) (targetId : Z)
  : RunResult :=
  if negb (forallb (knownColumn db) (map fst kvs))
  then otherStatement engine db kvs (Some targetId)
  else
    match updateRows (hasId db) kvs targetId (rows db) with
    | None => RunError
    | Some rows' =>
        RunOk (List.length (List.filter (fun r => Z.eqb (id r) targetId) (rows db)))
              (sequence db) (mkDb (schema db) rows' (sequence db))
    end.

(** [INSERT INTO t (cols) VALUES (?, ...)]: the new key is one past the
    largest key ever used; columns that are not named get [NULL]. *)
Definition nextId (db : Db) : Z :=
  fold_right Z.max (sequence db) (ids db) + 1.

Definition execInsert (db : Db) (kvs : list (string * JsValue)) : RunResult :=
  if negb (forallb (knownColumn db) (map fst kvs))
  then otherStatement engine db kvs None
  else
    let newId := nextId db in
    let blank := mkRow newId None (map (fun c => (c, JNull)) (schema db)) in
    match assignAll (fun p => Z.eqb p newId || hasId db p) blank kvs with
    | None => RunError
    | Some r => RunOk 1 newId (mkDb (schema db) (rows db ++ [r]) newId)
    end.

(** What a row holds in a column other than the key. *)
Definition column (r : Row) (col : string) : JsValue :=
  if String.eqb col PARENT_FIELD then
    match parent_id r with
    | Some p => JNumber (Int p)
    | None => JNull
    end
  else getProp (extra r) col.

(** What the engine makes of a value, not [NULL], bound into [col]: the
    parent column keeps an integer key as it is. *)
Definition storedForm (col : string) (v : JsValue) : JsValue :=
  if String.eqb col PARENT_FIELD then v else storedValue col v.

(** [SELECT * FROM t WHERE id = ?] *)
Definition selectById (db : Db) (i : Z) : option Row :=
  List.find (fun r => Z.eqb (id r) i) (rows db).

(** [SELECT * FROM t ORDER BY id] *)
Fixpoint insertById (r : Row) (sorted : list Row) : list Row :=
  match sorted with
  | [] => [r]
  | x :: rest => if Z.leb (id r) (id x) then r :: sorted else x :: insertById r rest
  end.

Definition orderById (rs : list Row) : list Row := fold_right insertById [] rs.

(** The recursive step of the [subtree] query of lines 140 to 145:
    [SELECT t.id FROM t JOIN subtree s ON t.parent_id = s.id], for one row
    [s] of [subtree]. *)
Definition childrenOf (db : Db) (s : Z) : list Z :=
  map id (List.filter
            (fun t => match parent_id t with Some p => Z.eqb p s | None => false end)
            (rows db)).

(** [WITH RECURSIVE ... UNION ALL]: SQLite keeps a queue of rows; it takes
    one row out, adds it to the result, runs the recursive step on it and
    puts what that gives at the end of the queue, until the queue is empty.
    [fuel] bounds the number of rows taken out; [None] means the query is
    still running. *)
Fixpoint subtree (fuel : nat) (db : Db) (queue : list Z) : option (list Z) :=
  match queue with
  | [] => Some []
  | s :: rest =>
      match fuel with
      | O => None
      | S fuel' => option_map (cons s) (subtree fuel' db (rest ++ childrenOf db s))
      end
  end.

(** The initial select: [SELECT id FROM t WHERE id = ?] *)
Definition subtreeSeed (db : Db) (targetId : Z) : list Z :=
  map id (List.filter (fun r => Z.eqb (id r) targetId) (rows db)).

Definition inIds (l : list Z) (i : Z) : bool := existsb (Z.eqb i) l.

(** [DELETE FROM t WHERE id IN (...)], with [ON DELETE SET NULL] on the
    rows that stay, once the engine has taken the statement. *)
Definition setNull (gone : list Z) (r : Row) : Row :=
  match parent_id r with
  | Some p => if inIds gone p then mkRow (id r) None (extra r) else r
  | None => r
  end.

Definition execDelete (db : Db) (gone : list Z) : Db :=
  mkDb (schema db)
       (map (setNull gone) (List.filter (fun r => negb (inIds gone (id r))) (rows db)))
       (sequence db).

(** *** [handleApi] *)

(** The body of a request: no chunk, JSON that parses (to an object, or to
    a value that is not one, for which [sanitizePayload] gives [{}]), or
    text that does not parse. *)
Inductive RawBody : Type :=
  | NoChunks
  | Parsed (value : option JsObject)
  | Malformed.

Definition payloadOf (value : option JsObject) : JsObject :=
  match value with
  | Some obj => sanitizePayload obj
  | None => []
  end.

(** Every key of the body that the handlers paste into their statement is
    written as the name of a column. *)
Definition named (db : Db) (value : option JsObject) : bool :=
  forallb (knownColumn db) (columnsOf (payloadOf value)).

(** [GET /api/nodes], lines 68 to 76. *)
Definition handleGet (db : Db) : Response * Db :=
  (sendJsonRows 200 (orderById (rows db)), db).

Definition listAll (db : Db) : list Row := orderById (rows db).

(** [POST /api/nodes], lines 78 to 100. *)
Definition postNodes (db : Db) (value : option JsObject) : Response * Db :=
  let payload := payloadOf value in
  match columnsOf payload with
  | [] => (sendError 400, db)
  | _ =>
      match execInsert db (boundValues payload) with
      | RunError => (sendError 500, db)
      | RunOk _ lastID db' => (sendJsonRow 201 (selectById db' lastID), db')
      end
  end.

(** [PUT /api/nodes/{id}], lines 111 to 137. *)
Definition putNode (db : Db) (targetId : Z) (value : option JsObject) : Response * Db :=
  let payload := payloadOf value in
  match columnsOf payload with
  | [] => (sendError 400, db)
  | _ =>
      match execUpdate db (boundValues payload) targetId with
      | RunError => (sendError 500, db)
      | RunOk O _ _ => (sendError 404, db)
      | RunOk _ _ db' => (sendJsonRow 200 (selectById db' targetId), db')
      end
  end.

(** [DELETE /api/nodes/{id}], lines 139 to 163. [None]: the [subtree] query
    has not returned within [fuel] steps, and nothing has been sent. The
    [DELETE] has one host parameter for every row of [subtree]: with more
    than the engine takes it fails ([delErr]), and nothing is deleted. *)
Definition deleteNode (fuel : nat) (db : Db) (targetId : Z) : option (Response * Db) :=
  match subtree fuel db (subtreeSeed db targetId) with
  | None => None
  | Some [] => Some (sendError 404, db)
  | Some gone =>
      if (List.length gone <=? maxVariables engine)%nat
      then Some (sendNoContent, execDelete db gone)
      else Some (sendError 500, db)
  end.

(** A request as [handleApi] routes it: the method and path of lines 68,
    78 and 102 to 109 already matched, [targetId] being the number in the
    path. *)
Inductive Request : Type :=
  | GetNodes
  | PostNodes (raw : RawBody)
  | PutNode (targetId : Z) (raw : RawBody)
  | DeleteNode (targetId : Z)
  | OtherMethod (targetId : Z)
  | NoRoute.

(** [readJsonBody], lines 193 to 207: no chunk gives [{}]; a body that does
    not parse is answered 400 without the callback. *)
Definition readJsonBody (raw : RawBody) (db : Db)
    (callback : option JsObject -> Response * Db) : Response * Db :=
  match raw with
  | NoChunks => callback (Some [])
  | Parsed value => callback value
  | Malformed => (sendError 400, db)
  end.

(** [handleApi], lines 67 to 166. *)
Definition handleApi (fuel : nat) (db : Db) (req : Request) : option (Response * Db) :=
  match req with
  | GetNodes => Some (handleGet db)
  | PostNodes raw => Some (readJsonBody raw db (postNodes db))
  | PutNode targetId raw => Some (readJsonBody raw db (putNode db targetId))
  | DeleteNode targetId => deleteNode fuel db targetId
  | OtherMethod _ => Some (sendError 405, db)
  | NoRoute => Some (sendError 404, db)
  end.

(** The request has no body with a key that is not written as the name of
    a column. *)
Definition namedRequest (db : Db) (req : Request) : bool :=
  match req with
  | PostNodes (Parsed value) => named db value
  | PutNode _ (Parsed value) => named db value
  | _ => true
  end.

End Handlers.

End Server.

(** ** The client's traversals, [public/js/utils/tree.js]

    [data] is the array the server sent: rows with [id] and [parent_id]. *)

Module Tree.

Import Server.

(** [n.parent_id === nodeId] *)
Definition hasParent (nodeId : Z) (n : Row) : bool :=
  match parent_id n with
  | Some p => Z.eqb p nodeId
  | None => false
  end.

(** [getDescendantIds], lines 13 to 24: the function calls itself on every
    child. [fuel] is the number of nested calls the stack still has room
    for; [None] means the call has not returned. *)
Fixpoint getDescendantIds (fuel : nat) (data : list Row) (nodeId : Z) : option (list Z) :=
  match fuel with
  | O => None
  | S fuel' =>
      if existsb (fun n => Z.eqb (id n) nodeId) data then
        fold_left
          (fun descendants child =>
             match descendants, getDescendantIds fuel' data (id child) with
             | Some ds, Some sub => Some (ds ++ [id child] ++ sub)
             | _, _ => None
             end)
          (List.filter (hasParent nodeId) data)
          (Some [])
      else Some []
  end.

(** [!node.parent_id]: [null] and [0] are falsy. *)
Definition truthyParent (n : Row) : option Z :=
  match parent_id n with
  | Some 0 => None
  | Some p => Some p
  | None => None
  end.

(** The state [findParent] works on: the two locals of [getAncestorIds]. *)
Record Walk : Type := mkWalk {
  ancestors : list Z;
  visited : list Z
}.

(** [findParent], lines 36 to 45. *)
Fixpoint findParent (fuel : nat) (data : list Row) (i : Z) (w : Walk) : option Walk :=
  match fuel with
  | O => None
  | S fuel' =>
      if existsb (Z.eqb i) (visited w) then Some w
      else
        let w1 := mkWalk (ancestors w) (i :: visited w) in
        match List.find (fun n => Z.eqb (id n) i) data with
        | None => Some w1
        | Some node =>
            match truthyParent node with
            | None => Some w1
            | Some p => findParent fuel' data p (mkWalk (ancestors w1 ++ [p]) (visited w1))
            end
        end
  end.

(** [getAncestorIds], lines 32 to 49. *)
Definition getAncestorIds (fuel : nat) (data : list Row) (nodeId : Z) : option (list Z) :=
  option_map ancestors (findParent fuel data nodeId (mkWalk [] [])).

(** The rows of [data] whose key [findParent] has not visited yet. *)
Definition unvisited (data : list Row) (visited : list Z) : list Row :=
  List.filter (fun r => negb (existsb (Z.eqb (id r)) visited)) data.

End Tree.

(** ** [TreeRenderer.buildForest], [public/js/ui/ui.js] lines 33 to 64 *)

Module Forest.

Import Server.

(** The [nodes] map: keys in the order of their first [set]; the node object
    of a key is named by the key. *)
Fixpoint mapSet (m : list (Z * Row)) (k : Z) (v : Row) : list (Z * Row) :=
  match m with
  | [] => [(k, v)]
  | (k', v') :: rest =>
      if Z.eqb k' k then (k, v) :: rest else (k', v') :: mapSet rest k v
  end.

Definition mapHas (m : list (Z * Row)) (k : Z) : bool :=
  existsb (fun kv => Z.eqb (fst kv) k) m.

(** The first pass: [nodes.set(row.id, { data: row, children: [] })]. *)
Definition buildNodes (data : list Row) : list (Z * Row) :=
  fold_left (fun m row => mapSet m (id row) row) data [].

(** The [children] arrays of the node objects, one per key. *)
Fixpoint pushChild (store : list (Z * list Z)) (parent child : Z) : list (Z * list Z) :=
  match store with
  | [] => [(parent, [child])]
  | (k, cs) :: rest =>
      if Z.eqb k parent then (k, cs ++ [child]) :: rest
      else (k, cs) :: pushChild rest parent child
  end.

Record Built : Type := mkBuilt {
  roots : list Z;
  orphans : list Z;
  children : list (Z * list Z)
}.

(** The body of the second pass, for one node. *)
Definition place (nodes : list (Z * Row)) (acc : Built) (node : Z * Row) : Built :=
  let nodeId := id (snd node) in
  match parent_id (snd node) with
  | None => mkBuilt (roots acc ++ [fst node]) (orphans acc) (children acc)
  | Some parentId =>
      if Z.eqb parentId nodeId then
        mkBuilt (roots acc ++ [fst node]) (orphans acc) (children acc)
      else if mapHas nodes parentId then
        mkBuilt (roots acc) (orphans acc) (pushChild (children acc) parentId (fst node))
      else
        mkBuilt (roots acc) (orphans acc ++ [fst node]) (children acc)
  end.

Definition buildForest (data : list Row) : Built :=
  let nodes := buildNodes data in
  fold_left (place nodes) nodes (mkBuilt [] [] []).

End Forest.

(** ** The renumbering script, [Scripts/test-0.sql]

    SQLite's integers are 64 bits wide; the script is read on [Z], which
    agrees with it as long as no product leaves that range. *)

Module Renumber.

(** A row of [tool], as far as the script reads it. *)
Record Tool : Type := mkTool {
  id : Z;
  sort_order : Z
}.

(** [ORDER BY "sort_order"]; rows with equal keys keep the table's order. *)
Fixpoint insertBySort (r : Tool) (sorted : list Tool) : list Tool :=
  match sorted with
  | [] => [r]
  | x :: rest =>
      if Z.leb (sort_order r) (sort_order x) then r :: sorted
      else x :: insertBySort r rest
  end.

Definition orderBySort (tool : list Tool) : list Tool :=
  fold_right insertBySort [] tool.

(** Line 17: [(ROW_NUMBER() OVER (ORDER BY "sort_order") - 2) * 1000], next to
    the row's [id]; [rn] is the row number of the first row of [sorted]. *)
Fixpoint rowNumbers (rn : Z) (sorted : list Tool) : list (Z * Z) :=
  match sorted with
  | [] => []
  | r :: rest => (id r, (rn - 2) * 1000) :: rowNumbers (rn + 1) rest
  end.

Fixpoint distinct (l : list Z) : bool :=
  match l with
  | [] => true
  | x :: rest => negb (existsb (Z.eqb x) rest) && distinct rest
  end.

(** Step 3, lines 14 to 18: [tmp_tool_sort] has [id] as its primary key, so
    the [INSERT] fails when two rows of [tool] share an [id]. *)
Definition fillTmp (tool : list Tool) : option (list (Z * Z)) :=
  let tmp := rowNumbers 1 (orderBySort tool) in
  if distinct (map fst tmp) then Some tmp else None.

(** Line 22: [COALESCE(MAX(ABS(new_sort_order)), 0) + 1000] *)
Definition base_width (tmp : list (Z * Z)) : Z :=
  fold_right Z.max 0 (map (fun p => Z.abs (snd p)) tmp) + 1000.

(** [SELECT new_sort_order FROM tmp_tool_sort WHERE tmp_tool_sort.id = tool.id] *)
Fixpoint new_sort_order (tmp : list (Z * Z)) (i : Z) : option Z :=
  match tmp with
  | [] => None
  | (k, v) :: rest => if Z.eqb k i then Some v else new_sort_order rest i
  end.

(** What an expression over integers gives: SQLite computes [*], [+] and
    the unary [-] in 64-bit integers, and when the result does not fit there
    it goes over to floating point and gives a REAL. The value of that REAL
    is not modelled. *)
Inductive Key : Type :=
  | Exact (z : Z)
  | Real.

Definition int64 (z : Z) : bool := Z.leb (- 2 ^ 63) z && Z.ltb z (2 ^ 63).

Definition mul64 (a b : Z) : Key :=
  if int64 (a * b) then Exact (a * b) else Real.

Definition add64 (k : Key) (b : Z) : Key :=
  match k with
  | Exact a => if int64 (a + b) then Exact (a + b) else Real
  | Real => Real
  end.

Definition neg64 (k : Key) : Key :=
  match k with
  | Exact a => if int64 (- a) then Exact (- a) else Real
  | Real => Real
  end.

(** A row of [tool] once the script has written to it. *)
Record Written : Type := mkWritten {
  wid : Z;
  wkey : Key
}.

(** Lines 26 to 30: [-(tmp.new_sort_order * params.base_width + tool.id)] *)
Definition temporaryKey (v width i : Z) : Key :=
  neg64 (add64 (mul64 v width) i).

(** No product, sum or negation that the first [UPDATE] computes for the
    row leaves the 64-bit integers. *)
Definition fits (tmp : list (Z * Z)) (r : Tool) : bool :=
  match new_sort_order tmp (id r) with
  | Some v =>
      int64 (v * base_width tmp) &&
      int64 (v * base_width tmp + id r) &&
      int64 (- (v * base_width tmp + id r))
  | None => true
  end.

(** The first [UPDATE], lines 25 to 31. *)
Definition phase1 (tmp : list (Z * Z)) (tool : list Tool) : list Written :=
  map (fun r =>
         match new_sort_order tmp (id r) with
         | Some v => mkWritten (id r) (temporaryKey v (base_width tmp) (id r))
         | None => mkWritten (id r) (Exact (sort_order r))
         end) tool.

(** The second [UPDATE], lines 33 to 39. *)
Definition phase2 (tmp : list (Z * Z)) (t1 : list Written) : list Written :=
  map (fun r =>
         match new_sort_order tmp (wid r) with
         | Some v => mkWritten (wid r) (Exact v)
         | None => r
         end) t1.

(** The table read as rows of integers, when every key is one. *)
Fixpoint readBack (t : list Written) : option (list Tool) :=
  match t with
  | [] => Some []
  | r :: rest =>
      match wkey r, readBack rest with
      | Exact z, Some rest' => Some (mkTool (wid r) z :: rest')
      | _, _ => None
      end
  end.

(** The script: the table after the first [UPDATE] and after the second.
    [None]: the [INSERT] of step 3 has failed. Every row of [tool] has its
    id in the temporary table, so the second [UPDATE] leaves an integer in
    every row and the table is read back as such. *)
Definition renumberGroup (tool : list Tool) : option (list Written * list Tool) :=
  match fillTmp tool with
  | None => None
  | Some tmp =>
      let t1 := phase1 tmp tool in
      option_map (pair t1) (readBack (phase2 tmp t1))
  end.

End Renumber.

(** ** The session registry *)

Module Registry.

(** Modelled from the spec: the configuration of section 3; the server side
    of the session API is not among the sources. *)
Record Configuration : Type := mkConfiguration {
  dataSourcePath : string;
  tableName : string;
  idField : string;
  parentField : string;
  autoBootstrap : bool
}.

(** Modelled from the spec: the session of section 3 (the registry that
    owns it is not among the sources); the opaque token is a number. *)
Record Session : Type := mkSession {
  sessionId : nat;
  resourceKey : string;
  createdAt : Z;
  lastAccessAt : Z;
  config : Configuration
}.

(** Modelled from the spec: the state of SessionRegistry (section 4.1, not
    among the sources): the live sessions and the next unused token. *)
Record State : Type := mkState {
  sessions : list Session;
  nextToken : nat
}.

Inductive Error : Type :=
  | ConflictError (heldBy : nat)
  | NotFoundError
  | ExpiredError.

(** Modelled from the spec: the idle timeout of sections 3 and 6 (the
    registry is not among the sources), 1800 seconds by default. *)
Definition IDLE_TIMEOUT : Z := 1800.

(** Modelled from the spec: a session is expired when [now - lastAccessAt]
    exceeds the idle timeout (section 4.1, [sweep]; not among the sources). *)
Definition expired (now : Z) (s : Session) : bool :=
  Z.ltb IDLE_TIMEOUT (now - lastAccessAt s).

(** Modelled from the spec: [sweep(now)] of section 4.1 (not among the
    sources) deletes every expired session and returns their ids. *)
Definition sweep (now : Z) (st : State) : State * list nat :=
  (mkState (List.filter (fun s => negb (expired now s)) (sessions st)) (nextToken st),
   map sessionId (List.filter (expired now) (sessions st))).

(** Modelled from the spec: [find(resourceKey)] of section 4.1 (not among
    the sources). *)
Definition find (st : State) (key : string) : option Session :=
  List.find (fun s => String.eqb (resourceKey s) key) (sessions st).

(** Modelled from the spec: [revoke(sessionId)] of section 4.1 (not among
    the sources) deletes the session regardless of age. *)
Definition revoke (st : State) (sid : nat) : State :=
  mkState (List.filter (fun s => negb (Nat.eqb (sessionId s) sid)) (sessions st))
          (nextToken st).

(** Modelled from the spec: the insertion that ends [create] (section 4.1,
    not among the sources), with a token no session has had. *)
Definition addSession (st : State) (key : string) (cfg : Configuration) (now : Z)
  : State * Session :=
  let s := mkSession (nextToken st) key now now cfg in
  (mkState (sessions st ++ [s]) (S (nextToken st)), s).

(** Modelled from the spec: [create(resourceKey, config, force)] of section
    4.1 (not among the sources), one atomic step; [sweep] runs first. *)
Definition create (st : State) (key : string) (cfg : Configuration) (force : bool)
    (now : Z) : State * (Session + Error) :=
  let st1 := fst (sweep now st) in
  match find st1 key with
  | None => let (st2, s) := addSession st1 key cfg now in (st2, inl s)
  | Some held =>
      if force then
        let (st2, s) := addSession (revoke st1 (sessionId held)) key cfg now in
        (st2, inl s)
      else (st1, inr (ConflictError (sessionId held)))
  end.

(** Modelled from the spec: [touch(sessionId)] of section 4.1 (not among the
    sources) refreshes [lastAccessAt]. *)
Definition touch (st : State) (sid : nat) (now : Z) : State * (unit + Error) :=
  if existsb (fun s => Nat.eqb (sessionId s) sid) (sessions st) then
    (mkState
       (map (fun s =>
               if Nat.eqb (sessionId s) sid
               then mkSession (sessionId s) (resourceKey s) (createdAt s) now (config s)
               else s) (sessions st))
       (nextToken st), inl tt)
  else (st, inr NotFoundError).

(** Modelled from the spec: [authorize(sessionId)] of section 4.2 (not among
    the sources) fails if the session does not exist or is expired, else
    touches it and returns its configuration. *)
Definition authorize (st : State) (sid : nat) (now : Z) : State * (Configuration + Error) :=
  match List.find (fun s => Nat.eqb (sessionId s) sid) (sessions st) with
  | None => (st, inr ExpiredError)
  | Some s =>
      if expired now s then (st, inr ExpiredError)
      else (fst (touch st sid now), inl (config s))
  end.

(** Modelled from the spec: the sessions that hold a resource at [now]: those
    of that key that are not expired (section 3; not among the sources). *)
Definition holders (st : State) (key : string) (now : Z) : list Session :=
  List.filter (fun s => String.eqb (resourceKey s) key && negb (expired now s)) (sessions st).

(** Modelled from the spec: the invariant of section 4.1 (the registry is
    not among the sources): no two sessions have the same resource key, and
    every token in use is below the next one. *)
Definition wf (st : State) : Prop :=
  List.NoDup (map resourceKey (sessions st)) /\
  forall s, In s (sessions st) -> (sessionId s < nextToken st)%nat.

(** The sessions of [base] leave the resource [key] free and have tokens
    below [n]. *)
Definition free (key : string) (n : nat) (base : list Session) : Prop :=
  forall s, In s base -> resourceKey s <> key /\ (sessionId s < n)%nat.

(** Modelled from the spec: the registry before any session is created
    (section 4.1, not among the sources). *)
Definition empty : State := mkState [] 0.

End Registry.

(** ** [ConfigFormController.applyConfig],
    [public/js/config/config-form-controller.js]

    The method talks to the server and to the operator. Both are given as
    the answers they make; the method is read as the requests and prompts it
    issues, in order. A [fetch] that rejects outside [try] is not covered. *)

Module ConfigForm.

(** The two fields of a configuration that the controller compares. *)
Record FormConfig : Type := mkFormConfig {
  DB_PATH : string;
  TABLE_NAME : string
}.

(** An entry of the array that [GET /api/session] returns;
    [lastAccess] is [session.lastAccess || 0]. *)
Record SessionInfo : Type := mkSessionInfo {
  sid : string;
  lastAccess : Z;
  sconfig : option FormConfig
}.

(** The id in the path of a forcing [PUT]: a session id, or
    ['temp-' + Date.now()]. *)
Inductive SessionRef : Type :=
  | Token (s : string)
  | Temp (stamp : Z).

Inductive Event : Type :=
  | GetSessions
  | DeleteSession (s : string) (isExpired : bool)
  | PostSession
  | Confirm (answer : bool)
  | PutSessionForce (s : SessionRef)
  | PostConfig (s : string)
  | StoreSessionId (s : string).

(** The answer to [POST /api/session]: [ok] with or without
    [result.data.sessionId], 409, or another status. *)
Inductive CreateAnswer : Type :=
  | Created (sessionId : option string)
  | Conflict
  | CreateFailed.

(** The answer to [POST /api/config]. *)
Inductive ConfigAnswer : Type :=
  | ConfigOk
  | ConfigConflict
  | ConfigFailed.

Record Env : Type := mkEnv {
  storedSessionId : option string;
  now : Z;
  sessionList : option (list SessionInfo);
  createAnswer : CreateAnswer;
  operatorConfirms : bool;
  tempStamp : Z;
  forceCreateAnswer : option string;
  sessionListAfter : option (list SessionInfo);
  configAnswer : ConfigAnswer;
  forceUpdateOk : bool
}.

Inductive Outcome : Type :=
  | Returned
  | Thrown.

(** Line 678: [30 * 60 * 1000] *)
Definition sessionTimeout : Z := 30 * 60 * 1000.

Definition isExpired (env : Env) (s : SessionInfo) : bool :=
  Z.ltb sessionTimeout (now env - lastAccess s).

Definition sameResource (config : FormConfig) (s : SessionInfo) : bool :=
  match sconfig s with
  | Some c =>
      String.eqb (DB_PATH c) (DB_PATH config) &&
      String.eqb (TABLE_NAME c) (TABLE_NAME config)
  | None => false
  end.

(** [cleanupConflictingSessions], lines 662 to 703. *)
Definition cleanupConflictingSessions (env : Env) (config : FormConfig) : list Event :=
  GetSessions ::
  match sessionList env with
  | None => []
  | Some sessions =>
      map (fun s => DeleteSession (sid s) (isExpired env s))
          (List.filter (fun s => isExpired env s || sameResource config s) sessions)
  end.

(** Lines 411 to 446: the update of the configuration under [sessionId]. *)
Definition updateConfig (env : Env) (sessionId : string) (before : list Event)
  : list Event * Outcome :=
  match configAnswer env with
  | ConfigOk => (before ++ [PostConfig sessionId], Returned)
  | ConfigConflict =>
      (before ++ [PostConfig sessionId; PutSessionForce (Token sessionId)],
       if forceUpdateOk env then Returned else Thrown)
  | ConfigFailed => (before ++ [PostConfig sessionId], Thrown)
  end.

(** A session id as the tests of lines 311, 329 and 367 take it: [null],
    a missing property and the empty string are falsy. *)
Definition truthyId (s : option string) : option string :=
  match s with
  | Some "" => None
  | _ => s
  end.

(** [applyConfig], lines 306 to 447. *)
Definition applyConfig (env : Env) (config : FormConfig) : list Event * Outcome :=
  match truthyId (storedSessionId env) with
  | Some sessionId => updateConfig env sessionId []
  | None =>
      let asked := cleanupConflictingSessions env config ++ [PostSession] in
      match createAnswer env with
      | Created created =>
          match truthyId created with
          | Some sessionId =>
              updateConfig env sessionId (asked ++ [StoreSessionId sessionId])
          | None => (asked, Thrown)
          end
      | Conflict =>
          if operatorConfirms env then
            let forced := asked ++ [Confirm true; PutSessionForce (Temp (tempStamp env))] in
            match truthyId (forceCreateAnswer env) with
            | Some sessionId =>
                updateConfig env sessionId (forced ++ [StoreSessionId sessionId])
            | None =>
                let listed := forced ++ [GetSessions] in
                match
                  match sessionListAfter env with
                  | Some sessions => List.find (sameResource config) sessions
                  | None => None
                  end
                with
                | Some existing =>
                    if String.eqb (sid existing) "" then
                      (listed ++ [StoreSessionId (sid existing)], Thrown)
                    else
                      updateConfig env (sid existing)
                                   (listed ++ [StoreSessionId (sid existing)])
                | None => (listed, Thrown)
                end
            end
          else (asked ++ [Confirm false], Thrown)
      | CreateFailed => (asked, Thrown)
      end
  end.

(** A request that takes a resource from a session that still holds it: the
    deletion of a session that is not expired, or a forcing [PUT]. *)
Definition evicts (e : Event) : bool :=
  match e with
  | DeleteSession _ false => true
  | PutSessionForce _ => true
  | _ => false
  end.

(** No evicting request is issued before the operator has confirmed. *)
Fixpoint surfacedFirst (confirmed : bool) (trace : list Event) : bool :=
  match trace with
  | [] => true
  | Confirm true :: rest => surfacedFirst true rest
  | e :: rest => (negb (evicts e) || confirmed) && surfacedFirst confirmed rest
  end.

(** No forcing [PUT] for a new session (the one under a temporary id) is
    issued before the operator has confirmed. *)
Fixpoint forceCreateAsked (confirmed : bool) (trace : list Event) : bool :=
  match trace with
  | [] => true
  | Confirm true :: rest => forceCreateAsked true rest
  | PutSessionForce (Temp _) :: rest => confirmed && forceCreateAsked confirmed rest
  | _ :: rest => forceCreateAsked confirmed rest
  end.

End ConfigForm.

(** ** What the claims speak of *)

Module Closure.

Import Server.

(** [c] is a child of [p]: some row has key [c] and parent [p]. *)
Definition childOf (db : Db) (p c : Z) : Prop :=
  exists r, In r (rows db) /\ id r = c /\ parent_id r = Some p.

(** The descendants of [a]: what child links reach from [a] in one step or
    more; the descendant closure adds [a] itself. *)
Definition descendant (db : Db) (a d : Z) : Prop := tc (childOf db) a d.
Definition inClosure (db : Db) (a d : Z) : Prop := rtc (childOf db) a d.

(** No node is its own ancestor. *)
Definition acyclic (db : Db) : Prop := forall x, ~ descendant db x x.

(** The order key of a row: its [sort_order] column, the one the
    renumbering script maintains. *)
Definition orderKey (r : Row) : option Z :=
  match getProp (extra r) "sort_order" with
  | JNumber (Int z) => Some z
  | _ => None
  end.

(** [(orderKey a, id a) <= (orderKey b, id b)], a missing key first. *)
Definition keyThenIdLe (a b : Row) : bool :=
  match orderKey a, orderKey b with
  | None, None => Z.leb (id a) (id b)
  | None, Some _ => true
  | Some _, None => false
  | Some x, Some y => Z.ltb x y || (Z.eqb x y && Z.leb (id a) (id b))
  end.

Fixpoint sortedBy (le : Row -> Row -> bool) (l : list Row) : bool :=
  match l with
  | [] => true
  | a :: rest =>
      match rest with
      | [] => true
      | b :: _ => le a b && sortedBy le rest
      end
  end.

(** The keys that [n] child links reach from the keys of [q], each as often
    as there are paths to it. *)
Fixpoint generation (db : Db) (n : nat) (q : list Z) : list Z :=
  match n with
  | O => q
  | S n' => generation db n' (flat_map (childrenOf db) q)
  end.

(** From [x] child links lead to a node that is its own descendant. *)
Definition reachesCycle (db : Db) (x : Z) : Prop :=
  exists y, inClosure db x y /\ descendant db y y.

(** The rows after the parent of every row of key [a] has been set to [p]. *)
Definition setParent (a : Z) (p : option Z) (rs : list Row) : list Row :=
  map (fun r => if Z.eqb (id r) a then mkRow (id r) p (extra r) else r) rs.

End Closure.

(** ** Concrete tables *)

Module Examples.

Import Server Closure.

(** A string of decimal digits read as the integer it writes, anything else
    as [NaN]: what the engine's conversion gives on such strings. *)
Fixpoint digitsValue (acc : Z) (s : string) : option Z :=
  match s with
  | EmptyString => Some acc
  | String c rest =>
      let n := nat_of_ascii c in
      if (48 <=? n)%nat && (n <=? 57)%nat
      then digitsValue (10 * acc + Z.of_nat (n - 48)) rest
      else None
  end.

Definition decimalToNumber (s : string) : JsNum :=
  match digitsValue 0 s with
  | Some z => Int z
  | None => NaN
  end.

(** An engine for the examples. Their statements have no key but names of
    columns, so [otherStatement] is never asked; they bind integers and
    strings, into columns that give them back as they were bound. *)
Definition plain : Engine :=
  mkEngine (fun _ _ _ => RunError) (fun _ v => v) 999.

Definition node (i : Z) (p : option Z) (key : Z) : Row :=
  mkRow i p [("sort_order", JNumber (Int key))].

(** The table of the scenario of section 8 of the specification:
    [{1,null,0}, {2,1,1000}, {3,1,2000}, {4,2,1000}]. *)
Definition scenario : Db :=
  mkDb ["sort_order"]
       [node 1 None 0; node 2 (Some 1) 1000; node 3 (Some 1) 2000; node 4 (Some 2) 1000]
       4.

(** The scenario after [update(3, {parentId: 3})]. *)
Definition selfParented : Db :=
  mkDb ["sort_order"]
       [node 1 None 0; node 2 (Some 1) 1000; node 3 (Some 3) 2000; node 4 (Some 2) 1000]
       4.

(** A root, key 1, with [n] children, keys 2 to [n + 1]. *)
Definition star (n : nat) : Db :=
  mkDb ["sort_order"]
       (node 1 None 0 :: map (fun k => node (Z.of_nat k + 1) (Some 1) 0) (seq 1 n))
       (Z.of_nat n + 1).

(** A [tool] table of one row. *)
Definition oneTool : list Renumber.Tool := [Renumber.mkTool 1 5].

(** Two rows of [tool] whose ids lie two million apart. *)
Definition farApart : list Renumber.Tool :=
  [Renumber.mkTool 2000001 0; Renumber.mkTool 1 1].

(** The two siblings of the collision scenario of section 8, keys 10 and 11. *)
Definition siblings : list Renumber.Tool :=
  [Renumber.mkTool 1 10; Renumber.mkTool 2 11].

Definition someConfig : Registry.Configuration :=
  Registry.mkConfiguration "treedb.sqlite" "tree_nodes" "id" "parent_id" true.

Definition formConfig : ConfigForm.FormConfig :=
  ConfigForm.mkFormConfig "treedb.sqlite" "tree_nodes".

(** Another tab holds the resource with session [s1], last used a minute
    ago; this tab has no session id stored. *)
Definition otherTabHolds : ConfigForm.Env :=
  ConfigForm.mkEnv None 2000000000
    (Some [ConfigForm.mkSessionInfo "s1" 1999940000 (Some formConfig)])
    (ConfigForm.Created (Some "s2")) false 2000000000 None None
    ConfigForm.ConfigOk false.

(** This tab has the session id [mine] stored, and the server answers the
    configuration update with 409. *)
Definition updateConflicts : ConfigForm.Env :=
  ConfigForm.mkEnv (Some "mine") 2000000000 None
    ConfigForm.CreateFailed false 2000000000 None None
    ConfigForm.ConfigConflict true.

End Examples.

(** ** What the table keeps *)

Module Integrity.

Import Server Closure.

(** No two rows have the same key. *)
Definition uniqueIds (db : Db) : Prop := List.NoDup (ids db).

(** Every parent that a row names is the key of a row. *)
Definition refsOk (db : Db) : Prop :=
  forall r p, In r (rows db) -> parent_id r = Some p -> hasId db p = true.

Definition sound (db : Db) : Prop := uniqueIds db /\ refsOk db.

(** The child links that start in the closure of [t]. *)
Definition childBelow (db : Db) (t x y : Z) : Prop :=
  inClosure db t x /\ childOf db x y.

End Integrity.

(** ** More of [tree.js] and of [ui.js] *)

Module TreeMore.

Import Server Tree.

(** The array [data] as a table, to speak of its child links. *)
Definition tableOf (data : list Row) : Db := mkDb [] data 0.

(** The loop of [getDescendantIds] over the children, given what the nested
    calls return: for each child its id, then what its call returns. *)
Fixpoint collectAll (rec : Z -> option (list Z)) (children : list Row) : option (list Z) :=
  match children with
  | [] => Some []
  | child :: rest =>
      match rec (id child), collectAll rec rest with
      | Some sub, Some more => Some (id child :: sub ++ more)
      | _, _ => None
      end
  end.

(** [getNodeDepth], lines 106 to 108. *)
Definition getNodeDepth (fuel : nat) (data : list Row) (nodeId : Z) : option nat :=
  option_map (@List.length Z) (getAncestorIds fuel data nodeId).

(** [isDescendant], lines 86 to 89. *)
Definition isDescendant (fuel : nat) (data : list Row) (nodeId ancestorId : Z)
  : option bool :=
  option_map (fun l => existsb (Z.eqb ancestorId) l) (getAncestorIds fuel data nodeId).

(** The local update of [DetailsRenderer.deleteNode], [ui.js] lines 478 to
    480: the rows that are neither the selected node nor among
    [descendants]. *)
Definition removeLocal (data : list Row) (selectedNodeId : Z) (descendants : list Z)
  : list Row :=
  List.filter
    (fun n => negb (Z.eqb (id n) selectedNodeId) &&
              negb (existsb (Z.eqb (id n)) descendants))
    data.

(** [getRootNodes], lines 96 to 98. *)
Definition getRootNodes (data : list Row) : list Row :=
  List.filter (fun n => match truthyParent n with None => true | Some _ => false end) data.

(** *** [DetailsRenderer.deleteNode] over [ApiClient.request] *)

(** The part of the client's state that [deleteNode] reads and writes. *)
Record ClientState : Type := mkClientState {
  data : list Row;
  selectedNodeId : option Z
}.

(** [request] of [api.js], lines 55 to 71, on the answer of the server:
    it throws when [response.ok] is false (a status outside 200 to 299),
    and [response.json()] rejects when the body is no JSON text, as the
    empty body of [sendNoContent] and of [sendJson(res, 200, undefined)]. *)
Definition requestResolves (resp : Response) : bool :=
  Z.leb 200 (status resp) && Z.leb (status resp) 299 &&
  match body resp with
  | BodyEmpty => false
  | BodyRow None => false
  | _ => true
  end.

Section Client.

Variable engine : Engine.
Variable StringToNumber : string -> JsNum.
Variables ID_FIELD PARENT_FIELD : string.

(** [DELETE /api/nodes/${id}] as the server routes it: the pattern of line
    102 wants digits after the slash. *)
Definition deleteRequest (i : Z) : Request :=
  if Z.leb 0 i then DeleteNode i else NoRoute.

(** [DetailsRenderer.deleteNode], [ui.js] lines 468 to 499, against
    [handleApi]: the state of the client and the table of the server after
    it. [confirmed] is the answer to [showConfirmation]; [stack] bounds the
    nested calls of [getDescendantIds], whose [RangeError] the [catch]
    takes like the rejection of the request; [None]: the server has not
    answered. *)
Definition uiDeleteNode (confirmed : bool) (stack fuel : nat) (st : ClientState)
    (db : Db) : option (ClientState * Db) :=
  match selectedNodeId st with
  | None => Some (st, db)
  | Some 0 => Some (st, db)
  | Some i =>
      if negb confirmed then Some (st, db)
      else
        match getDescendantIds stack (data st) i with
        | None => Some (st, db)
        | Some descendants =>
            match handleApi engine StringToNumber ID_FIELD PARENT_FIELD fuel db
                            (deleteRequest i) with
            | None => None
            | Some (resp, db') =>
                if requestResolves resp
                then Some (mkClientState (removeLocal (data st) i descendants) None, db')
                else Some (st, db')
            end
        end
  end.

End Client.

(** What [moveNode] does: it throws the one error or the other, or returns
    the new array. *)
Inductive MoveResult : Type :=
  | MoveCycle
  | MoveMissing
  | Moved (newData : list Row).

(** [newData[newData.findIndex(n => n.id === i)]] changed by [f]: the first
    row of that id. *)
Fixpoint updateFirst (i : Z) (f : Row -> Row) (newData : list Row) : list Row :=
  match newData with
  | [] => []
  | r :: rest =>
      if Z.eqb (id r) i then f r :: rest else r :: updateFirst i f rest
  end.

(** [n.parent_id === newParentId], [newParentId] being an id or [null]. *)
Definition sameParent (newParentId : option Z) (n : Row) : bool :=
  match parent_id n, newParentId with
  | Some a, Some b => Z.eqb a b
  | None, None => true
  | _, _ => false
  end.

(** [row.sort = v] *)
Definition setSort (v : Z) (r : Row) : Row :=
  mkRow (id r) (parent_id r) (setExtra (extra r) "sort" (JNumber (Int v))).

(** Lines 303 to 308: [siblings.forEach((sibling, i) => ...)], [i] being the
    index of the first of [siblings]. *)
Fixpoint renumberSiblings (i : Z) (siblings newData : list Row) : list Row :=
  match siblings with
  | [] => newData
  | sibling :: rest =>
      renumberSiblings (i + 1) rest (updateFirst (id sibling) (setSort (i * 10)) newData)
  end.

(** [moveNode], lines 281 to 318. [newData] is a copy of the array, not of
    the rows: the returned list gives the rows as they are after the call,
    for [data] as well. [index], when given, is an integer. [None]: the
    stack had no room for the walk of [isDescendant]. *)
Definition moveNode (fuel : nat) (data : list Row) (nodeId : Z)
    (newParentId : option Z) (index : option Z) : option MoveResult :=
  match
    match newParentId with
    | Some p => isDescendant fuel data p nodeId
    | None => Some false
    end
  with
  | None => None
  | Some true => Some MoveCycle
  | Some false =>
      if existsb (fun n => Z.eqb (id n) nodeId) data then
        let moved :=
          updateFirst nodeId (fun r => mkRow (id r) newParentId (extra r)) data in
        Some (Moved
                match index with
                | Some ix =>
                    updateFirst nodeId (setSort (ix * 10))
                      (renumberSiblings 0
                         (List.filter (sameParent newParentId) moved) moved)
                | None => moved
                end)
      else Some MoveMissing
  end.

(** The ids of the array are unique, and no row names 0 as its parent
    (which the walks take for no parent). *)
Definition keyed (data : list Row) : Prop :=
  List.NoDup (map id data) /\
  forall r, In r data -> parent_id r <> Some 0.

(** The array is a proper tree table: it is keyed, and no node is its own
    ancestor. *)
Definition clean (data : list Row) : Prop :=
  keyed data /\ Closure.acyclic (tableOf data).

(** What [validateTree] reports: the two kinds of entries of [errors]. *)
Inductive TreeError : Type :=
  | DuplicateId (i : Z)
  | CircularRef (i : Z).

Record Validation : Type := mkValidation {
  isValid : bool;
  errors : list TreeError;
  warnings : list Z
}.

(** [set.add(x)], the [Set] kept in the order of insertion. *)
Definition setAdd (x : Z) (s : list Z) : list Z :=
  if existsb (Z.eqb x) s then s else s ++ [x].

(** The first loop of [validateTree], lines 332 to 341. *)
Fixpoint scanIds (data : list Row) (nodeIds parentIds : list Z) (errs : list TreeError)
  : list Z * list Z * list TreeError :=
  match data with
  | [] => (nodeIds, parentIds, errs)
  | node :: rest =>
      scanIds rest
        (setAdd (id node) nodeIds)
        match truthyParent node with
        | Some p => setAdd p parentIds
        | None => parentIds
        end
        (if existsb (Z.eqb (id node)) nodeIds
         then errs ++ [DuplicateId (id node)] else errs)
  end.

(** The third loop, lines 351 to 357. *)
Fixpoint scanCycles (fuel : nat) (data rest : list Row) (errs : list TreeError)
  : option (list TreeError) :=
  match rest with
  | [] => Some errs
  | node :: rest' =>
      match truthyParent node with
      | None => scanCycles fuel data rest' errs
      | Some p =>
          match isDescendant fuel data p (id node) with
          | None => None
          | Some true => scanCycles fuel data rest' (errs ++ [CircularRef (id node)])
          | Some false => scanCycles fuel data rest' errs
          end
      end
  end.

(** [validateTree], lines 325 to 364. *)
Definition validateTree (fuel : nat) (data : list Row) : option Validation :=
  let '(nodeIds, parentIds, errs) := scanIds data [] [] [] in
  let warns := List.filter (fun p => negb (existsb (Z.eqb p) nodeIds)) parentIds in
  match scanCycles fuel data data errs with
  | None => None
  | Some errs' =>
      Some (mkValidation match errs' with [] => true | _ => false end errs' warns)
  end.

(** The first loop of [filterTree], lines 218 to 222: the ids of the rows
    that [predicate] holds of. *)
Definition matchedIds (predicate : Row -> bool) (data : list Row) : list Z :=
  fold_left (fun matched node => if predicate node then setAdd (id node) matched else matched)
            data [].

(** The second loop, lines 225 to 228. *)
Fixpoint collectAncestors (fuel : nat) (data : list Row) (matched : list Z)
    (found : list Z) : option (list Z) :=
  match matched with
  | [] => Some found
  | i :: rest =>
      match getAncestorIds fuel data i with
      | None => None
      | Some nodeAncestors =>
          collectAncestors fuel data rest
            (fold_left (fun s aid => setAdd aid s) nodeAncestors found)
      end
  end.

(** [filterTree], lines 213 to 234. *)
Definition filterTree (fuel : nat) (data : list Row) (predicate : Row -> bool)
  : option (list Row) :=
  let matched := matchedIds predicate data in
  match collectAncestors fuel data matched [] with
  | None => None
  | Some found =>
      Some (List.filter
              (fun node => existsb (Z.eqb (id node)) matched ||
                           existsb (Z.eqb (id node)) found)
              data)
  end.

(** The child links of an array, as pairs of child and parent. *)
Definition links (data : list Row) : list (Z * option Z) :=
  map (fun r => (id r, parent_id r)) data.

(** A link after the move of [nodeId] under [newParentId]. *)
Definition relink (nodeId : Z) (newParentId : option Z) (l : Z * option Z)
  : Z * option Z :=
  if Z.eqb (fst l) nodeId then (nodeId, newParentId) else l.

End TreeMore.

(** ** More tables of the scenario *)

Module MoreExamples.

Import Server Examples.

(** The row that [POST {parent_id: 2}] adds to the scenario, and the table
    after it. *)
Definition newRow : Row := mkRow 5 (Some 2) [("sort_order", JNull)].

Definition afterPost : Db :=
  mkDb ["sort_order"] (rows scenario ++ [newRow]) 5.

(** The scenario after [DELETE /api/nodes/2]. *)
Definition afterDelete : Db :=
  mkDb ["sort_order"] [node 1 None 0; node 3 (Some 1) 2000] 4.

(** The scenario after [PUT /api/nodes/3 {parent_id: 2}]. *)
Definition afterPut : Db :=
  mkDb ["sort_order"]
       [node 1 None 0; node 2 (Some 1) 1000; node 3 (Some 2) 2000; node 4 (Some 2) 1000]
       4.

(** The array of the scenario after [moveNode(data, 4, 3)]. *)
Definition afterMove : list Row :=
  [node 1 None 0; node 2 (Some 1) 1000; node 3 (Some 1) 2000; node 4 (Some 3) 1000].

(** The two siblings after the first and after the second update of the
    script. *)
Definition siblingsPhase1 : list Renumber.Written :=
  [Renumber.mkWritten 1 (Renumber.Exact 1999999);
   Renumber.mkWritten 2 (Renumber.Exact (-2))].

Definition siblingsRenumbered : list Renumber.Tool :=
  [Renumber.mkTool 1 (-1000); Renumber.mkTool 2 0].

(** A table with a column whose name has "id" in capitals, and one row;
    the body of a [POST] to it, with the numbers as strings and an empty
    name; the row that the [POST] adds, and the table after it. *)
Definition departments : Db :=
  mkDb ["Dept_ID"; "name"]
       [mkRow 1 None [("Dept_ID", JNull); ("name", JString "root")]] 1.

Definition newDepartmentBody : JsObject :=
  [("parent_id", JString "1"); ("Dept_ID", JString "12"); ("name", JString "")].

Definition newDepartment : Row :=
  mkRow 2 (Some 1) [("Dept_ID", JNumber (Int 12)); ("name", JNull)].

Definition afterNewDepartment : Db :=
  mkDb ["Dept_ID"; "name"] (rows departments ++ [newDepartment]) 2.

End MoreExamples.

(** * Properties *)

Module ServerFacts.

Import Server Closure.

Section Facts.

Variable engine : Engine.
Variable StringToNumber : string -> JsNum.
Variables ID_FIELD PARENT_FIELD : string.

Local Abbreviation normalizeIncomingValue :=
  (normalizeIncomingValue StringToNumber PARENT_FIELD).
Local Abbreviation boundValues := (boundValues StringToNumber ID_FIELD PARENT_FIELD).
Local Abbreviation putNode := (putNode engine StringToNumber ID_FIELD PARENT_FIELD).
Local Abbreviation postNodes := (postNodes engine StringToNumber ID_FIELD PARENT_FIELD).
Local Abbreviation handleApi := (handleApi engine StringToNumber ID_FIELD PARENT_FIELD).

Lemma normalize_blank key value :
  value = JString "" \/ value = JUndefined ->
  normalizeIncomingValue key value = JNull.
Proof. intros [-> | ->]; reflexivity. Qed.

Lemma normalize_idlike key value :
  value <> JString "" -> value <> JUndefined ->
  isIdLike PARENT_FIELD key = true ->
  normalizeIncomingValue key value =
    match Number StringToNumber value with
    | NaN => JNull
    | n => JNumber n
    end.
Proof.
  intros Hs Hu Hk. unfold Server.normalizeIncomingValue. rewrite Hk.
  destruct value as [| | b | n | s | p]; try congruence;
    try (destruct (Number StringToNumber _); reflexivity).
  destruct s as [| c s]; [congruence |].
  simpl. destruct (StringToNumber _); reflexivity.
Qed.

Lemma isIdLike_spec key :
  isIdLike PARENT_FIELD key = true <->
  key = PARENT_FIELD \/ includes (toLowerCase key) "id" = true.
Proof.
  unfold isIdLike. rewrite orb_true_iff, String.eqb_eq. reflexivity.
Qed.

Lemma boundValues_In payload col v :
  In (col, v) (boundValues payload) ->
  v = normalizeIncomingValue col (getProp payload col) /\
  col <> ID_FIELD /\ In col (keys payload).
Proof.
  unfold Server.boundValues, columnsOf. rewrite in_map_iff.
  intros (c & Heq & Hin). inversion Heq; subst.
  apply filter_In in Hin as [Hin Hne].
  repeat split; auto.
  intros ->. rewrite String.eqb_refl in Hne. discriminate.
Qed.

(** *** [ORDER BY id] *)

Lemma insertById_perm r l : Permutation (insertById r l) (r :: l).
Proof.
  induction l as [| x l IH]; simpl; [reflexivity |].
  destruct (Z.leb (id r) (id x)); [reflexivity |].
  rewrite IH. apply perm_swap.
Qed.

Lemma orderById_perm l : Permutation (orderById l) l.
Proof.
  induction l as [| r l IH]; simpl; [constructor |].
  rewrite insertById_perm. now constructor.
Qed.

Lemma insertById_sorted r l :
  StronglySorted (fun a b => id a <= id b) l ->
  StronglySorted (fun a b => id a <= id b) (insertById r l).
Proof.
  induction 1 as [| x l Hs IH Hall]; simpl.
  - repeat constructor.
  - destruct (Z.leb (id r) (id x)) eqn:E.
    + apply Z.leb_le in E. constructor; [now constructor |].
      constructor; [exact E |].
      eapply Forall_impl; [exact Hall |]. simpl. intros; lia.
    + apply Z.leb_gt in E. constructor; [exact IH |].
      eapply Permutation_Forall; [symmetry; apply insertById_perm |].
      constructor; [lia | exact Hall].
Qed.

Lemma orderById_sorted l : StronglySorted (fun a b => id a <= id b) (orderById l).
Proof.
  induction l as [| r l IH]; simpl; [constructor |].
  now apply insertById_sorted.
Qed.

Lemma sorted_strict l :
  List.NoDup (map id l) ->
  StronglySorted (fun a b => id a <= id b) l ->
  StronglySorted (fun a b => id a < id b) l.
Proof.
  induction l as [| x l IH]; intros Hnd Hs; [constructor |].
  apply StronglySorted_inv in Hs as [Hs Hall].
  simpl in Hnd. apply List.NoDup_cons_iff in Hnd as [Hx Hnd].
  constructor; [auto |].
  rewrite List.Forall_forall in *. intros y Hy.
  specialize (Hall y Hy).
  assert (id x <> id y).
  { intros E. apply Hx. rewrite E. now apply in_map. }
  lia.
Qed.

(** C6, as the server has it: [GET /api/nodes] answers 200 with every row of
    the table, once each, in increasing order of [id]; the order key plays
    no part. *)
Theorem listAll_ordered_by_id (db : Db) :
  List.NoDup (ids db) ->
  handleGet db = (sendJsonRows 200 (listAll db), db) /\
  Permutation (listAll db) (rows db) /\
  StronglySorted (fun a b => id a < id b) (listAll db).
Proof.
  intros Hnd. split; [reflexivity |]. split.
  - apply orderById_perm.
  - apply sorted_strict; [| apply orderById_sorted].
    unfold listAll. eapply Permutation.Permutation_NoDup; [| exact Hnd].
    apply Permutation_map. symmetry. apply orderById_perm.
Qed.

(** *** [PUT] of a new parent *)

Lemma payload_single (key : string) (v : JsValue) :
  payloadOf (Some [(key, v)]) = [(key, v)].
Proof.
  unfold payloadOf, sanitizePayload. simpl. now rewrite String.eqb_refl.
Qed.

Lemma columns_single (v : JsValue) :
  ID_FIELD <> PARENT_FIELD ->
  columnsOf ID_FIELD [(PARENT_FIELD, v)] = [PARENT_FIELD].
Proof.
  intros Hne. unfold columnsOf. simpl.
  destruct (String.eqb PARENT_FIELD ID_FIELD) eqn:E; [| reflexivity].
  apply String.eqb_eq in E. congruence.
Qed.

Lemma bound_single (b : Z) :
  ID_FIELD <> PARENT_FIELD ->
  boundValues [(PARENT_FIELD, JNumber (Int b))] = [(PARENT_FIELD, JNumber (Int b))].
Proof.
  intros Hne. unfold Server.boundValues. rewrite columns_single by assumption.
  simpl. rewrite String.eqb_refl.
  unfold Server.normalizeIncomingValue, isIdLike.
  now rewrite String.eqb_refl.
Qed.

Lemma updateRows_parent (present : Z -> bool) (a b : Z) (rs : list Row) :
  present b = true ->
  updateRows engine PARENT_FIELD present [(PARENT_FIELD, JNumber (Int b))] a rs =
    Some (setParent a (Some b) rs).
Proof.
  intros Hb. induction rs as [| r rs IH]; [reflexivity |].
  simpl. rewrite IH. destruct (Z.eqb (id r) a); [| reflexivity].
  simpl. now rewrite String.eqb_refl, Hb.
Qed.

Lemma matching_rows (db : Db) (a : Z) :
  hasId db a = true ->
  List.length (List.filter (fun r => Z.eqb (id r) a) (rows db)) <> O.
Proof.
  unfold hasId. induction (rows db) as [| r rs IH]; simpl; [discriminate |].
  destruct (Z.eqb (id r) a); simpl; [discriminate | exact IH].
Qed.

Lemma putNode_parent (db : Db) (a b : Z) :
  ID_FIELD <> PARENT_FIELD ->
  hasId db a = true ->
  hasId db b = true ->
  putNode db a (Some [(PARENT_FIELD, JNumber (Int b))]) =
    (sendJsonRow 200
       (selectById (mkDb (schema db) (setParent a (Some b) (rows db)) (sequence db)) a),
     mkDb (schema db) (setParent a (Some b) (rows db)) (sequence db)).
Proof.
  intros Hne Ha Hb. unfold Server.putNode.
  rewrite payload_single, columns_single, bound_single by assumption.
  unfold execUpdate. simpl. unfold knownColumn. rewrite String.eqb_refl. simpl.
  rewrite updateRows_parent by assumption.
  pose proof (matching_rows db a Ha) as Hn.
  destruct (List.length _); [congruence | reflexivity].
Qed.

(** No branch of [handleApi] answers 409. *)
Lemma handleApi_never_409 (fuel : nat) (db db' : Db) (req : Request) (resp : Response) :
  handleApi fuel db req = Some (resp, db') ->
  status resp <> 409.
Proof.
  destruct req as [| raw | t raw | t | t |]; simpl; intros H.
  - inversion H. discriminate.
  - inversion H as [H1]. clear H. revert H1.
    destruct raw as [| v |]; simpl; unfold postNodes;
      repeat match goal with
        | |- context [match ?x with _ => _ end] => destruct x
        end; intros H; inversion H; discriminate.
  - inversion H as [H1]. clear H. revert H1.
    destruct raw as [| v |]; simpl; unfold Server.putNode;
      repeat match goal with
        | |- context [match ?x with _ => _ end] => destruct x
        end; intros H; inversion H; discriminate.
  - unfold deleteNode in H.
    destruct (subtree _ _ _) as [[| x l] |]; [inversion H; discriminate | | discriminate].
    destruct (_ <=? _)%nat; inversion H; discriminate.
  - inversion H. discriminate.
  - inversion H. discriminate.
Qed.

(** C1, as the server has it: for existing nodes [a] and [b], whether or not
    [b] is a descendant of [a], [PUT /api/nodes/a] with [b] as the new
    parent is answered 200 with the updated row, and the table then has [b]
    as the parent of [a] and is otherwise as before; no request is answered
    with 409. *)
Theorem reparent_is_not_checked (db : Db) (a b : Z) :
  ID_FIELD <> PARENT_FIELD ->
  hasId db a = true ->
  hasId db b = true ->
  putNode db a (Some [(PARENT_FIELD, JNumber (Int b))]) =
    (sendJsonRow 200
       (selectById (mkDb (schema db) (setParent a (Some b) (rows db)) (sequence db)) a),
     mkDb (schema db) (setParent a (Some b) (rows db)) (sequence db)) /\
  (forall fuel req resp db',
     handleApi fuel db req = Some (resp, db') ->
     status resp <> 409).
Proof.
  intros Hne Ha Hb. split.
  - now apply putNode_parent.
  - intros fuel req resp db'. apply handleApi_never_409.
Qed.

End Facts.

(** *** The [subtree] query *)

Section Subtree.

Variable engine : Engine.
Variable db : Db.

Local Abbreviation deleteNode := (deleteNode engine).

Lemma childrenOf_spec (p c : Z) : In c (childrenOf db p) <-> childOf db p c.
Proof.
  unfold childrenOf, childOf. rewrite in_map_iff. split.
  - intros (r & Hid & Hin). apply filter_In in Hin as [Hin Hp].
    exists r. repeat split; auto.
    destruct (parent_id r) as [q |]; [| discriminate].
    apply Z.eqb_eq in Hp. now subst.
  - intros (r & Hin & Hid & Hp). exists r. split; [assumption |].
    apply filter_In. split; [assumption |]. rewrite Hp. apply Z.eqb_refl.
Qed.

Lemma subtree_enough (fuel fuel' : nat) (q res : list Z) :
  subtree fuel db q = Some res -> (fuel <= fuel')%nat ->
  subtree fuel' db q = Some res.
Proof.
  revert fuel' q res. induction fuel as [| fuel IH]; intros fuel' q res H Hle.
  - destruct q; simpl in H; [| discriminate].
    destruct fuel'; exact H.
  - destruct q as [| s q]; [destruct fuel'; exact H |].
    destruct fuel' as [| fuel']; [lia |]. simpl in *.
    destruct (subtree fuel db _) as [r |] eqn:E; [| discriminate].
    rewrite (IH fuel' _ r E) by lia. exact H.
Qed.

(** The queue is worked off front to back: what is in it now comes out
    before anything it brings in. *)
Lemma subtree_front (q e : list Z) (fuel : nat) :
  subtree (List.length q + fuel) db (q ++ e) =
    option_map (app q) (subtree fuel db (e ++ flat_map (childrenOf db) q)).
Proof.
  revert e. induction q as [| s q IH]; intros e; simpl.
  - rewrite app_nil_r. now destruct (subtree fuel db e).
  - rewrite <- app_assoc, IH, <- app_assoc.
    now destruct (subtree fuel db _).
Qed.

Lemma subtree_generation (q : list Z) (fuel : nat) :
  subtree (List.length q + fuel) db q =
    option_map (app q) (subtree fuel db (generation db 1 q)).
Proof.
  pose proof (subtree_front q [] fuel) as H.
  rewrite app_nil_r in H. exact H.
Qed.

Lemma generation_app (n : nat) (a b : list Z) :
  generation db n (a ++ b) = generation db n a ++ generation db n b.
Proof.
  revert a b. induction n as [| n IH]; intros a b; simpl; [reflexivity |].
  now rewrite flat_map_app, IH.
Qed.

Lemma generation_nil (n : nat) : generation db n [] = [].
Proof. induction n; simpl; auto. Qed.

Lemma generation_plus (n m : nat) (q : list Z) :
  generation db (n + m) q = generation db m (generation db n q).
Proof.
  revert q. induction n as [| n IH]; intros q; simpl; [reflexivity |].
  apply IH.
Qed.

Lemma generation_dies (n m : nat) (q : list Z) :
  generation db n q = [] -> (n <= m)%nat -> generation db m q = [].
Proof.
  intros H Hle. replace m with (n + (m - n))%nat by lia.
  rewrite generation_plus, H. apply generation_nil.
Qed.

Lemma generation_spec (n : nat) (q : list Z) (x : Z) :
  In x (generation db n q) <-> exists s, In s q /\ nsteps (childOf db) n s x.
Proof.
  revert q. induction n as [| n IH]; intros q; simpl.
  - split.
    + intros H. exists x. split; [assumption | constructor].
    + intros (s & Hs & Hn). inversion Hn; now subst.
  - rewrite IH. split.
    + intros (c & Hc & Hn). apply in_flat_map in Hc as (s & Hs & Hc).
      exists s. split; [assumption |].
      econstructor; [apply childrenOf_spec; eassumption | assumption].
    + intros (s & Hs & Hn). inversion Hn as [| ? ? c ? Hstep Hrest]; subst.
      exists c. split; [| assumption].
      apply in_flat_map. exists s. split; [assumption |].
      now apply childrenOf_spec.
Qed.

(** When some generation is empty, the query returns: all generations
    before it, one after the other. *)
Lemma subtree_returns (n : nat) (q : list Z) :
  generation db n q = [] ->
  exists fuel res,
    subtree fuel db q = Some res /\
    forall x, In x res <-> exists k, (k < n)%nat /\ In x (generation db k q).
Proof.
  revert q. induction n as [| n IH]; intros q H.
  - simpl in H. subst q. exists O, []. split; [reflexivity |].
    intros x. split; [intros [] | intros (k & Hk & _); lia].
  - simpl in H. destruct (IH _ H) as (fuel & res & Hrun & Hres).
    exists (List.length q + fuel)%nat, (q ++ res). split.
    + rewrite subtree_generation. simpl. now rewrite Hrun.
    + intros x. rewrite in_app_iff, Hres. split.
      * intros [Hq | (k & Hk & Hin)].
        -- exists O. split; [lia | exact Hq].
        -- exists (S k). split; [lia | exact Hin].
      * intros ([| k] & Hk & Hin); [left; exact Hin |].
        right. exists k. split; [lia | exact Hin].
Qed.

(** Every descendant is the key of a row, so a node has finitely many. *)
Lemma descendant_has_row (a d : Z) : descendant db a d -> In d (ids db).
Proof.
  unfold descendant, ids. induction 1 as [a d (r & Hin & Hid & _) | a b d _ _ IH].
  - subst d. now apply in_map.
  - exact IH.
Qed.

Lemma acyclic_sn (x : Z) : acyclic db -> sn (childOf db) x.
Proof.
  intros Hacyc. apply tc_finite_sn.
  - intros y Hy. exact (Hacyc y Hy).
  - exists (ids db). intros y Hy. apply list_elem_of_In.
    exact (descendant_has_row x y Hy).
Qed.

Lemma generations_end_list (l : list Z) :
  (forall y, In y l -> exists n, generation db n [y] = []) ->
  exists n, generation db n l = [].
Proof.
  induction l as [| y l IH]; intros H.
  - exists O. reflexivity.
  - destruct (H y (or_introl eq_refl)) as [n Hn].
    destruct IH as [m Hm]; [intros z Hz; apply H; now right |].
    exists (Nat.max n m). change (y :: l) with ([y] ++ l).
    rewrite generation_app.
    rewrite (generation_dies n (Nat.max n m) [y] Hn) by lia.
    rewrite (generation_dies m (Nat.max n m) l Hm) by lia.
    reflexivity.
Qed.

Lemma generations_end_sn (x : Z) :
  sn (childOf db) x -> exists n, generation db n [x] = [].
Proof.
  induction 1 as [x _ IH].
  destruct (generations_end_list (childrenOf db x)) as [n Hn].
  - intros y Hy. apply IH. simpl. now apply childrenOf_spec.
  - exists (S n). simpl. now rewrite app_nil_r.
Qed.

Lemma generations_end (q : list Z) :
  acyclic db -> exists n, generation db n q = [].
Proof.
  intros Hacyc. apply generations_end_list.
  intros y _. apply generations_end_sn. now apply acyclic_sn.
Qed.

(** The seed of the query: the target, once per row that has this key. *)
Lemma seed_In (target x : Z) : In x (subtreeSeed db target) -> x = target.
Proof.
  unfold subtreeSeed. rewrite in_map_iff. intros (r & <- & Hin).
  apply filter_In in Hin as [_ H]. now apply Z.eqb_eq in H.
Qed.

Lemma seed_present (target : Z) :
  hasId db target = true -> In target (subtreeSeed db target).
Proof.
  unfold hasId, subtreeSeed. rewrite existsb_exists.
  intros (r & Hin & Hid). apply in_map_iff. exists r.
  split; [now apply Z.eqb_eq |]. now apply filter_In.
Qed.

Lemma seed_absent (target : Z) :
  hasId db target = false -> subtreeSeed db target = [].
Proof.
  unfold hasId, subtreeSeed. induction (rows db) as [| r rs IH]; simpl; [reflexivity |].
  destruct (Z.eqb (id r) target); simpl; [discriminate | exact IH].
Qed.

Lemma subtree_closure (target : Z) :
  acyclic db ->
  hasId db target = true ->
  exists fuel gone,
    subtree fuel db (subtreeSeed db target) = Some gone /\
    forall x, In x gone <-> inClosure db target x.
Proof.
  intros Hacyc Hhas.
  destruct (generations_end (subtreeSeed db target) Hacyc) as [n Hn].
  destruct (subtree_returns n _ Hn) as (fuel & gone & Hrun & Hgone).
  exists fuel, gone. split; [exact Hrun |].
  intros x. rewrite Hgone. unfold inClosure. split.
  - intros (k & _ & Hin). apply generation_spec in Hin as (s & Hs & Hsteps).
    apply seed_In in Hs. subst s. eapply rtc_nsteps_2. exact Hsteps.
  - intros Hr. apply rtc_nsteps_1 in Hr as [k Hk].
    assert (In x (generation db k (subtreeSeed db target))) as Hin.
    { apply generation_spec. exists target. split; [now apply seed_present | exact Hk]. }
    exists k. split; [| exact Hin].
    destruct (Nat.lt_ge_cases k n) as [Hlt | Hge]; [exact Hlt |].
    rewrite (generation_dies n k _ Hn Hge) in Hin. destruct Hin.
Qed.

Lemma inIds_spec (l : list Z) (i : Z) : inIds l i = true <-> In i l.
Proof.
  unfold inIds. rewrite existsb_exists. split.
  - intros (x & Hin & Heq). apply Z.eqb_eq in Heq. now subst.
  - intros Hin. exists i. split; [assumption | apply Z.eqb_refl].
Qed.

(** When the deleted keys are closed under child links, [ON DELETE SET NULL]
    finds no row to change among those that stay. *)
Lemma execDelete_rows (gone : list Z) :
  (forall p c, In p gone -> childOf db p c -> In c gone) ->
  rows (execDelete db gone) =
    List.filter (fun r => negb (inIds gone (id r))) (rows db).
Proof.
  intros Hclosed. unfold execDelete. simpl.
  assert (forall rs, (forall r, In r rs -> In r (rows db)) ->
            map (setNull gone) (List.filter (fun r => negb (inIds gone (id r))) rs) =
            List.filter (fun r => negb (inIds gone (id r))) rs) as H.
  { induction rs as [| r rs IH]; intros Hsub; [reflexivity |]. simpl.
    destruct (inIds gone (id r)) eqn:E; simpl.
    - apply IH. intros; apply Hsub; now right.
    - rewrite IH by (intros; apply Hsub; now right). f_equal.
      unfold setNull. destruct (parent_id r) as [p |] eqn:Ep; [| reflexivity].
      destruct (inIds gone p) eqn:Eg; [| reflexivity].
      apply inIds_spec in Eg.
      assert (In (id r) gone) as Hin.
      { apply (Hclosed p (id r) Eg). exists r.
        repeat split; [apply Hsub; now left | exact Ep]. }
      apply inIds_spec in Hin. congruence. }
  apply H. auto.
Qed.

(** What [DELETE] answers once the [subtree] query has returned. *)
Lemma deleteNode_answers (target : Z) (fuel fuel' : nat) (gone : list Z) :
  subtree fuel db (subtreeSeed db target) = Some gone ->
  In target gone ->
  (fuel <= fuel')%nat ->
  deleteNode fuel' db target =
    Some (if (List.length gone <=? maxVariables engine)%nat
          then (sendNoContent, execDelete db gone)
          else (sendError 500, db)).
Proof.
  intros Hrun Hin Hle. unfold Server.deleteNode.
  rewrite (subtree_enough fuel fuel' _ gone Hrun Hle).
  destruct gone as [| g gone']; [destruct Hin |].
  now destruct (_ <=? _)%nat.
Qed.

Lemma deleteNode_absent (target : Z) (fuel : nat) :
  hasId db target = false ->
  deleteNode fuel db target = Some (sendError 404, db).
Proof.
  intros Hno. unfold Server.deleteNode. rewrite seed_absent by assumption.
  destruct fuel; reflexivity.
Qed.

(** On an acyclic table the rows that [execDelete] leaves are the rows
    outside the closure, as they were. *)
Lemma closure_removed (target : Z) (gone : list Z) :
  (forall x, In x gone <-> inClosure db target x) ->
  forall r, In r (rows (execDelete db gone)) <->
            In r (rows db) /\ ~ inClosure db target (id r).
Proof.
  intros Hgone r. rewrite execDelete_rows.
  - rewrite filter_In, negb_true_iff, <- Hgone.
    rewrite <- not_true_iff_false, inIds_spec. reflexivity.
  - intros p c Hp Hc. apply Hgone. apply Hgone in Hp.
    eapply rtc_r; eassumption.
Qed.

(** A closure with more rows than one statement has host parameters: the
    [DELETE] is refused, the answer is 500 and every row stays. *)
Lemma deleteNode_beyond (target : Z) (l : list Z) :
  acyclic db ->
  hasId db target = true ->
  List.NoDup l ->
  (forall x, In x l -> inClosure db target x) ->
  (maxVariables engine < List.length l)%nat ->
  exists fuel,
    forall fuel', (fuel <= fuel')%nat ->
      deleteNode fuel' db target = Some (sendError 500, db).
Proof.
  intros Hacyc Hhas Hnd Hl Hmax.
  destruct (subtree_closure target Hacyc Hhas) as (fuel & gone & Hrun & Hgone).
  exists fuel. intros fuel' Hle.
  rewrite (deleteNode_answers target fuel fuel' gone Hrun) by
    (try exact Hle; apply Hgone; constructor).
  assert (List.length l <= List.length gone)%nat as Hlen.
  { apply List.NoDup_incl_length; [exact Hnd |]. intros x Hx. apply Hgone. now apply Hl. }
  destruct (Nat.leb_spec (List.length gone) (maxVariables engine)); [lia | reflexivity].
Qed.

(** *** A cycle below the target *)

Lemma reachesCycle_child (x : Z) :
  reachesCycle db x -> exists c, In c (childrenOf db x) /\ reachesCycle db c.
Proof.
  intros (y & Hxy & Hyy). unfold inClosure in Hxy.
  destruct Hxy as [x | x c y Hstep Hrest].
  - unfold descendant in Hyy. inversion Hyy as [? ? Hstep | ? c ? Hstep Hrest]; subst.
    + exists x. split; [now apply childrenOf_spec |].
      exists x. split; [constructor | exact Hyy].
    + exists c. split; [now apply childrenOf_spec |].
      exists x. split; [now apply tc_rtc | exact Hyy].
  - exists c. split; [now apply childrenOf_spec |].
    exists y. split; assumption.
Qed.

(** While a key that reaches a cycle is in the queue, the query runs on. *)
Lemma subtree_diverges (fuel : nat) (q : list Z) :
  (exists x, In x q /\ reachesCycle db x) ->
  subtree fuel db q = None.
Proof.
  revert q. induction fuel as [| fuel IH]; intros q (x & Hin & Hx).
  - destruct q; [destruct Hin | reflexivity].
  - destruct q as [| s q]; [destruct Hin |]. simpl.
    rewrite IH; [reflexivity |].
    destruct Hin as [-> | Hin].
    + destruct (reachesCycle_child x Hx) as (c & Hc & Hcc).
      exists c. split; [apply in_app_iff; now right | exact Hcc].
    + exists x. split; [apply in_app_iff; now left | exact Hx].
Qed.

Lemma deleteNode_diverges (fuel : nat) (target : Z) :
  hasId db target = true ->
  reachesCycle db target ->
  deleteNode fuel db target = None.
Proof.
  intros Hhas Hcyc. unfold Server.deleteNode. rewrite subtree_diverges; [reflexivity |].
  exists target. split; [now apply seed_present | exact Hcyc].
Qed.

End Subtree.

End ServerFacts.

(** ** [buildForest] *)

Module ForestFacts.

Import Server Closure Forest.

Lemma mapSet_In (m : list (Z * Row)) (k : Z) (v : Row) (k' : Z) (v' : Row) :
  In (k', v') (mapSet m k v) -> (k' = k /\ v' = v) \/ In (k', v') m.
Proof.
  induction m as [| [k0 v0] m IH]; simpl.
  - intros [H | []]. inversion H. now left.
  - destruct (Z.eqb k0 k) eqn:E; simpl.
    + intros [H | H]; [inversion H; now left | right; now right].
    + intros [H | H]; [right; now left |].
      destruct (IH H) as [? | ?]; [now left | right; now right].
Qed.

Lemma mapSet_has (m : list (Z * Row)) (k : Z) (v : Row) :
  exists v', In (k, v') (mapSet m k v).
Proof.
  induction m as [| [k0 v0] m [v' IH]]; simpl.
  - exists v. now left.
  - destruct (Z.eqb k0 k) eqn:E; simpl.
    + exists v. now left.
    + exists v'. now right.
Qed.

Lemma mapSet_keeps (m : list (Z * Row)) (k : Z) (v : Row) (k' : Z) :
  (exists v', In (k', v') m) -> exists v', In (k', v') (mapSet m k v).
Proof.
  intros (v' & Hin). induction m as [| [k0 v0] m IH]; [destruct Hin |].
  simpl. destruct (Z.eqb k0 k) eqn:E.
  - apply Z.eqb_eq in E. subst k0.
    destruct Hin as [H | H].
    + inversion H; subst. exists v. now left.
    + exists v'. right. exact H.
  - destruct Hin as [H | H].
    + exists v'. left. exact H.
    + destruct (IH H) as (v'' & Hv). exists v''. right. exact Hv.
Qed.

(** Every node of the map carries a row of [data] under that row's key, and
    every key of [data] has a node. *)
Lemma buildNodes_from (data : list Row) (m : list (Z * Row)) (k : Z) (v : Row) :
  In (k, v) (fold_left (fun m row => mapSet m (id row) row) data m) ->
  In (k, v) m \/ (In v data /\ id v = k).
Proof.
  revert m. induction data as [| row data IH]; intros m; simpl; [now left |].
  intros H. destruct (IH _ H) as [Hm | [Hd Hid]].
  - apply mapSet_In in Hm as [[-> ->] | Hm]; [right; split; auto | now left].
  - right. split; [now right | exact Hid].
Qed.

Lemma buildNodes_keys (data : list Row) (m : list (Z * Row)) (k : Z) :
  (exists v, In (k, v) m) \/ (exists r, In r data /\ id r = k) ->
  exists v, In (k, v) (fold_left (fun m row => mapSet m (id row) row) data m).
Proof.
  revert m. induction data as [| row data IH]; intros m; simpl.
  - intros [H | (r & [] & _)]. exact H.
  - intros [H | (r & [-> | Hin] & Hid)].
    + apply IH. left. now apply mapSet_keeps.
    + apply IH. left. subst k. apply mapSet_has.
    + apply IH. right. exists r. split; assumption.
Qed.

Lemma place_roots_grow (nodes : list (Z * Row)) (acc : Built) (n : Z * Row) (k : Z) :
  In k (roots acc) -> In k (roots (place nodes acc n)).
Proof.
  intros H. unfold place.
  destruct (parent_id (snd n)) as [p |]; simpl.
  - destruct (Z.eqb p (id (snd n))); simpl; [apply in_app_iff; now left |].
    destruct (mapHas nodes p); simpl; assumption.
  - apply in_app_iff; now left.
Qed.

Lemma fold_roots_grow (nodes l : list (Z * Row)) (acc : Built) (k : Z) :
  In k (roots acc) -> In k (roots (fold_left (place nodes) l acc)).
Proof.
  revert acc. induction l as [| n l IH]; intros acc H; simpl; [exact H |].
  apply IH. now apply place_roots_grow.
Qed.

Lemma fold_places_root (nodes l : list (Z * Row)) (acc : Built) (k : Z) (v : Row) :
  In (k, v) l ->
  parent_id v = None \/ parent_id v = Some (id v) ->
  In k (roots (fold_left (place nodes) l acc)).
Proof.
  revert acc. induction l as [| n l IH]; intros acc Hin Hp; [destruct Hin |].
  simpl. destruct Hin as [-> | Hin]; [| now apply IH].
  apply fold_roots_grow. unfold place. simpl.
  destruct Hp as [-> | ->]; simpl.
  - apply in_app_iff. right. now left.
  - rewrite Z.eqb_refl. simpl. apply in_app_iff. right. now left.
Qed.

(** A key all of whose rows name the key itself as parent is placed among
    the roots. *)
Lemma self_parent_is_root (data : list Row) (i : Z) :
  (exists r, In r data /\ id r = i) ->
  (forall r, In r data -> id r = i -> parent_id r = Some i) ->
  In i (roots (buildForest data)).
Proof.
  intros Hex Hall. unfold buildForest, buildNodes.
  destruct (buildNodes_keys data [] i (or_intror Hex)) as (v & Hv).
  eapply fold_places_root; [exact Hv |].
  apply buildNodes_from in Hv as [[] | [Hd Hid]].
  right. rewrite Hid. now apply Hall.
Qed.

End ForestFacts.

(** ** A node made its own parent *)

Module SelfParent.

Import Server Closure Forest.

Lemma setParent_parent (a : Z) (p : option Z) (rs : list Row) (r : Row) :
  In r (setParent a p rs) -> id r = a -> parent_id r = p.
Proof.
  unfold setParent. rewrite in_map_iff. intros (r0 & <- & _).
  destruct (Z.eqb (id r0) a) eqn:E; simpl; [reflexivity |].
  intros H. apply Z.eqb_neq in E. contradiction.
Qed.

Lemma setParent_has (a : Z) (p : option Z) (db : Db) :
  hasId db a = true -> exists r, In r (setParent a p (rows db)) /\ id r = a.
Proof.
  unfold hasId. rewrite existsb_exists. intros (r & Hin & Hid).
  exists (mkRow (id r) p (extra r)). split; [| now apply Z.eqb_eq].
  unfold setParent. apply in_map_iff. exists r. now rewrite Hid.
Qed.

Lemma find_by_id (rs : list Row) (i : Z) :
  (exists r, In r rs /\ id r = i) ->
  exists r, List.find (fun r => Z.eqb (id r) i) rs = Some r /\ In r rs /\ id r = i.
Proof.
  intros (r0 & Hin & Hid).
  destruct (List.find (fun r => Z.eqb (id r) i) rs) as [r |] eqn:E.
  - exists r. apply find_some in E as [H1 H2]. apply Z.eqb_eq in H2. auto.
  - exfalso. pose proof (find_none _ _ E r0 Hin) as H. simpl in H.
    rewrite Hid, Z.eqb_refl in H. discriminate.
Qed.

(** With the default column names, [PUT /api/nodes/i] that names [i]
    itself as the parent of the existing node [i] is answered 200, the row
    then has [i] as its parent, and [buildForest] on the listing of the table
    puts [i] among the roots. *)
Lemma self_parent_stored (engine : Engine) (StringToNumber : string -> JsNum)
    (db : Db) (i : Z) :
  hasId db i = true ->
  let db' := mkDb (schema db) (setParent i (Some i) (rows db)) (sequence db) in
  putNode engine StringToNumber "id" "parent_id" db i
          (Some [("parent_id", JNumber (Int i))]) =
    (sendJsonRow 200 (selectById db' i), db') /\
  (exists r, selectById db' i = Some r /\ parent_id r = Some i) /\
  In i (roots (buildForest (listAll db'))).
Proof.
  intros Hhas. cbv zeta. unfold listAll, selectById. simpl. split; [| split].
  - apply ServerFacts.putNode_parent; [discriminate | assumption | assumption].
  - destruct (find_by_id (setParent i (Some i) (rows db)) i
                (setParent_has i (Some i) db Hhas)) as (r & Hfind & Hin & Hid).
    exists r. split; [exact Hfind |]. eapply setParent_parent; eassumption.
  - apply ForestFacts.self_parent_is_root.
    + destruct (setParent_has i (Some i) db Hhas) as (r & Hin & Hid).
      exists r. split; [| exact Hid].
      eapply Permutation_in; [symmetry; apply ServerFacts.orderById_perm | exact Hin].
    + intros r Hin Hid. eapply setParent_parent; [| exact Hid].
      eapply Permutation_in; [apply ServerFacts.orderById_perm | exact Hin].
Qed.

End SelfParent.

(** ** The properties on the scenario *)

Module ScenarioFacts.

Import Server Closure Forest Examples.

(** A table in which every parent has a smaller key than its child has no
    cycle. *)
Lemma increasing_acyclic (db : Db) :
  (forall r p, In r (rows db) -> parent_id r = Some p -> p < id r) ->
  acyclic db.
Proof.
  intros Hinc.
  assert (forall a d, descendant db a d -> a < d) as Hlt.
  { unfold descendant. induction 1 as [a d (r & Hin & Hid & Hp) | a b d (r & Hin & Hid & Hp) _ IH].
    - subst d. eauto.
    - subst b. specialize (Hinc r a Hin Hp). lia. }
  intros x Hx. specialize (Hlt x x Hx). lia.
Qed.

Lemma scenario_acyclic : acyclic scenario.
Proof.
  apply increasing_acyclic. simpl. intros r p Hin Hp.
  repeat (destruct Hin as [<- | Hin]; [simpl in Hp; inversion Hp; subst; simpl; lia |]).
  destruct Hin.
Qed.

Lemma listAll_ordered_by_id_witness :
  List.NoDup (ids scenario) /\
  StronglySorted (fun a b => id a < id b) (listAll scenario).
Proof.
  assert (List.NoDup (ids scenario)) as Hnd.
  { unfold ids. simpl. repeat constructor; simpl; intuition lia. }
  split; [exact Hnd |].
  exact (proj2 (proj2 (ServerFacts.listAll_ordered_by_id scenario Hnd))).
Defined.

(** C6 fails on the scenario: the listing is in order of [id], and the order
    keys 2000 and 1000 of nodes 3 and 4 come in the wrong order. *)
Lemma listAll_not_by_order_key :
  map id (listAll scenario) = [1; 2; 3; 4] /\
  map orderKey (listAll scenario) = [Some 0; Some 1000; Some 2000; Some 1000] /\
  sortedBy keyThenIdLe (listAll scenario) = false.
Proof. repeat split. Qed.

Lemma scenario_child_2_of_1 : descendant scenario 1 2.
Proof.
  apply tc_once. exists (node 2 (Some 1) 1000). simpl. auto.
Qed.

(** C1 fails on the scenario: node 2 is a descendant of node 1, and the
    update of node 1 with parent 2 is answered 200 and changes the table. *)
Lemma reparent_under_descendant_accepted :
  descendant scenario 1 2 /\
  exists resp db',
    putNode plain decimalToNumber "id" "parent_id" scenario 1
            (Some [("parent_id", JNumber (Int 2))]) = (resp, db') /\
    status resp = 200 /\ status resp <> 409 /\
    db' <> scenario /\
    map parent_id (rows db') = [Some 2; Some 1; Some 1; Some 2].
Proof.
  split; [exact scenario_child_2_of_1 |].
  eexists _, _. split; [vm_compute; reflexivity |].
  repeat split; try discriminate.
Qed.

Lemma reparent_is_not_checked_witness :
  "id" <> "parent_id" /\ hasId scenario 1 = true /\ hasId scenario 2 = true /\
  putNode plain decimalToNumber "id" "parent_id" scenario 1
          (Some [("parent_id", JNumber (Int 2))]) =
    (sendJsonRow 200
       (selectById (mkDb (schema scenario) (setParent 1 (Some 2) (rows scenario))
                         (sequence scenario)) 1),
     mkDb (schema scenario) (setParent 1 (Some 2) (rows scenario)) (sequence scenario)).
Proof.
  assert ("id" <> "parent_id") as Hne by discriminate.
  split; [exact Hne |]. split; [reflexivity |]. split; [reflexivity |].
  exact (proj1 (ServerFacts.reparent_is_not_checked plain decimalToNumber "id" "parent_id"
                  scenario 1 2 Hne eq_refl eq_refl)).
Defined.

Lemma selfParented_reaches_cycle : reachesCycle selfParented 3.
Proof.
  exists 3. split; [constructor |].
  apply tc_once. exists (node 3 (Some 3) 2000). simpl. auto.
Qed.

(** C5 on the table the server makes from the scenario when it accepts
    [update(3, {parentId: 3})]: the [subtree] query of [DELETE /api/nodes/3]
    never empties its queue, so whatever the number of steps the handler has
    sent nothing and deleted nothing. *)
Theorem delete_runs_forever_on_self_parent (engine : Engine) :
  fst (putNode engine decimalToNumber "id" "parent_id" scenario 3
               (Some [("parent_id", JNumber (Int 3))])) =
    sendJsonRow 200 (Some (node 3 (Some 3) 2000)) /\
  snd (putNode engine decimalToNumber "id" "parent_id" scenario 3
               (Some [("parent_id", JNumber (Int 3))])) = selfParented /\
  forall fuel, deleteNode engine fuel selfParented 3 = None.
Proof.
  split; [reflexivity |]. split; [reflexivity |].
  intros fuel. apply ServerFacts.deleteNode_diverges;
    [reflexivity | exact selfParented_reaches_cycle].
Qed.

Lemma star_ids (n : nat) :
  ids (star n) = 1 :: map (fun k => Z.of_nat k + 1) (seq 1 n).
Proof. unfold ids, star. cbn [rows map]. rewrite map_map. reflexivity. Qed.

Lemma star_acyclic (n : nat) : acyclic (star n).
Proof.
  apply increasing_acyclic. intros r p [<- | Hin] Hp; [discriminate |].
  apply in_map_iff in Hin as (k & <- & Hk). apply in_seq in Hk.
  inversion Hp. subst p. cbn [id node]. lia.
Qed.

Lemma star_closure (n : nat) (x : Z) : In x (ids (star n)) -> inClosure (star n) 1 x.
Proof.
  rewrite star_ids. intros [<- | Hin]; [constructor |].
  apply rtc_once. apply in_map_iff in Hin as (k & <- & Hk).
  exists (node (Z.of_nat k + 1) (Some 1) 0). split; [| split; reflexivity].
  right. apply in_map_iff. now exists k.
Qed.

Lemma star_distinct (n : nat) : List.NoDup (ids (star n)).
Proof.
  rewrite star_ids. constructor.
  - intros Hin. apply in_map_iff in Hin as (k & Hk & Hin). apply in_seq in Hin. lia.
  - generalize (seq_NoDup n 1). induction 1 as [| k l Hk _ IH]; cbn [map]; constructor.
    + intros Hin. apply in_map_iff in Hin as (k' & Hk' & Hin).
      assert (k' = k) as -> by lia. contradiction.
    + exact IH.
Qed.

(** C4 on a root with as many children as one statement of the engine has
    host parameters: the table has no cycle and the root exists, its
    closure is the whole table, one row more than [DELETE ... IN (?, ...)]
    can name; the statement is refused, the handler answers 500 and no row
    is removed. *)
Theorem delete_refused_on_large_subtree (engine : Engine) :
  acyclic (star (maxVariables engine)) /\
  hasId (star (maxVariables engine)) 1 = true /\
  (forall x, In x (ids (star (maxVariables engine))) ->
             inClosure (star (maxVariables engine)) 1 x) /\
  List.length (rows (star (maxVariables engine))) = S (maxVariables engine) /\
  exists fuel,
    forall fuel', (fuel <= fuel')%nat ->
      deleteNode engine fuel' (star (maxVariables engine)) 1 =
        Some (sendError 500, star (maxVariables engine)).
Proof.
  split; [apply star_acyclic |]. split; [reflexivity |].
  split; [apply star_closure |].
  split; [cbn [star rows List.length]; now rewrite length_map, length_seq |].
  apply (ServerFacts.deleteNode_beyond engine _ 1 (ids (star (maxVariables engine)))).
  - apply star_acyclic.
  - reflexivity.
  - apply star_distinct.
  - apply star_closure.
  - rewrite star_ids. cbn [List.length]. rewrite length_map, length_seq. lia.
Qed.

End ScenarioFacts.

(** ** The traversals of [tree.js] *)

Module TreeFacts.

Import Server Tree Examples.

Lemma unvisited_bound (data : list Row) (visited : list Z) :
  (List.length (unvisited data visited) <= List.length data)%nat.
Proof.
  unfold unvisited. induction data as [| r data IH]; simpl; [lia |].
  destruct (existsb (Z.eqb (id r)) visited); simpl in *; lia.
Qed.

Lemma unvisited_le (data : list Row) (visited : list Z) (i : Z) :
  (List.length (unvisited data (i :: visited)) <= List.length (unvisited data visited))%nat.
Proof.
  unfold unvisited. induction data as [| r data IH]; simpl; [lia |].
  destruct (Z.eqb (id r) i), (existsb (Z.eqb (id r)) visited); simpl in *; lia.
Qed.

Lemma unvisited_lt (data : list Row) (visited : list Z) (i : Z) (node : Row) :
  existsb (Z.eqb i) visited = false ->
  List.find (fun n => Z.eqb (id n) i) data = Some node ->
  (List.length (unvisited data (i :: visited)) < List.length (unvisited data visited))%nat.
Proof.
  intros Hnew. unfold unvisited. induction data as [| r data IH]; simpl; [discriminate |].
  destruct (Z.eqb (id r) i) eqn:E.
  - intros _. apply Z.eqb_eq in E. rewrite E, Hnew. simpl.
    pose proof (unvisited_le data visited i) as Hle. unfold unvisited in Hle.
    simpl in Hle. lia.
  - intros Hfind. specialize (IH Hfind).
    destruct (existsb (Z.eqb (id r)) visited); simpl in *; lia.
Qed.

(** [findParent] returns once the stack has room for one call more than
    there are unvisited rows: every nested call visits a new one. *)
Lemma findParent_returns (data : list Row) (fuel : nat) (i : Z) (w : Walk) :
  (List.length (unvisited data (visited w)) < fuel)%nat ->
  exists w', findParent fuel data i w = Some w'.
Proof.
  revert i w. induction fuel as [| fuel IH]; intros i w Hlt; [lia |].
  simpl. destruct (existsb (Z.eqb i) (visited w)) eqn:Hv; [eauto |].
  destruct (List.find _ data) as [node |] eqn:Hf; [| eauto].
  destruct (truthyParent node) as [p |]; [| eauto].
  apply IH. simpl.
  pose proof (unvisited_lt data (visited w) i node Hv Hf). lia.
Qed.

Lemma findParent_enough (data : list Row) (fuel fuel' : nat) (i : Z) (w w' : Walk) :
  findParent fuel data i w = Some w' -> (fuel <= fuel')%nat ->
  findParent fuel' data i w = Some w'.
Proof.
  revert fuel' i w. induction fuel as [| fuel IH]; intros fuel' i w H Hle; [discriminate |].
  destruct fuel' as [| fuel']; [lia |]. simpl in *.
  destruct (existsb (Z.eqb i) (visited w)); [exact H |].
  destruct (List.find _ data) as [node |]; [| exact H].
  destruct (truthyParent node) as [p |]; [| exact H].
  apply IH; [exact H | lia].
Qed.

(** [getAncestorIds] returns on every array, cyclic or not. *)
Lemma getAncestorIds_returns (data : list Row) (nodeId : Z) :
  exists res, forall fuel,
    (List.length data < fuel)%nat -> getAncestorIds fuel data nodeId = Some res.
Proof.
  destruct (findParent_returns data (S (List.length data)) nodeId (mkWalk [] []))
    as [w Hw].
  { cbn [visited]. pose proof (unvisited_bound data []). lia. }
  exists (ancestors w). intros fuel Hlt. unfold getAncestorIds.
  rewrite (findParent_enough data _ fuel _ _ w Hw) by lia. reflexivity.
Qed.

Lemma getDescendantIds_step (fuel : nat) :
  getDescendantIds (S fuel) (rows selfParented) 3 =
    match getDescendantIds fuel (rows selfParented) 3 with
    | Some sub => Some ([3] ++ sub)
    | None => None
    end.
Proof. reflexivity. Qed.

(** C7 on the array [{1,null}, {2,1}, {3,3}, {4,2}]: [getAncestorIds] for
    node 3 returns [[3]], its visited set stopping the walk, while
    [getDescendantIds] for node 3 calls itself on node 3 again at every
    depth and returns at none. *)
Theorem getDescendantIds_recurses_forever :
  (forall fuel, (2 <= fuel)%nat ->
     getAncestorIds fuel (rows selfParented) 3 = Some [3]) /\
  (forall fuel, getDescendantIds fuel (rows selfParented) 3 = None).
Proof.
  split.
  - intros fuel Hle. unfold getAncestorIds.
    do 2 (destruct fuel as [| fuel]; [lia |]). reflexivity.
  - induction fuel as [| fuel IH]; [reflexivity |].
    rewrite getDescendantIds_step, IH. reflexivity.
Qed.

End TreeFacts.

(** ** The renumbering script *)

Module RenumberFacts.

Import Renumber.

Lemma insertBySort_perm (r : Tool) (l : list Tool) :
  Permutation (insertBySort r l) (r :: l).
Proof.
  induction l as [| x l IH]; simpl; [reflexivity |].
  destruct (Z.leb (sort_order r) (sort_order x)); [reflexivity |].
  rewrite IH. apply perm_swap.
Qed.

Lemma orderBySort_perm (tool : list Tool) : Permutation (orderBySort tool) tool.
Proof.
  induction tool as [| r l IH]; simpl; [constructor |].
  rewrite insertBySort_perm. now constructor.
Qed.

Lemma distinct_NoDup (l : list Z) : distinct l = true -> List.NoDup l.
Proof.
  induction l as [| x l IH]; simpl; [constructor |].
  rewrite andb_true_iff, negb_true_iff. intros [Hx Hl].
  constructor; [| auto].
  intros Hin. apply not_true_iff_false in Hx. apply Hx.
  apply existsb_exists. exists x. split; [assumption | apply Z.eqb_refl].
Qed.

Lemma rowNumbers_fst (rn : Z) (l : list Tool) :
  map fst (rowNumbers rn l) = map id l.
Proof.
  revert rn. induction l as [| r l IH]; intros rn; simpl; [reflexivity |].
  now rewrite IH.
Qed.

Lemma rowNumbers_snd (rn : Z) (l : list Tool) :
  map snd (rowNumbers rn l) =
    map (fun k => (rn + Z.of_nat k - 2) * 1000) (List.seq 0 (List.length l)).
Proof.
  revert rn. induction l as [| r l IH]; intros rn; simpl; [reflexivity |].
  rewrite IH, <- seq_shift, map_map. f_equal; [f_equal; lia |].
  apply map_ext. intros k. f_equal. lia.
Qed.

Lemma rowNumbers_In (rn : Z) (l : list Tool) (i v : Z) :
  In (i, v) (rowNumbers rn l) ->
  exists a, rn - 2 <= a /\ v = a * 1000.
Proof.
  revert rn. induction l as [| r l IH]; intros rn; simpl; [intros [] |].
  intros [H | H].
  - inversion H. exists (rn - 2). lia.
  - destruct (IH _ H) as (a & Ha & Hv). exists a. lia.
Qed.

Lemma rowNumbers_values_NoDup (rn : Z) (l : list Tool) :
  List.NoDup (map snd (rowNumbers rn l)).
Proof.
  revert rn. induction l as [| r l IH]; intros rn; simpl; constructor; [| apply IH].
  rewrite in_map_iff. intros ([i v] & Hv & Hin). simpl in Hv. subst v.
  apply rowNumbers_In in Hin as (a & Ha & Hv). lia.
Qed.

Lemma rowNumbers_last (rn : Z) (l : list Tool) :
  l <> [] ->
  exists i, In (i, (rn + Z.of_nat (List.length l) - 3) * 1000) (rowNumbers rn l).
Proof.
  revert rn. induction l as [| r l IH]; intros rn Hne; [congruence |].
  destruct l as [| r' l].
  - exists (id r). left. simpl. f_equal. lia.
  - destruct (IH (rn + 1)) as [i Hi]; [discriminate |].
    exists i. right.
    replace ((rn + Z.of_nat (List.length (r :: r' :: l)) - 3) * 1000)
      with ((rn + 1 + Z.of_nat (List.length (r' :: l)) - 3) * 1000)
      by (simpl List.length; lia).
    exact Hi.
Qed.

Lemma base_width_bound (tmp : list (Z * Z)) :
  1000 <= base_width tmp /\
  forall i v, In (i, v) tmp -> Z.abs v + 1000 <= base_width tmp.
Proof.
  unfold base_width. induction tmp as [| [k x] tmp [IH1 IH2]]; simpl.
  - split; [lia | intros i v []].
  - split; [lia |]. intros i v [H | H].
    + inversion H; subst. lia.
    + specialize (IH2 i v H). lia.
Qed.

Lemma lookup_In (tmp : list (Z * Z)) (i v : Z) :
  new_sort_order tmp i = Some v -> In (i, v) tmp.
Proof.
  induction tmp as [| [k x] tmp IH]; simpl; [discriminate |].
  destruct (Z.eqb k i) eqn:E.
  - apply Z.eqb_eq in E. intros H. inversion H. subst. now left.
  - intros H. right. now apply IH.
Qed.

Lemma lookup_found (tmp : list (Z * Z)) (i : Z) :
  In i (map fst tmp) -> exists v, new_sort_order tmp i = Some v.
Proof.
  induction tmp as [| [k x] tmp IH]; simpl; [intros [] |].
  destruct (Z.eqb k i) eqn:E; [eauto |].
  intros [H | H]; [apply Z.eqb_neq in E; contradiction | now apply IH].
Qed.

Lemma value_names_id (tmp : list (Z * Z)) (i j v : Z) :
  List.NoDup (map snd tmp) -> In (i, v) tmp -> In (j, v) tmp -> i = j.
Proof.
  induction tmp as [| [k x] tmp IH]; simpl; [intros _ [] |].
  intros Hnd. apply List.NoDup_cons_iff in Hnd as [Hx Hnd].
  intros [H1 | H1] [H2 | H2].
  - congruence.
  - inversion H1; subst. exfalso. apply Hx. apply in_map_iff. now exists (j, v).
  - inversion H2; subst. exfalso. apply Hx. apply in_map_iff. now exists (i, v).
  - now apply IH.
Qed.

Lemma NoDup_map_on {A B : Type} (f : A -> B) (l : list A) :
  List.NoDup l ->
  (forall x y, In x l -> In y l -> f x = f y -> x = y) ->
  List.NoDup (map f l).
Proof.
  induction 1 as [| x l Hx Hnd IH]; intros Hinj; simpl; constructor.
  - rewrite in_map_iff. intros (y & Hy & Hin).
    assert (y = x) by (apply Hinj; [now right | now left | exact Hy]).
    subst. contradiction.
  - apply IH. intros; apply Hinj; auto; now right.
Qed.

Lemma phase1_ids (tmp : list (Z * Z)) (tool : list Tool) :
  map wid (phase1 tmp tool) = map id tool.
Proof.
  unfold phase1. rewrite map_map. apply map_ext. intros r.
  now destruct (new_sort_order tmp (id r)).
Qed.

(** The table after the second [UPDATE]: every row has its final key. *)
Lemma phase2_after_phase1 (tmp : list (Z * Z)) (tool : list Tool) :
  (forall r, In r tool -> exists v, new_sort_order tmp (id r) = Some v) ->
  readBack (phase2 tmp (phase1 tmp tool)) =
    Some (map (fun r => mkTool (id r) (default 0 (new_sort_order tmp (id r)))) tool).
Proof.
  induction tool as [| r tool IH]; intros Hall; [reflexivity |].
  destruct (Hall r (or_introl eq_refl)) as [v Hv].
  simpl. rewrite Hv. simpl. rewrite Hv. simpl.
  rewrite IH by (intros x Hx; apply Hall; now right). reflexivity.
Qed.

Lemma phase1_keys (tmp : list (Z * Z)) (tool : list Tool) :
  (forall r, In r tool -> exists v, new_sort_order tmp (id r) = Some v) ->
  phase1 tmp tool =
    map (fun r => mkWritten (id r)
                    (temporaryKey (default 0 (new_sort_order tmp (id r)))
                                  (base_width tmp) (id r)))
        tool.
Proof.
  intros Hall. unfold phase1. apply map_ext_in.
  intros r Hin. destruct (Hall r Hin) as [v Hv]. now rewrite Hv.
Qed.

Lemma temporaryKey_exact (v width i : Z) :
  int64 (v * width) && int64 (v * width + i) && int64 (- (v * width + i)) = true ->
  temporaryKey v width i = Exact (- (v * width + i)).
Proof.
  intros H. apply andb_true_iff in H as [H H3]. apply andb_true_iff in H as [H1 H2].
  unfold temporaryKey, mul64. rewrite H1. simpl. rewrite H2. simpl. now rewrite H3.
Qed.

Lemma fillTmp_inv (tool : list Tool) (tmp : list (Z * Z)) :
  fillTmp tool = Some tmp ->
  tmp = rowNumbers 1 (orderBySort tool) /\ List.NoDup (map id tool).
Proof.
  unfold fillTmp. destruct (distinct _) eqn:E; [| discriminate].
  intros H. inversion H. split; [reflexivity |].
  apply distinct_NoDup in E. rewrite rowNumbers_fst in E.
  eapply Permutation.Permutation_NoDup; [| exact E].
  apply Permutation_map. apply orderBySort_perm.
Qed.

Lemma tmp_covers (tool : list Tool) (tmp : list (Z * Z)) (r : Tool) :
  fillTmp tool = Some tmp -> In r tool ->
  exists v, new_sort_order tmp (id r) = Some v.
Proof.
  intros Hfill Hin. apply fillTmp_inv in Hfill as [-> _].
  apply lookup_found. rewrite rowNumbers_fst.
  eapply Permutation_in; [apply Permutation_map; symmetry; apply orderBySort_perm |].
  now apply in_map.
Qed.

Lemma width_exceeds_size (tool : list Tool) (tmp : list (Z * Z)) :
  fillTmp tool = Some tmp -> Z.of_nat (List.length tool) < base_width tmp.
Proof.
  intros Hfill. apply fillTmp_inv in Hfill as [-> _].
  pose proof (Permutation_length (orderBySort_perm tool)) as Hlen.
  destruct (base_width_bound (rowNumbers 1 (orderBySort tool))) as [H1 H2].
  destruct (orderBySort tool) as [| r l] eqn:E.
  - simpl in Hlen. rewrite <- Hlen. unfold base_width. simpl. lia.
  - destruct (rowNumbers_last 1 (r :: l)) as [i Hi]; [discriminate |].
    specialize (H2 _ _ Hi). rewrite <- Hlen. lia.
Qed.

Lemma renumberGroup_filled (tool : list Tool) (tmp : list (Z * Z)) :
  fillTmp tool = Some tmp ->
  renumberGroup tool =
    Some (phase1 tmp tool,
          map (fun r => mkTool (id r) (default 0 (new_sort_order tmp (id r)))) tool).
Proof.
  intros Hfill. unfold renumberGroup. rewrite Hfill.
  rewrite phase2_after_phase1; [reflexivity |].
  intros r Hr. now apply (tmp_covers tool).
Qed.

(** C8, as the script has it: the second [UPDATE] gives the row of rank
    [k] (1, 2, ... in order of [sort_order]) the key [(k - 2) * 1000], so
    -1000, 0, 1000, ..., pairwise distinct; the first [UPDATE] gives a row
    the key [-(v * width + id)] as SQLite computes it, [v] being its final
    key and [width] the largest [|v|] plus 1000, which exceeds the number of
    rows. When no product, sum or negation of these leaves the 64-bit
    integers, that key is the exact integer, and those keys are pairwise
    distinct when any two ids differ by less than [1000 * width]. *)
Theorem renumber_two_phase (tool : list Tool) (tmp : list (Z * Z)) :
  fillTmp tool = Some tmp ->
  exists t2,
    renumberGroup tool = Some (phase1 tmp tool, t2) /\
    Z.of_nat (List.length tool) < base_width tmp /\
    map fst tmp = map id (orderBySort tool) /\
    map snd tmp =
      map (fun k => (Z.of_nat (S k) - 2) * 1000) (List.seq 0 (List.length tool)) /\
    (forall r, In r tool ->
       exists v, In (id r, v) tmp /\
         In (mkWritten (id r) (temporaryKey v (base_width tmp) (id r)))
            (phase1 tmp tool) /\
         In (mkTool (id r) v) t2) /\
    List.NoDup (map sort_order t2) /\
    (forallb (fits tmp) tool = true ->
     (forall r, In r tool ->
        exists v, In (id r, v) tmp /\
          In (mkWritten (id r) (Exact (- (v * base_width tmp + id r))))
             (phase1 tmp tool)) /\
     ((forall r r', In r tool -> In r' tool ->
         Z.abs (id r - id r') < 1000 * base_width tmp) ->
      List.NoDup (map wkey (phase1 tmp tool)))).
Proof.
  intros Hfill.
  pose proof (tmp_covers tool tmp) as Hcov.
  assert (forall r, In r tool -> exists v, new_sort_order tmp (id r) = Some v)
    as Hall by (intros r Hr; now apply Hcov).
  pose proof (width_exceeds_size tool tmp Hfill) as Hwidth.
  destruct (base_width_bound tmp) as [Hw _].
  destruct (fillTmp_inv tool tmp Hfill) as [Htmp Hnd].
  assert (List.NoDup (map snd tmp)) as Hvals
    by (rewrite Htmp; apply rowNumbers_values_NoDup).
  eexists. split; [now apply renumberGroup_filled |].
  split; [exact Hwidth |].
  split; [rewrite Htmp; apply rowNumbers_fst |].
  split.
  { rewrite Htmp, rowNumbers_snd.
    rewrite (Permutation_length (orderBySort_perm tool)).
    apply map_ext. intros k. f_equal. lia. }
  split.
  { intros r Hr. destruct (Hall r Hr) as [v Hv]. exists v.
    split; [now apply lookup_In |]. split.
    - unfold phase1. apply in_map_iff. exists r. now rewrite Hv.
    - apply in_map_iff. exists r. now rewrite Hv. }
  split.
  { rewrite map_map. simpl.
    rewrite <- (map_map id (fun i => default 0 (new_sort_order tmp i))).
    apply NoDup_map_on; [exact Hnd |].
    intros i j Hi Hj Heq.
    apply in_map_iff in Hi as (r & <- & Hr). apply in_map_iff in Hj as (r' & <- & Hr').
    destruct (Hall r Hr) as [v Hv]. destruct (Hall r' Hr') as [v' Hv'].
    rewrite Hv, Hv' in Heq. simpl in Heq. subst v'.
    eapply value_names_id; [exact Hvals | |]; apply lookup_In; eassumption. }
  intros Hfits.
  assert (forall r, In r tool ->
            temporaryKey (default 0 (new_sort_order tmp (id r))) (base_width tmp) (id r) =
            Exact (- (default 0 (new_sort_order tmp (id r)) * base_width tmp + id r)))
    as Hexact.
  { intros r Hr. apply temporaryKey_exact.
    rewrite forallb_forall in Hfits. specialize (Hfits r Hr). unfold fits in Hfits.
    destruct (Hall r Hr) as [v Hv]. rewrite Hv in *. exact Hfits. }
  split.
  { intros r Hr. destruct (Hall r Hr) as [v Hv]. exists v.
    split; [now apply lookup_In |].
    unfold phase1. apply in_map_iff. exists r. rewrite Hv.
    specialize (Hexact r Hr). rewrite Hv in Hexact. simpl in Hexact. now rewrite Hexact. }
  intros Hnear. rewrite phase1_keys by assumption.
  rewrite map_map. simpl.
  assert (map (fun r => temporaryKey (default 0 (new_sort_order tmp (id r)))
                          (base_width tmp) (id r)) tool =
          map (fun r => Exact (- (default 0 (new_sort_order tmp (id r)) * base_width tmp
                                  + id r))) tool) as ->
    by (apply map_ext_in; exact Hexact).
  rewrite <- (map_map id
                (fun i => Exact (- (default 0 (new_sort_order tmp i) * base_width tmp + i)))).
  apply NoDup_map_on; [exact Hnd |].
  intros i j Hi Hj Heq. inversion Heq as [Heq']. clear Heq.
  apply in_map_iff in Hi as (r & <- & Hr). apply in_map_iff in Hj as (r' & <- & Hr').
  destruct (Hall r Hr) as [v Hv]. destruct (Hall r' Hr') as [v' Hv'].
  rewrite Hv, Hv' in Heq'. simpl in Heq'.
  specialize (Hnear r r' Hr Hr').
  pose proof (lookup_In _ _ _ Hv) as Hin. pose proof (lookup_In _ _ _ Hv') as Hin'.
  assert (v = v') as <-.
  { rewrite Htmp in Hin, Hin'.
    apply rowNumbers_In in Hin as (a & _ & ->).
    apply rowNumbers_In in Hin' as (b & _ & ->).
    assert (a = b) by nia. now subst. }
  eapply value_names_id; [exact Hvals | exact Hin | exact Hin'].
Qed.

Lemma renumber_two_phase_witness :
  fillTmp Examples.siblings = Some [(1, -1000); (2, 0)] /\
  forallb (fits [(1, -1000); (2, 0)]) Examples.siblings = true /\
  (forall r r', In r Examples.siblings -> In r' Examples.siblings ->
     Z.abs (id r - id r') < 1000 * base_width [(1, -1000); (2, 0)]) /\
  List.NoDup (map wkey (phase1 [(1, -1000); (2, 0)] Examples.siblings)).
Proof.
  assert (forall r r', In r Examples.siblings -> In r' Examples.siblings ->
            Z.abs (id r - id r') < 1000 * base_width [(1, -1000); (2, 0)]) as Hnear.
  { intros r r' [<- | [<- | []]] [<- | [<- | []]]; vm_compute; reflexivity. }
  split; [reflexivity |]. split; [reflexivity |]. split; [exact Hnear |].
  destruct (renumber_two_phase Examples.siblings [(1, -1000); (2, 0)] eq_refl)
    as (t2 & _ & _ & _ & _ & _ & _ & Hexact).
  exact (proj2 (Hexact eq_refl) Hnear).
Defined.

(** C8 fails on a table of one row, of id 1: the script gives it the
    temporary key 1999999, which is not negative, and the final key -1000,
    which is not positive. *)
Lemma renumber_signs :
  renumberGroup Examples.oneTool =
    Some ([mkWritten 1 (Exact 1999999)], [mkTool 1 (-1000)]) /\
  ~ (1999999 < 0) /\ ~ (0 < -1000).
Proof. split; [reflexivity | lia]. Qed.

(** Two rows whose ids differ by [1000 * width] get the same temporary key. *)
Lemma temporary_keys_collide :
  option_map fst (renumberGroup Examples.farApart) =
    Some [mkWritten 2000001 (Exact (-1)); mkWritten 1 (Exact (-1))].
Proof. reflexivity. Qed.

(** With an id next to [2 ^ 63] the sum of the first [UPDATE] leaves the
    64-bit integers: the temporary key is a REAL. *)
Lemma temporary_key_inexact :
  option_map fst (renumberGroup [mkTool 1 5; mkTool 2 6; mkTool (2 ^ 63 - 1) 7]) =
    Some [mkWritten 1 (Exact 1999999); mkWritten 2 (Exact (-2));
          mkWritten (2 ^ 63 - 1) Real].
Proof. reflexivity. Qed.

End RenumberFacts.

(** ** The session registry *)

Module RegistryFacts.

Import Registry.

Lemma filter_keys_NoDup (p : Session -> bool) (l : list Session) :
  List.NoDup (map resourceKey l) -> List.NoDup (map resourceKey (List.filter p l)).
Proof.
  induction l as [| s l IH]; simpl; [auto |].
  intros Hnd. apply List.NoDup_cons_iff in Hnd as [Hs Hnd].
  destruct (p s); simpl; [| auto].
  constructor; [| auto].
  intros Hin. apply Hs. apply in_map_iff in Hin as (x & Hx & Hin).
  apply filter_In in Hin as [Hin _]. apply in_map_iff. eauto.
Qed.

Lemma find_none_free (key : string) (l : list Session) :
  List.find (fun s => String.eqb (resourceKey s) key) l = None ->
  forall s, In s l -> resourceKey s <> key.
Proof.
  intros Hnone s Hin Heq.
  pose proof (find_none _ _ Hnone s Hin) as H. simpl in H.
  rewrite Heq, String.eqb_refl in H. discriminate.
Qed.

Lemma find_last (key : string) (base : list Session) (s : Session) :
  (forall x, In x base -> resourceKey x <> key) ->
  resourceKey s = key ->
  List.find (fun x => String.eqb (resourceKey x) key) (base ++ [s]) = Some s.
Proof.
  intros Hfree Hs. induction base as [| x base IH]; simpl.
  - now rewrite Hs, String.eqb_refl.
  - destruct (String.eqb (resourceKey x) key) eqn:E.
    + apply String.eqb_eq in E. exfalso. apply (Hfree x); [now left | exact E].
    + apply IH. intros y Hy. apply Hfree. now right.
Qed.

Lemma find_token_none (sid : nat) (l : list Session) :
  (forall x, In x l -> sessionId x <> sid) ->
  List.find (fun s => Nat.eqb (sessionId s) sid) l = None.
Proof.
  induction l as [| x l IH]; intros H; simpl; [reflexivity |].
  destruct (Nat.eqb (sessionId x) sid) eqn:E.
  - apply Nat.eqb_eq in E. exfalso. apply (H x); [now left | exact E].
  - apply IH. intros y Hy. apply H. now right.
Qed.

Lemma revoke_last (base : list Session) (s : Session) :
  (forall x, In x base -> sessionId x <> sessionId s) ->
  List.filter (fun x => negb (Nat.eqb (sessionId x) (sessionId s))) (base ++ [s]) = base.
Proof.
  intros H. rewrite List.filter_app. simpl. rewrite Nat.eqb_refl. simpl.
  rewrite app_nil_r. induction base as [| x base IH]; simpl; [reflexivity |].
  destruct (Nat.eqb (sessionId x) (sessionId s)) eqn:E; simpl.
  - apply Nat.eqb_eq in E. exfalso. apply (H x); [now left | exact E].
  - f_equal. apply IH. intros y Hy. apply H. now right.
Qed.

Lemma same_key_same_session (l : list Session) (x y : Session) :
  List.NoDup (map resourceKey l) -> In x l -> In y l ->
  resourceKey x = resourceKey y -> x = y.
Proof.
  induction l as [| s l IH]; simpl; [intros _ [] |].
  intros Hnd. apply List.NoDup_cons_iff in Hnd as [Hs Hnd].
  intros [-> | Hx] [-> | Hy] Heq; auto.
  - exfalso. apply Hs. rewrite Heq. now apply in_map.
  - exfalso. apply Hs. rewrite <- Heq. now apply in_map.
Qed.

Lemma wf_sweep (now : Z) (st : State) : wf st -> wf (fst (sweep now st)).
Proof.
  intros [Hnd Hlt]. split; simpl.
  - now apply filter_keys_NoDup.
  - intros s Hin. apply filter_In in Hin as [Hin _]. now apply Hlt.
Qed.

Lemma wf_add (key : string) (base : list Session) (s : Session) (n : nat) :
  List.NoDup (map resourceKey base) ->
  free key n base -> resourceKey s = key -> sessionId s = n ->
  wf (mkState (base ++ [s]) (S n)).
Proof.
  intros Hnd Hfree Hkey Hid. split; simpl.
  - rewrite map_app. simpl. apply List.NoDup_app.
    + exact Hnd.
    + repeat constructor. intros [].
    + intros k Hk [<- | []]. apply in_map_iff in Hk as (x & Hx & Hin).
      destruct (Hfree x Hin) as [Hne _]. congruence.
  - intros x Hin. apply in_app_iff in Hin as [Hin | [<- | []]].
    + destruct (Hfree x Hin). lia.
    + lia.
Qed.

(** What a successful [create] leaves: the sessions that stay, none of them
    on [key], and the new session after them. *)
Lemma create_ok (st st1 : State) (key : string) (cfg : Configuration) (force : bool)
    (now : Z) (s1 : Session) :
  wf st ->
  create st key cfg force now = (st1, inl s1) ->
  s1 = mkSession (nextToken st) key now now cfg /\
  exists base,
    st1 = mkState (base ++ [s1]) (S (nextToken st)) /\
    List.NoDup (map resourceKey base) /\
    free key (nextToken st) base.
Proof.
  intros Hwf. pose proof (wf_sweep now st Hwf) as [Hnd Hlt].
  unfold create. destruct (find _ key) as [held |] eqn:Hfind.
  - destruct force; [| discriminate]. unfold addSession. simpl.
    intros H. inversion H. subst. split; [reflexivity |].
    eexists. split; [reflexivity |]. split; [now apply filter_keys_NoDup |].
    intros s Hin. apply filter_In in Hin as [Hin Hne].
    split; [| now apply Hlt].
    intros Hkey. unfold find in Hfind. apply find_some in Hfind as [Hheld Hk].
    apply String.eqb_eq in Hk.
    assert (s = held) as ->
      by (eapply same_key_same_session; eauto; congruence).
    rewrite Nat.eqb_refl in Hne. discriminate.
  - unfold addSession. simpl. intros H. inversion H. subst. split; [reflexivity |].
    eexists. split; [reflexivity |]. split; [exact Hnd |].
    intros s Hin. split; [| now apply Hlt].
    eapply find_none_free; eassumption.
Qed.

Lemma holders_free (key : string) (n : nat) (now : Z) (base : list Session) :
  free key n base ->
  List.filter (fun s => String.eqb (resourceKey s) key && negb (expired now s)) base = [].
Proof.
  induction base as [| x base IH]; intros H; simpl; [reflexivity |].
  destruct (H x (or_introl eq_refl)) as [Hne _].
  apply String.eqb_neq in Hne. rewrite Hne. simpl.
  apply IH. intros y Hy. apply H. now right.
Qed.

Lemma holders_new (key : string) (n : nat) (now : Z) (base : list Session)
    (s : Session) (next : nat) :
  free key n base -> resourceKey s = key -> expired now s = false ->
  holders (mkState (base ++ [s]) next) key now = [s].
Proof.
  intros Hfree Hkey Hlive. unfold holders. simpl.
  rewrite List.filter_app, (holders_free key n) by assumption.
  simpl. now rewrite Hkey, String.eqb_refl, Hlive.
Qed.

(** A resource has at most one holder in a registry that keeps the
    invariant. *)
Lemma holders_at_most_one (st : State) (key : string) (now : Z) :
  wf st -> (List.length (holders st key now) <= 1)%nat.
Proof.
  intros [Hnd _]. unfold holders.
  induction (sessions st) as [| x l IH]; simpl; [lia |].
  simpl in Hnd. apply List.NoDup_cons_iff in Hnd as [Hx Hnd].
  destruct (String.eqb (resourceKey x) key) eqn:E; simpl; [| now apply IH].
  apply String.eqb_eq in E.
  assert (List.filter (fun s => String.eqb (resourceKey s) key && negb (expired now s)) l
          = []) as ->.
  { clear IH Hnd. induction l as [| y l IHl]; simpl; [reflexivity |].
    destruct (String.eqb (resourceKey y) key) eqn:Ey; simpl.
    - apply String.eqb_eq in Ey. exfalso. apply Hx. left. congruence.
    - apply IHl. intros Hin. apply Hx. now right. }
  destruct (negb (expired now x)); simpl; lia.
Qed.

(** [create] keeps the invariant, whatever its outcome. *)
Lemma create_wf (st : State) (key : string) (cfg : Configuration) (force : bool)
    (now : Z) :
  wf st -> wf (fst (create st key cfg force now)).
Proof.
  intros Hwf. destruct (create st key cfg force now) as [st' [s | e]] eqn:E.
  - apply create_ok in E as (Hs & base & -> & Hnd & Hfree); [| exact Hwf].
    simpl. apply (wf_add key); auto; subst s; reflexivity.
  - unfold create in E. destruct (find _ key) as [held |].
    + destruct force; [discriminate |]. inversion E. now apply wf_sweep.
    + discriminate.
Qed.

Lemma sweep_keeps_new (base : list Session) (s : Session) (now : Z) :
  expired now s = false ->
  List.filter (fun x => negb (expired now x)) (base ++ [s]) =
    List.filter (fun x => negb (expired now x)) base ++ [s].
Proof.
  intros H. rewrite List.filter_app. simpl. now rewrite H.
Qed.

Lemma free_filter (key : string) (n : nat) (p : Session -> bool) (base : list Session) :
  free key n base -> free key n (List.filter p base).
Proof.
  intros H s Hin. apply filter_In in Hin as [Hin _]. now apply H.
Qed.

(** C2: after a [create] for the resource [key] has succeeded, a second
    [create] for [key] before the first session's idle timeout, without
    [force], fails with [ConflictError] carrying the first session's id; with
    [force] it succeeds, the new session is then the holder of [key], and
    [authorize] on the first session's id fails from then on. The registry
    never holds two sessions on one resource. *)
Theorem session_exclusivity (st st1 : State) (key : string) (cfg1 cfg2 : Configuration)
    (force1 : bool) (t1 t2 : Z) (s1 : Session) :
  wf st ->
  create st key cfg1 force1 t1 = (st1, inl s1) ->
  t1 <= t2 -> t2 - t1 <= IDLE_TIMEOUT ->
  wf st1 /\
  holders st1 key t2 = [s1] /\
  create st1 key cfg2 false t2 =
    (fst (sweep t2 st1), inr (ConflictError (sessionId s1))) /\
  exists st2 s2,
    create st1 key cfg2 true t2 = (st2, inl s2) /\
    wf st2 /\
    holders st2 key t2 = [s2] /\
    sessionId s2 <> sessionId s1 /\
    forall t3, snd (authorize st2 (sessionId s1) t3) = inr ExpiredError.
Proof.
  intros Hwf Hcreate Ht Hidle.
  destruct (create_ok st st1 key cfg1 force1 t1 s1 Hwf Hcreate)
    as (Hs1 & base & -> & Hnd & Hfree).
  assert (resourceKey s1 = key) as Hkey by (subst s1; reflexivity).
  assert (sessionId s1 = nextToken st) as Hid by (subst s1; reflexivity).
  assert (expired t2 s1 = false) as Hlive.
  { subst s1. unfold expired. simpl. apply Z.ltb_ge. lia. }
  set (kept := List.filter (fun x => negb (expired t2 x)) base).
  assert (free key (nextToken st) kept) as Hkept by now apply free_filter.
  assert (find (fst (sweep t2 (mkState (base ++ [s1]) (S (nextToken st))))) key = Some s1)
    as Hfind.
  { unfold find, sweep. simpl. rewrite sweep_keeps_new by assumption.
    apply find_last; [| exact Hkey]. intros x Hx. now apply Hkept. }
  split; [now apply (wf_add key) |].
  split; [now apply (holders_new key (nextToken st)) |].
  split; [unfold create; now rewrite Hfind |].
  unfold create. rewrite Hfind. unfold addSession, revoke, sweep. simpl.
  rewrite sweep_keeps_new by assumption. fold kept.
  rewrite revoke_last by (intros x Hx; destruct (Hkept x Hx); lia).
  eexists _, _. split; [reflexivity |].
  split.
  { apply (wf_add key); [now apply filter_keys_NoDup | | reflexivity | reflexivity].
    intros x Hx. destruct (Hkept x Hx). split; [assumption | lia]. }
  split.
  { apply (holders_new key (nextToken st)); [exact Hkept | reflexivity |].
    unfold expired. simpl. apply Z.ltb_ge. unfold IDLE_TIMEOUT. lia. }
  split; [simpl; lia |].
  intros t3. unfold authorize. simpl.
  rewrite find_token_none; [reflexivity |].
  intros x Hx. apply in_app_iff in Hx as [Hx | [<- | []]].
  - destruct (Hkept x Hx). lia.
  - simpl. lia.
Qed.

Lemma session_exclusivity_witness :
  wf empty /\
  snd (create empty "db|nodes" Examples.someConfig false 100) =
    inl (mkSession 0 "db|nodes" 100 100 Examples.someConfig) /\
  100 <= 700 /\ 700 - 100 <= IDLE_TIMEOUT /\
  create (fst (create empty "db|nodes" Examples.someConfig false 100))
         "db|nodes" Examples.someConfig false 700 =
    (fst (sweep 700 (fst (create empty "db|nodes" Examples.someConfig false 100))),
     inr (ConflictError 0)).
Proof.
  assert (wf empty) as Hwf.
  { split; simpl; [constructor | intros s []]. }
  assert (100 <= 700) as H1 by lia.
  assert (700 - 100 <= IDLE_TIMEOUT) as H2 by (unfold IDLE_TIMEOUT; lia).
  split; [exact Hwf |]. split; [reflexivity |].
  split; [exact H1 |]. split; [exact H2 |].
  exact (proj1 (proj2 (proj2
           (session_exclusivity empty _ "db|nodes" Examples.someConfig Examples.someConfig
              false 100 700 _ Hwf eq_refl H1 H2)))).
Defined.

End RegistryFacts.

(** ** [applyConfig] *)

Module ConfigFormFacts.

Import ConfigForm.

Lemma cleanup_never_forces (env : Env) (config : FormConfig) (e : Event) :
  In e (cleanupConflictingSessions env config) ->
  e = GetSessions \/ exists s b, e = DeleteSession s b.
Proof.
  unfold cleanupConflictingSessions. intros [<- | Hin]; [now left |].
  destruct (sessionList env) as [sessions |]; [| destruct Hin].
  apply in_map_iff in Hin as (x & <- & _). right. eauto.
Qed.

(** On the path of a new session, a 409 to the plain [POST] is put to the
    operator, and when the operator declines the method throws without a
    forcing request. *)
Lemma declined_conflict_is_not_forced (env : Env) (config : FormConfig) :
  truthyId (storedSessionId env) = None ->
  createAnswer env = Conflict ->
  operatorConfirms env = false ->
  applyConfig env config =
    (cleanupConflictingSessions env config ++ [PostSession; Confirm false], Thrown) /\
  forall s, ~ In (PutSessionForce s) (fst (applyConfig env config)).
Proof.
  intros Hs Hc Ho. unfold applyConfig. rewrite Hs, Hc, Ho.
  rewrite <- app_assoc. split; [reflexivity |].
  cbn [fst]. intros s Hin. apply in_app_iff in Hin as [Hin | Hin].
  - apply cleanup_never_forces in Hin as [H | (x & b & H)]; discriminate.
  - destruct Hin as [H | [H | []]]; discriminate.
Qed.

Lemma asked_after_cleanup (env : Env) (config : FormConfig) (c : bool)
    (rest : list Event) :
  forceCreateAsked c (cleanupConflictingSessions env config ++ rest) =
    forceCreateAsked c rest.
Proof.
  unfold cleanupConflictingSessions. simpl.
  destruct (sessionList env) as [sessions |]; [| reflexivity].
  induction (List.filter _ sessions) as [| x l IH]; simpl; [reflexivity | exact IH].
Qed.

(** The runs of [applyConfig] that begin without a session id in the store:
    what a run is, given the answers. *)
Ltac applyConfig_cases env config :=
  unfold applyConfig, updateConfig;
  destruct (createAnswer env) as [created | |];
    [destruct (truthyId created) as [sessionId |]
    | destruct (operatorConfirms env);
        [destruct (truthyId (forceCreateAnswer env)) as [forced |];
           [| destruct (match sessionListAfter env with
                        | Some sessions => List.find (sameResource config) sessions
                        | None => None
                        end) as [existing |];
                [destruct (String.eqb (sid existing) "") |]] |]
    |];
  try destruct (configAnswer env); cbn [fst];
  repeat rewrite <- app_assoc.

(** C3, as the controller has it: a forcing [PUT] that creates a session is
    sent only after the operator has confirmed the prompt that the 409 to
    the plain [POST] brings up, and a declined prompt ends the method without
    one. Before the plain [POST] the method deletes, unasked, the listed
    sessions that are expired or on the same database and table; and when
    the update of the configuration under a stored session id is answered
    409, it sends the forcing [PUT] unasked. A stored id that is the empty
    string counts as none. *)
Theorem applyConfig_asks_before_forced_create (env : Env) (config : FormConfig) :
  forceCreateAsked false (fst (applyConfig env config)) = true /\
  (truthyId (storedSessionId env) = None ->
   exists rest,
     fst (applyConfig env config) =
       cleanupConflictingSessions env config ++ PostSession :: rest) /\
  (truthyId (storedSessionId env) = None -> createAnswer env = Conflict ->
   operatorConfirms env = false ->
   applyConfig env config =
     (cleanupConflictingSessions env config ++ [PostSession; Confirm false], Thrown)) /\
  (forall sessionId,
     storedSessionId env = Some sessionId -> sessionId <> "" ->
     configAnswer env = ConfigConflict ->
     fst (applyConfig env config) =
       [PostConfig sessionId; PutSessionForce (Token sessionId)]).
Proof.
  split; [| split; [| split]].
  - destruct (truthyId (storedSessionId env)) as [stored |] eqn:Hs.
    + unfold applyConfig, updateConfig. rewrite Hs.
      destruct (configAnswer env); reflexivity.
    + unfold applyConfig. rewrite Hs.
      applyConfig_cases env config; rewrite asked_after_cleanup; reflexivity.
  - intros Hs. unfold applyConfig. rewrite Hs.
    applyConfig_cases env config; eexists; reflexivity.
  - intros Hs Hc Ho. now apply declined_conflict_is_not_forced.
  - intros sessionId Hs Hne Hc. unfold applyConfig, updateConfig. rewrite Hs, Hc.
    destruct sessionId as [| c rest]; [congruence | reflexivity].
Qed.

(** C3 fails on two runs of [applyConfig]. When another tab holds the resource
    and this tab has no session id, the method deletes the other tab's
    session before its plain [POST] and without any prompt. When this tab
    has a session id and the configuration update is answered 409, the
    method sends the forcing [PUT] without any prompt. *)
Lemma applyConfig_evicts_unasked :
  applyConfig Examples.otherTabHolds Examples.formConfig =
    ([GetSessions; DeleteSession "s1" false; PostSession;
      StoreSessionId "s2"; PostConfig "s2"], Returned) /\
  surfacedFirst false (fst (applyConfig Examples.otherTabHolds Examples.formConfig))
    = false /\
  applyConfig Examples.updateConflicts Examples.formConfig =
    ([PostConfig "mine"; PutSessionForce (Token "mine")], Returned) /\
  surfacedFirst false (fst (applyConfig Examples.updateConflicts Examples.formConfig))
    = false.
Proof. repeat split. Qed.

End ConfigFormFacts.

(** ** More on the node API *)

Module ServerExtra.

Import Server Closure Integrity.

Section Api.

Variable engine : Engine.
Variable StringToNumber : string -> JsNum.
Variables ID_FIELD PARENT_FIELD : string.

Local Abbreviation putNode := (putNode engine StringToNumber ID_FIELD PARENT_FIELD).
Local Abbreviation postNodes := (postNodes engine StringToNumber ID_FIELD PARENT_FIELD).
Local Abbreviation handleApi := (handleApi engine StringToNumber ID_FIELD PARENT_FIELD).
Local Abbreviation boundValues := (boundValues StringToNumber ID_FIELD PARENT_FIELD).
Local Abbreviation named := (named ID_FIELD PARENT_FIELD).
Local Abbreviation namedRequest := (namedRequest ID_FIELD PARENT_FIELD).
Local Abbreviation assign := (assign engine PARENT_FIELD).
Local Abbreviation assignAll := (assignAll engine PARENT_FIELD).
Local Abbreviation updateRows := (updateRows engine PARENT_FIELD).
Local Abbreviation execUpdate := (execUpdate engine PARENT_FIELD).

(** What [PUT] can answer: an error, with the table as it was; 200 after the
    update worked out here; or 200 after a statement of the engine's own. *)
Lemma putNode_cases (db : Db) (t : Z) (value : option JsObject) :
  (exists st, 400 <= st /\ putNode db t value = (sendError st, db)) \/
  (named db value = true /\
   exists rows',
     updateRows (hasId db) (boundValues (payloadOf value)) t (rows db) = Some rows' /\
     putNode db t value =
       (sendJsonRow 200 (selectById (mkDb (schema db) rows' (sequence db)) t),
        mkDb (schema db) rows' (sequence db))) \/
  (named db value = false /\
   exists n lastID db',
     otherStatement engine db (boundValues (payloadOf value)) (Some t) =
       RunOk (S n) lastID db' /\
     putNode db t value = (sendJsonRow 200 (selectById db' t), db')).
Proof.
  unfold Server.putNode, Server.named, Server.boundValues.
  destruct (columnsOf ID_FIELD (payloadOf value)) as [| c cs] eqn:Ecols;
    [left; exists 400; split; [lia | reflexivity] |].
  unfold Server.execUpdate. rewrite map_map. cbn [fst]. rewrite map_id.
  destruct (forallb _ (c :: cs)) eqn:Enamed; cbn [negb].
  - destruct (Server.updateRows _ _ _ _ _ _) as [rows' |] eqn:Eu;
      [| left; exists 500; split; [lia | reflexivity]].
    destruct (List.length _) as [| n];
      [left; exists 404; split; [lia | reflexivity] |].
    right. left. split; [reflexivity |]. exists rows'. split; reflexivity.
  - destruct (otherStatement _ _ _ _) as [| [| n] lastID db'];
      [left; exists 500; split; [lia | reflexivity]
      | left; exists 404; split; [lia | reflexivity] |].
    right. right. split; [reflexivity |]. exists n, lastID, db'. split; reflexivity.
Qed.

Lemma postNodes_cases (db : Db) (value : option JsObject) :
  (exists st, 400 <= st /\ postNodes db value = (sendError st, db)) \/
  (named db value = true /\
   exists r,
     assignAll (fun p => Z.eqb p (nextId db) || hasId db p)
       (mkRow (nextId db) None (map (fun c => (c, JNull)) (schema db)))
       (boundValues (payloadOf value)) = Some r /\
     postNodes db value =
       (sendJsonRow 201
          (selectById (mkDb (schema db) (rows db ++ [r]) (nextId db)) (nextId db)),
        mkDb (schema db) (rows db ++ [r]) (nextId db))) \/
  (named db value = false /\
   exists n lastID db',
     otherStatement engine db (boundValues (payloadOf value)) None =
       RunOk n lastID db' /\
     postNodes db value = (sendJsonRow 201 (selectById db' lastID), db')).
Proof.
  unfold Server.postNodes, Server.named, Server.boundValues.
  destruct (columnsOf ID_FIELD (payloadOf value)) as [| c cs] eqn:Ecols;
    [left; exists 400; split; [lia | reflexivity] |].
  unfold execInsert. rewrite map_map. cbn [fst]. rewrite map_id.
  destruct (forallb _ (c :: cs)) eqn:Enamed; cbn [negb].
  - destruct (Server.assignAll _ _ _ _ _) as [r |];
      [| left; exists 500; split; [lia | reflexivity]].
    right. left. split; [reflexivity |]. exists r. split; reflexivity.
  - destruct (otherStatement _ _ _ _) as [| n lastID db'];
      [left; exists 500; split; [lia | reflexivity] |].
    right. right. split; [reflexivity |]. exists n, lastID, db'. split; reflexivity.
Qed.

(** X1: a request that is answered with an error status leaves the table
    as it was. *)
Theorem error_leaves_table (fuel : nat) (db db' : Db) (req : Request) (resp : Response) :
  handleApi fuel db req = Some (resp, db') ->
  400 <= status resp ->
  db' = db.
Proof.
  assert (forall v, postNodes db v = (resp, db') -> 400 <= status resp -> db' = db)
    as Hpost.
  { intros v H1 Hst.
    destruct (postNodes_cases db v)
      as [(st & _ & E) | [(_ & r & _ & E) | (_ & n & l & d & _ & E)]];
      rewrite E in H1; inversion H1; subst; [reflexivity | |]; simpl in Hst; lia. }
  assert (forall t v, putNode db t v = (resp, db') -> 400 <= status resp -> db' = db)
    as Hput.
  { intros t v H1 Hst.
    destruct (putNode_cases db t v)
      as [(st & _ & E) | [(_ & rows' & _ & E) | (_ & n & l & d & _ & E)]];
      rewrite E in H1; inversion H1; subst; [reflexivity | |]; simpl in Hst; lia. }
  destruct req as [| raw | t raw | t | t |]; simpl; intros H Hst.
  - inversion H. reflexivity.
  - inversion H as [H1]. clear H. destruct raw as [| v |]; simpl in H1;
      [eapply Hpost; eassumption | eapply Hpost; eassumption |].
    inversion H1. reflexivity.
  - inversion H as [H1]. clear H. destruct raw as [| v |]; simpl in H1;
      [eapply Hput; eassumption | eapply Hput; eassumption |].
    inversion H1. reflexivity.
  - unfold deleteNode in H.
    destruct (subtree _ _ _) as [[| x l] |]; [inversion H; reflexivity | | discriminate].
    destruct (_ <=? _)%nat; inversion H; subst; [simpl in Hst; lia | reflexivity].
  - inversion H. reflexivity.
  - inversion H. reflexivity.
Qed.

(** *** What an assignment can do to a row *)

Lemma assign_row (present : Z -> bool) (r r' : Row) (kv : string * JsValue) :
  assign present r kv = Some r' ->
  id r' = id r /\
  (parent_id r' = parent_id r \/ parent_id r' = None \/
   exists p, parent_id r' = Some p /\ present p = true).
Proof.
  destruct kv as [col v]. unfold Server.assign.
  destruct (String.eqb col PARENT_FIELD).
  - destruct (asParent v) as [[p |] |]; [| | discriminate].
    + destruct (present p) eqn:E; [| discriminate].
      intros H. inversion H. simpl. split; [reflexivity |]. right. right. eauto.
    + intros H. inversion H. simpl. auto.
  - intros H. inversion H. simpl. auto.
Qed.

Lemma assignAll_row (present : Z -> bool) (kvs : list (string * JsValue)) (r r' : Row) :
  assignAll present r kvs = Some r' ->
  id r' = id r /\
  (parent_id r' = parent_id r \/ parent_id r' = None \/
   exists p, parent_id r' = Some p /\ present p = true).
Proof.
  revert r. induction kvs as [| kv kvs IH]; intros r; simpl.
  - intros H. inversion H. auto.
  - destruct (assign present r kv) as [r1 |] eqn:E; [| discriminate].
    intros H. apply IH in H as [Hid Hp]. apply assign_row in E as [Hid1 Hp1].
    split; [congruence |].
    destruct Hp as [Hp | [Hp | Hp]]; [| auto | auto].
    rewrite Hp. exact Hp1.
Qed.

Lemma updateRows_rows (present : Z -> bool) (kvs : list (string * JsValue)) (t : Z)
    (rs rs' : list Row) :
  updateRows present kvs t rs = Some rs' ->
  Forall2 (fun r r' =>
             id r' = id r /\ (id r <> t -> r' = r) /\
             (parent_id r' = parent_id r \/ parent_id r' = None \/
              exists p, parent_id r' = Some p /\ present p = true)) rs rs'.
Proof.
  revert rs'. induction rs as [| r rs IH]; intros rs'; simpl.
  - intros H. inversion H. constructor.
  - destruct (Z.eqb (id r) t) eqn:E.
    + destruct (assignAll present r kvs) as [r1 |] eqn:Ea; [| discriminate].
      destruct (Server.updateRows _ _ _ _ _ rs) as [rest |]; [| discriminate].
      intros H. inversion H. subst. constructor; [| now apply IH].
      apply assignAll_row in Ea as [Hid Hp]. apply Z.eqb_eq in E.
      split; [exact Hid |]. split; [intros Hne; contradiction | exact Hp].
    + destruct (Server.updateRows _ _ _ _ _ rs) as [rest |]; [| discriminate].
      intros H. inversion H. subst. constructor; [| now apply IH]. auto.
Qed.

Lemma Forall2_ids (P : Row -> Row -> Prop) (rs rs' : list Row) :
  Forall2 P rs rs' -> (forall r r', P r r' -> id r' = id r) ->
  map id rs' = map id rs.
Proof.
  induction 1 as [| r r' rs rs' Hr _ IH]; intros HP; simpl; [reflexivity |].
  rewrite (HP r r' Hr), IH by assumption. reflexivity.
Qed.

Lemma hasId_ids (db : Db) (i : Z) : hasId db i = true <-> In i (ids db).
Proof.
  unfold hasId, ids. rewrite existsb_exists, in_map_iff. split.
  - intros (r & Hin & Heq). apply Z.eqb_eq in Heq. eauto.
  - intros (r & Heq & Hin). exists r. split; [assumption | now apply Z.eqb_eq].
Qed.

Lemma hasId_same_ids (db db' : Db) (i : Z) :
  ids db' = ids db -> hasId db' i = hasId db i.
Proof.
  intros H. destruct (hasId db i) eqn:E.
  - apply hasId_ids. rewrite H. now apply hasId_ids.
  - apply not_true_iff_false. intros E'. apply hasId_ids in E'. rewrite H in E'.
    apply hasId_ids in E'. congruence.
Qed.

(** X2: when every key of the body is written as the name of a column,
    [PUT] changes neither the number of rows nor any key, and leaves every
    row whose key is not the target as it was. *)
Theorem put_touches_target_only (db db' : Db) (t : Z) (value : option JsObject)
    (resp : Response) :
  named db value = true ->
  putNode db t value = (resp, db') ->
  schema db' = schema db /\ sequence db' = sequence db /\
  Forall2 (fun r r' => id r' = id r /\ (id r <> t -> r' = r)) (rows db) (rows db').
Proof.
  intros Hnamed H.
  destruct (putNode_cases db t value)
    as [(st & _ & E) | [(_ & rows' & Hrun & E) | (Hno & _)]];
    [| | congruence]; rewrite E in H; inversion H; subst.
  - repeat split.
    match goal with |- Forall2 _ ?l ?l => induction l; constructor; auto end.
  - repeat split. simpl. apply updateRows_rows in Hrun.
    eapply Forall2_impl; [exact Hrun |]. simpl. intros r r' (Hsame & Hother & _). auto.
Qed.

(** *** The table stays sound *)

Lemma nextId_above (db : Db) (i : Z) : In i (ids db) -> i < nextId db.
Proof.
  unfold nextId. induction (ids db) as [| x l IH]; simpl; [intros [] |].
  intros [-> | Hin]; [lia |]. specialize (IH Hin). lia.
Qed.

Lemma nextId_sequence (db : Db) : sequence db < nextId db.
Proof.
  unfold nextId. induction (ids db) as [| x l IH]; simpl; lia.
Qed.

Lemma Forall2_In_r {A B : Type} (P : A -> B -> Prop) (l : list A) (l' : list B) (y : B) :
  Forall2 P l l' -> In y l' -> exists x, In x l /\ P x y.
Proof.
  induction 1 as [| a b l l' Hab _ IH]; simpl; [intros [] |].
  intros [<- | Hin]; [exists a; auto |].
  destruct (IH Hin) as (x & Hx & Hp). exists x. auto.
Qed.

Lemma sound_put (db db' : Db) (t : Z) (value : option JsObject) (resp : Response) :
  named db value = true ->
  sound db -> putNode db t value = (resp, db') -> sound db'.
Proof.
  intros Hnamed [Hu Hr] H.
  destruct (putNode_cases db t value)
    as [(st & _ & E) | [(_ & rs & Eu & E) | (Hno & _)]];
    [| | congruence]; rewrite E in H; inversion H; subst; [split; assumption |].
  apply updateRows_rows in Eu.
  assert (ids (mkDb (schema db) rs (sequence db)) = ids db) as Hids.
  { unfold ids. simpl. eapply Forall2_ids; [exact Eu |]. intros r r' (Hsame & _). exact Hsame. }
  split.
  - unfold uniqueIds. rewrite Hids. exact Hu.
  - intros r' p Hin Hp. rewrite (hasId_same_ids db _ p Hids).
    simpl in Hin. destruct (Forall2_In_r _ _ _ _ Eu Hin) as (r & Hr0 & _ & _ & Hpar).
    destruct Hpar as [Hpar | [Hpar | (q & Hq & Hpres)]].
    + apply (Hr r p Hr0). congruence.
    + congruence.
    + congruence.
Qed.

Lemma sound_post (db db' : Db) (value : option JsObject) (resp : Response) :
  named db value = true ->
  sound db -> postNodes db value = (resp, db') -> sound db'.
Proof.
  intros Hnamed [Hu Hr] H.
  destruct (postNodes_cases db value)
    as [(st & _ & E) | [(_ & r & Hrun & E) | (Hno & _)]];
    [| | congruence]; rewrite E in H; inversion H; subst; [split; assumption |].
  apply assignAll_row in Hrun as [Hid Hpar]. simpl in Hid, Hpar.
  split.
  - unfold uniqueIds, ids. simpl. rewrite map_app. simpl.
    apply List.NoDup_app; [exact Hu | repeat constructor; intros [] |].
    intros i Hi [<- | []]. apply nextId_above in Hi. lia.
  - intros r' p Hin Hp. simpl in Hin. apply hasId_ids. unfold ids. simpl.
    rewrite map_app. apply in_app_iff. apply in_app_iff in Hin as [Hin | [<- | []]].
    + left. apply hasId_ids. exact (Hr r' p Hin Hp).
    + destruct Hpar as [Hpar | [Hpar | (q & Hq & Hpres)]]; try congruence.
      rewrite Hq in Hp. inversion Hp. subst q.
      apply orb_true_iff in Hpres as [Hpres | Hpres].
      * right. simpl. left. apply Z.eqb_eq in Hpres. congruence.
      * left. now apply hasId_ids.
Qed.

Lemma filter_ids_NoDup (keep : Row -> bool) (rs : list Row) :
  List.NoDup (map id rs) -> List.NoDup (map id (List.filter keep rs)).
Proof.
  induction rs as [| r rs IH]; simpl; [auto |].
  intros Hnd. apply List.NoDup_cons_iff in Hnd as [Hx Hnd].
  destruct (keep r); simpl; [| now apply IH].
  constructor; [| now apply IH].
  intros Hin. apply Hx. apply in_map_iff in Hin as (x & Hx1 & Hx2).
  apply filter_In in Hx2 as [Hx2 _]. apply in_map_iff. eauto.
Qed.

Lemma sound_delete (db : Db) (gone : list Z) : sound db -> sound (execDelete db gone).
Proof.
  intros [Hu Hr].
  assert (forall r', In r' (rows (execDelete db gone)) ->
            exists r, In r (rows db) /\ inIds gone (id r) = false /\ r' = setNull gone r)
    as Hrows.
  { intros r' Hin. unfold execDelete in Hin. simpl in Hin.
    apply in_map_iff in Hin as (r & <- & Hin). apply filter_In in Hin as [Hin Hg].
    apply negb_true_iff in Hg. eauto. }
  assert (forall r, id (setNull gone r) = id r) as Hsetid.
  { intros r. unfold setNull. destruct (parent_id r) as [p |]; [| reflexivity].
    destruct (inIds gone p); reflexivity. }
  split.
  - unfold uniqueIds, ids, execDelete. simpl. rewrite map_map.
    rewrite (map_ext _ id) by exact Hsetid.
    apply filter_ids_NoDup. exact Hu.
  - intros r' p Hin Hp. destruct (Hrows r' Hin) as (r & Hr0 & Hg & ->).
    unfold setNull in Hp. destruct (parent_id r) as [q |] eqn:Eq; [| congruence].
    destruct (inIds gone q) eqn:Egq; [discriminate |].
    rewrite Eq in Hp. inversion Hp. subst q.
    specialize (Hr r p Hr0 Eq). unfold hasId in *. apply existsb_exists in Hr as (x & Hx & Hxid).
    apply existsb_exists. exists (setNull gone x). split.
    + unfold execDelete. simpl. apply in_map. apply filter_In. split; [exact Hx |].
      apply Z.eqb_eq in Hxid. rewrite Hxid, Egq. reflexivity.
    + now rewrite Hsetid.
Qed.

(** X3: every request whose body has no key but names of columns keeps
    the table sound: keys stay unique and every parent that is named stays
    the key of a row. *)
Theorem handleApi_keeps_sound (fuel : nat) (db db' : Db) (req : Request) (resp : Response) :
  namedRequest db req = true ->
  sound db ->
  handleApi fuel db req = Some (resp, db') ->
  sound db'.
Proof.
  intros Hnamed Hs. destruct req as [| raw | t raw | t | t |]; simpl; intros H.
  - inversion H. now subst.
  - inversion H as [H1]. destruct raw as [| v |]; simpl in H1.
    + exact (sound_post db db' (Some []) resp eq_refl Hs H1).
    + eapply sound_post; eassumption.
    + inversion H1. now subst.
  - inversion H as [H1]. destruct raw as [| v |]; simpl in H1.
    + exact (sound_put db db' t (Some []) resp eq_refl Hs H1).
    + eapply sound_put; eassumption.
    + inversion H1. now subst.
  - unfold deleteNode in H.
    destruct (subtree _ _ _) as [[| x l] |]; [inversion H; now subst | | discriminate].
    destruct (_ <=? _)%nat; inversion H; subst; [now apply sound_delete | exact Hs].
  - inversion H. now subst.
  - inversion H. now subst.
Qed.

(** X4: when every key of the body is written as the name of a column, a
    [POST] that is answered 201 adds one row at the end and changes no
    other; the new row's key is above every key in the table and above every
    key handed out before, and the answer carries the new row. *)
Theorem post_adds_fresh_row (db db' : Db) (value : option JsObject) (resp : Response) :
  named db value = true ->
  postNodes db value = (resp, db') ->
  status resp = 201 ->
  exists r,
    rows db' = rows db ++ [r] /\
    body resp = BodyRow (Some r) /\
    (forall old, In old (rows db) -> id old < id r) /\
    sequence db < id r /\ sequence db' = id r /\ schema db' = schema db.
Proof.
  intros Hnamed H Hst.
  destruct (postNodes_cases db value)
    as [(st & Hge & E) | [(_ & r & Hrun & E) | (Hno & _)]];
    [| | congruence]; rewrite E in H; inversion H; subst; [simpl in Hst; lia |].
  apply assignAll_row in Hrun as [Hid _]. simpl in Hid.
  assert (forall old, In old (rows db) -> id old < id r) as Hold.
  { intros old Hin. rewrite Hid. apply nextId_above. unfold ids. now apply in_map. }
  exists r. split; [reflexivity |]. split.
  - simpl. f_equal. unfold selectById. simpl.
    assert (forall rs, (forall old, In old rs -> id old < id r) ->
              List.find (fun x => Z.eqb (id x) (nextId db)) (rs ++ [r]) = Some r) as Hfind.
    { induction rs as [| x rs IH]; intros Hlt; simpl.
      - now rewrite Hid, Z.eqb_refl.
      - destruct (Z.eqb (id x) (nextId db)) eqn:Ex.
        + apply Z.eqb_eq in Ex. specialize (Hlt x (or_introl eq_refl)). lia.
        + apply IH. intros; apply Hlt; now right. }
    now apply Hfind.
  - split; [exact Hold |]. simpl. rewrite Hid.
    split; [apply nextId_sequence |]. auto.
Qed.

(** *** Values for the parent column *)

Lemma updateRows_root (present : Z -> bool) (v : JsValue) (t : Z) (rs : list Row) :
  asParent v = Some None ->
  updateRows present [(PARENT_FIELD, v)] t rs = Some (setParent t None rs).
Proof.
  intros Hv. induction rs as [| r rs IH]; [reflexivity |].
  simpl. rewrite IH. destruct (Z.eqb (id r) t); [| reflexivity].
  simpl. now rewrite String.eqb_refl, Hv.
Qed.

Lemma updateRows_dangling (present : Z -> bool) (v : JsValue) (p t : Z) (rs : list Row) :
  asParent v = Some (Some p) -> present p = false ->
  existsb (fun r => Z.eqb (id r) t) rs = true ->
  updateRows present [(PARENT_FIELD, v)] t rs = None.
Proof.
  intros Hv Hp. induction rs as [| r rs IH]; simpl; [discriminate |].
  destruct (Z.eqb (id r) t); simpl.
  - intros _. now rewrite String.eqb_refl, Hv, Hp.
  - intros H. now rewrite (IH H).
Qed.

Lemma bound_parent (v : JsValue) :
  ID_FIELD <> PARENT_FIELD ->
  boundValues (payloadOf (Some [(PARENT_FIELD, v)])) =
    [(PARENT_FIELD, normalizeIncomingValue StringToNumber PARENT_FIELD PARENT_FIELD v)].
Proof.
  intros Hne. unfold payloadOf, sanitizePayload, Server.boundValues, columnsOf. simpl.
  rewrite String.eqb_refl. simpl.
  destruct (String.eqb PARENT_FIELD ID_FIELD) eqn:E;
    [apply String.eqb_eq in E; congruence |].
  simpl. now rewrite String.eqb_refl.
Qed.

Lemma putNode_bound_parent (db : Db) (t : Z) (v : JsValue) :
  ID_FIELD <> PARENT_FIELD ->
  putNode db t (Some [(PARENT_FIELD, v)]) =
    match updateRows (hasId db)
            [(PARENT_FIELD, normalizeIncomingValue StringToNumber PARENT_FIELD PARENT_FIELD v)]
            t (rows db) with
    | None => (sendError 500, db)
    | Some rows' =>
        match List.length (List.filter (fun r => Z.eqb (id r) t) (rows db)) with
        | O => (sendError 404, db)
        | S _ => (sendJsonRow 200 (selectById (mkDb (schema db) rows' (sequence db)) t),
                  mkDb (schema db) rows' (sequence db))
        end
    end.
Proof.
  intros Hne. unfold Server.putNode. rewrite bound_parent by assumption.
  unfold payloadOf, sanitizePayload, columnsOf. simpl.
  destruct (String.eqb PARENT_FIELD ID_FIELD) eqn:E;
    [apply String.eqb_eq in E; congruence |].
  simpl. unfold Server.execUpdate. simpl. unfold knownColumn.
  rewrite String.eqb_refl. simpl.
  destruct (Server.updateRows _ _ _ _ _ _); reflexivity.
Qed.

Lemma assignAll_dangling (present : Z -> bool) (kvs : list (string * JsValue))
    (v : JsValue) (p : Z) (r : Row) :
  In (PARENT_FIELD, v) kvs -> asParent v = Some (Some p) -> present p = false ->
  assignAll present r kvs = None.
Proof.
  intros Hin Hv Hp. revert r.
  induction kvs as [| kv kvs IH]; intros r; [destruct Hin |].
  cbn [Server.assignAll].
  destruct (assign present r kv) as [r1 |] eqn:E; [| reflexivity].
  destruct Hin as [-> | Hin]; [| now apply IH].
  unfold Server.assign in E. now rewrite String.eqb_refl, Hv, Hp in E.
Qed.

Lemma updateRows_dangling_among (present : Z -> bool) (kvs : list (string * JsValue))
    (v : JsValue) (p t : Z) (rs : list Row) :
  In (PARENT_FIELD, v) kvs -> asParent v = Some (Some p) -> present p = false ->
  existsb (fun r => Z.eqb (id r) t) rs = true ->
  updateRows present kvs t rs = None.
Proof.
  intros Hin Hv Hp. induction rs as [| r rs IH]; cbn [Server.updateRows existsb];
    [discriminate |].
  destruct (Z.eqb (id r) t); cbn [orb].
  - intros _. now rewrite (assignAll_dangling present kvs v p r Hin Hv Hp).
  - intros H. rewrite (IH H). now destruct r.
Qed.

Lemma getProp_listed (obj : JsObject) (key : string) :
  getProp obj key <> JUndefined -> In key (keys obj).
Proof.
  induction obj as [| [k v] obj IH]; simpl; [congruence |].
  destruct (String.eqb k key) eqn:E; [apply String.eqb_eq in E; auto | auto].
Qed.

(** X5: a [PUT] whose keys are all written as names of columns and whose
    parent field is the number of a key that no row has is answered 500 and
    changes nothing, when the target exists. *)
Theorem put_dangling_parent_refused (db : Db) (t p : Z) (value : option JsObject) :
  ID_FIELD <> PARENT_FIELD ->
  named db value = true ->
  getProp (payloadOf value) PARENT_FIELD = JNumber (Int p) ->
  hasId db t = true ->
  hasId db p = false ->
  putNode db t value = (sendError 500, db).
Proof.
  intros Hne Hnamed Hv Ht Hp.
  assert (In PARENT_FIELD (columnsOf ID_FIELD (payloadOf value))) as Hcol.
  { unfold columnsOf. apply filter_In. split.
    - apply getProp_listed. rewrite Hv. discriminate.
    - apply negb_true_iff, String.eqb_neq. congruence. }
  assert (In (PARENT_FIELD, JNumber (Int p)) (boundValues (payloadOf value))) as Hbound.
  { unfold Server.boundValues. apply in_map_iff. exists PARENT_FIELD. split; [| exact Hcol].
    rewrite Hv. unfold normalizeIncomingValue, isIdLike. now rewrite String.eqb_refl. }
  unfold Server.putNode.
  destruct (columnsOf ID_FIELD (payloadOf value)) as [| c cs] eqn:Ecols; [destruct Hcol |].
  unfold Server.execUpdate.
  replace (forallb (knownColumn PARENT_FIELD db)
             (map fst (boundValues (payloadOf value)))) with true.
  - cbn [negb].
    now rewrite (updateRows_dangling_among (hasId db) _ (JNumber (Int p)) p t (rows db)
                   Hbound eq_refl Hp Ht).
  - symmetry. unfold Server.named in Hnamed. rewrite <- Hnamed.
    unfold Server.boundValues. rewrite map_map. cbn [fst]. rewrite map_id.
    now rewrite Ecols.
Qed.

(** X6: in the parent column an empty string is stored as [NULL] and makes
    the target a root, while JSON [null] is turned into the number 0: the
    update is then answered 500 and changes nothing unless a row has key 0. *)
Theorem put_null_parent_is_zero (db : Db) (t : Z) :
  ID_FIELD <> PARENT_FIELD ->
  hasId db t = true ->
  putNode db t (Some [(PARENT_FIELD, JString "")]) =
    (sendJsonRow 200
       (selectById (mkDb (schema db) (setParent t None (rows db)) (sequence db)) t),
     mkDb (schema db) (setParent t None (rows db)) (sequence db)) /\
  normalizeIncomingValue StringToNumber PARENT_FIELD PARENT_FIELD JNull = JNumber (Int 0) /\
  (hasId db 0 = false ->
   putNode db t (Some [(PARENT_FIELD, JNull)]) = (sendError 500, db)).
Proof.
  intros Hne Ht. split; [| split].
  - rewrite putNode_bound_parent by assumption. simpl.
    rewrite updateRows_root by reflexivity.
    pose proof (ServerFacts.matching_rows db t Ht) as Hn.
    destruct (List.length _); [congruence | reflexivity].
  - unfold normalizeIncomingValue, isIdLike. now rewrite String.eqb_refl.
  - intros H0. rewrite putNode_bound_parent by assumption.
    unfold normalizeIncomingValue, isIdLike. rewrite String.eqb_refl. simpl.
    now rewrite (updateRows_dangling (hasId db) (JNumber (Int 0)) 0 t (rows db) eq_refl H0 Ht).
Qed.

End Api.

(** *** [DELETE] and cycles *)

Section Delete.

Variable engine : Engine.
Variable db : Db.

Local Abbreviation deleteNode := (deleteNode engine).

Lemma below_tc (t x y : Z) :
  tc (childBelow db t) x y -> descendant db x y /\ inClosure db t x.
Proof.
  unfold descendant. induction 1 as [x y [Hx Hxy] | x y z [Hx Hxy] _ [IH _]].
  - split; [now apply tc_once | exact Hx].
  - split; [eapply tc_l; eassumption | exact Hx].
Qed.

Lemma sn_below (t x : Z) : ~ reachesCycle db t -> sn (childBelow db t) x.
Proof.
  intros Hno. apply tc_finite_sn.
  - intros y Hy. apply below_tc in Hy as [Hyy Hty]. apply Hno. exists y. auto.
  - exists (ids db). intros y Hy. apply below_tc in Hy as [Hxy _].
    apply list_elem_of_In. exact (ServerFacts.descendant_has_row db x y Hxy).
Qed.

Lemma generations_end_below (t x : Z) :
  sn (childBelow db t) x -> inClosure db t x ->
  exists n, generation db n [x] = [].
Proof.
  induction 1 as [x _ IH]. intros Hx.
  destruct (ServerFacts.generations_end_list db (childrenOf db x)) as [n Hn].
  - intros y Hy. apply ServerFacts.childrenOf_spec in Hy.
    apply IH; [split; assumption |]. unfold inClosure in *. eapply rtc_r; eassumption.
  - exists (S n). simpl. now rewrite app_nil_r.
Qed.

Lemma seed_generations_end (t : Z) :
  ~ reachesCycle db t -> exists n, generation db n (subtreeSeed db t) = [].
Proof.
  intros Hno. apply ServerFacts.generations_end_list.
  intros y Hy. apply ServerFacts.seed_In in Hy. subst y.
  apply (generations_end_below t); [now apply sn_below | constructor].
Qed.

Lemma subtree_closure_below (t : Z) :
  ~ reachesCycle db t ->
  hasId db t = true ->
  exists fuel gone,
    subtree fuel db (subtreeSeed db t) = Some gone /\
    forall x, In x gone <-> inClosure db t x.
Proof.
  intros Hno Hhas. destruct (seed_generations_end t Hno) as [n Hn].
  destruct (ServerFacts.subtree_returns db n _ Hn) as (fuel & gone & Hrun & Hgone).
  exists fuel, gone. split; [exact Hrun |].
  intros x. rewrite Hgone. split.
  - intros (k & _ & Hk). apply ServerFacts.generation_spec in Hk as (s & Hs & Hsteps).
    apply ServerFacts.seed_In in Hs. subst s. eapply rtc_nsteps_2. exact Hsteps.
  - intros Hx. apply rtc_nsteps_1 in Hx as [k Hk]. exists k.
    assert (In x (generation db k (subtreeSeed db t))) as Hin.
    { apply ServerFacts.generation_spec. exists t.
      split; [now apply ServerFacts.seed_present | exact Hk]. }
    split; [| exact Hin].
    destruct (Nat.lt_ge_cases k n) as [Hlt | Hge]; [exact Hlt |].
    rewrite (ServerFacts.generation_dies db n k _ Hn Hge) in Hin. destruct Hin.
Qed.

(** X7: [DELETE] of an existing node returns exactly when no cycle can be
    reached from the node by child links. The [subtree] query then gives the
    keys of the node's closure; when they are no more than one statement has
    host parameters, the answer is 204 and the rows of the closure are
    removed and no other, cycles elsewhere in the table notwithstanding;
    when they are more, the answer is 500 and no row is removed. *)
Theorem delete_returns_iff_no_cycle_below (t : Z) :
  hasId db t = true ->
  ((exists fuel out, deleteNode fuel db t = Some out) <-> ~ reachesCycle db t) /\
  (~ reachesCycle db t ->
   exists fuel gone,
     subtree fuel db (subtreeSeed db t) = Some gone /\
     (forall x, In x gone <-> inClosure db t x) /\
     ((List.length gone <= maxVariables engine)%nat ->
      (forall fuel', (fuel <= fuel')%nat ->
         deleteNode fuel' db t = Some (sendNoContent, execDelete db gone)) /\
      rows (execDelete db gone) =
        List.filter (fun r => negb (inIds gone (id r))) (rows db)) /\
     ((maxVariables engine < List.length gone)%nat ->
      forall fuel', (fuel <= fuel')%nat ->
        deleteNode fuel' db t = Some (sendError 500, db))).
Proof.
  intros Hhas.
  assert (~ reachesCycle db t ->
          exists fuel gone,
            subtree fuel db (subtreeSeed db t) = Some gone /\
            (forall x, In x gone <-> inClosure db t x) /\
            ((List.length gone <= maxVariables engine)%nat ->
             (forall fuel', (fuel <= fuel')%nat ->
                deleteNode fuel' db t = Some (sendNoContent, execDelete db gone)) /\
             rows (execDelete db gone) =
               List.filter (fun r => negb (inIds gone (id r))) (rows db)) /\
            ((maxVariables engine < List.length gone)%nat ->
             forall fuel', (fuel <= fuel')%nat ->
               deleteNode fuel' db t = Some (sendError 500, db))) as Hgood.
  { intros Hno.
    destruct (subtree_closure_below t Hno Hhas) as (fuel & gone & Hrun & Hgone).
    assert (In t gone) as Hin by (apply Hgone; constructor).
    exists fuel, gone. split; [exact Hrun |]. split; [exact Hgone |]. split.
    - intros Hle. split.
      + intros fuel' Hfuel.
        rewrite (ServerFacts.deleteNode_answers engine db t fuel fuel' gone Hrun Hin Hfuel).
        destruct (Nat.leb_spec (List.length gone) (maxVariables engine));
          [reflexivity | lia].
      + apply ServerFacts.execDelete_rows.
        intros p c Hp Hc. apply Hgone. apply Hgone in Hp.
        unfold inClosure in *. eapply rtc_r; eassumption.
    - intros Hgt fuel' Hfuel.
      rewrite (ServerFacts.deleteNode_answers engine db t fuel fuel' gone Hrun Hin Hfuel).
      destruct (Nat.leb_spec (List.length gone) (maxVariables engine));
        [lia | reflexivity]. }
  split; [| exact Hgood]. split.
  - intros (fuel & out & Hout) Hcyc.
    rewrite (ServerFacts.deleteNode_diverges engine db fuel t Hhas Hcyc) in Hout.
    discriminate.
  - intros Hno. destruct (Hgood Hno) as (fuel & gone & Hrun & Hgone & _).
    exists fuel. eexists.
    apply (ServerFacts.deleteNode_answers engine db t fuel fuel gone Hrun);
      [apply Hgone; constructor | lia].
Qed.

(** X8: after a [DELETE] that is answered 204, the same [DELETE] again is
    answered 404 and changes nothing. *)
Theorem delete_twice (fuel : nat) (t : Z) (db1 : Db) :
  deleteNode fuel db t = Some (sendNoContent, db1) ->
  forall fuel', deleteNode fuel' db1 t = Some (sendError 404, db1).
Proof.
  unfold Server.deleteNode.
  destruct (subtree fuel db (subtreeSeed db t)) as [gone |] eqn:E; [| discriminate].
  destruct gone as [| g gone]; [discriminate |].
  destruct (_ <=? _)%nat; [| discriminate].
  intros H. inversion H as [Hdb1]. clear H.
  assert (In t (g :: gone)) as Hin.
  { destruct (subtreeSeed db t) as [| s q] eqn:Es;
      [destruct fuel; simpl in E; discriminate |].
    assert (s = t) by (apply (ServerFacts.seed_In db t); rewrite Es; now left).
    subst s. destruct fuel; simpl in E; [discriminate |].
    destruct (subtree fuel db _); inversion E. now left. }
  assert (hasId (execDelete db (g :: gone)) t = false) as Hno.
  { apply not_true_iff_false. unfold hasId, execDelete. cbn [rows].
    rewrite existsb_exists. intros (r' & Hr' & Hid).
    apply in_map_iff in Hr' as (r & <- & Hr). apply filter_In in Hr as [_ Hkeep].
    apply Z.eqb_eq in Hid.
    assert (id (setNull (g :: gone) r) = id r) as Hsame.
    { unfold setNull. destruct (parent_id r) as [q |]; [| reflexivity].
      destruct (inIds (g :: gone) q); reflexivity. }
    rewrite Hsame in Hid. rewrite Hid in Hkeep.
    apply negb_true_iff in Hkeep.
    apply (ServerFacts.inIds_spec (g :: gone) t) in Hin. congruence. }
  intros fuel'. rewrite (ServerFacts.seed_absent _ t Hno). destruct fuel'; reflexivity.
Qed.

End Delete.

(** *** [POST], then [DELETE] *)

Section RoundTrip.

Variable engine : Engine.
Variable StringToNumber : string -> JsNum.
Variables ID_FIELD PARENT_FIELD : string.

Local Abbreviation deleteNode := (deleteNode engine).

Lemma find_new_row (n : Z) (r : Row) (rs : list Row) :
  id r = n -> (forall old, In old rs -> id old < n) ->
  List.find (fun x => Z.eqb (id x) n) (rs ++ [r]) = Some r.
Proof.
  intros Hid. induction rs as [| x rs IH]; intros Hlt; simpl.
  - now rewrite Hid, Z.eqb_refl.
  - destruct (Z.eqb (id x) n) eqn:Ex.
    + apply Z.eqb_eq in Ex. specialize (Hlt x (or_introl eq_refl)). lia.
    + apply IH. intros; apply Hlt; now right.
Qed.

Lemma filter_none {A : Type} (f : A -> bool) (l : list A) :
  (forall x, In x l -> f x = false) -> List.filter f l = [].
Proof.
  induction l as [| x l IH]; intros H; simpl; [reflexivity |].
  rewrite (H x (or_introl eq_refl)). apply IH. intros; apply H; now right.
Qed.

Lemma filter_all {A : Type} (f : A -> bool) (l : list A) :
  (forall x, In x l -> f x = true) -> List.filter f l = l.
Proof.
  induction l as [| x l IH]; intros H; simpl; [reflexivity |].
  rewrite (H x (or_introl eq_refl)). f_equal. apply IH. intros; apply H; now right.
Qed.


End RoundTrip.

End ServerExtra.

(** ** What [POST] and [PUT] store *)

Module NormalizeFacts.

Import Server.

Lemma lower_i (c : ascii) :
  Ascii.eqb (toLowerAscii c) "i" = Ascii.eqb c "i" || Ascii.eqb c "I".
Proof. destruct c as [[] [] [] [] [] [] [] []]; reflexivity. Qed.

Lemma lower_d (c : ascii) :
  Ascii.eqb (toLowerAscii c) "d" = Ascii.eqb c "d" || Ascii.eqb c "D".
Proof. destruct c as [[] [] [] [] [] [] [] []]; reflexivity. Qed.

Lemma prefix_id (s : string) :
  String.prefix "id" s = true <->
  exists i d post, s = String i (String d post) /\ i = "i"%char /\ d = "d"%char.
Proof.
  destruct s as [| a [| b post]].
  - split; [discriminate | intros (i & d & q & H & _); discriminate].
  - change (String.prefix "id" (String a ""))
      with (if ascii_dec "i" a then false else false).
    destruct (ascii_dec "i" a);
      (split; [discriminate | intros (i & d & q & H & _); discriminate]).
  - change (String.prefix "id" (String a (String b post)))
      with (if ascii_dec "i" a
            then if ascii_dec "d" b then String.prefix "" post else false
            else false).
    destruct (ascii_dec "i" a) as [<- | Ha].
    + destruct (ascii_dec "d" b) as [<- | Hb].
      * split; [intros _; now exists "i"%char, "d"%char, post |].
        intros _. now destruct post.
      * split; [discriminate |]. intros (i & d & q & H & -> & ->).
        inversion H. congruence.
    + split; [discriminate |]. intros (i & d & q & H & -> & ->).
      inversion H. congruence.
Qed.

(** The lower-cased name contains "id" exactly when the name has an [i] or
    [I] followed by a [d] or [D]. *)
Lemma includes_id (key : string) :
  includes (toLowerCase key) "id" = true <->
  exists pre i d post,
    key = (pre ++ String i (String d post))%string /\
    (i = "i" \/ i = "I")%char /\ (d = "d" \/ d = "D")%char.
Proof.
  induction key as [| c key IH].
  - simpl. split; [discriminate |].
    intros ([| a pre] & i & d & post & H & _); discriminate.
  - change (toLowerCase (String c key)) with (String (toLowerAscii c) (toLowerCase key)).
    cbn [includes]. rewrite orb_true_iff, IH, prefix_id. split.
    + intros [(i & d & post & H & -> & ->) | (pre & i & d & post & -> & Hi & Hd)].
      * inversion H as [[Hc Hrest]].
        destruct key as [| b key']; [discriminate |].
        change (toLowerCase (String b key'))
          with (String (toLowerAscii b) (toLowerCase key')) in Hrest.
        inversion Hrest as [[Hb Hpost]].
        exists ""%string, c, b, key'. split; [reflexivity |].
        pose proof (lower_i c) as Li. pose proof (lower_d b) as Ld.
        rewrite Hc in Li. rewrite Hb in Ld.
        change (true = Ascii.eqb c "i" || Ascii.eqb c "I") in Li.
        change (true = Ascii.eqb b "d" || Ascii.eqb b "D") in Ld.
        symmetry in Li, Ld. apply orb_true_iff in Li, Ld.
        rewrite !Ascii.eqb_eq in Li. rewrite !Ascii.eqb_eq in Ld. rewrite Hc, Hb. tauto.
      * exists (String c pre), i, d, post. auto.
    + intros ([| a pre] & i & d & post & H & Hi & Hd).
      * left. simpl in H. inversion H. subst c key.
        exists "i"%char, "d"%char, (toLowerCase post).
        change (toLowerCase (String d post))
          with (String (toLowerAscii d) (toLowerCase post)).
        assert (toLowerAscii i = "i"%char) as ->.
        { apply Ascii.eqb_eq. rewrite lower_i. apply orb_true_iff.
          rewrite !Ascii.eqb_eq. exact Hi. }
        assert (toLowerAscii d = "d"%char) as ->.
        { apply Ascii.eqb_eq. rewrite lower_d. apply orb_true_iff.
          rewrite !Ascii.eqb_eq. exact Hd. }
        auto.
      * right. simpl in H. inversion H. subst. exists pre, i, d, post. auto.
Qed.

Section Stored.

Variable engine : Engine.
Variable StringToNumber : string -> JsNum.
Variables ID_FIELD PARENT_FIELD : string.

Local Abbreviation normalizeIncomingValue :=
  (normalizeIncomingValue StringToNumber PARENT_FIELD).
Local Abbreviation boundValues := (boundValues StringToNumber ID_FIELD PARENT_FIELD).
Local Abbreviation putNode := (putNode engine StringToNumber ID_FIELD PARENT_FIELD).
Local Abbreviation postNodes := (postNodes engine StringToNumber ID_FIELD PARENT_FIELD).
Local Abbreviation named := (named ID_FIELD PARENT_FIELD).
Local Abbreviation column := (column PARENT_FIELD).
Local Abbreviation storedForm := (storedForm engine PARENT_FIELD).
Local Abbreviation assign := (assign engine PARENT_FIELD).
Local Abbreviation assignAll := (assignAll engine PARENT_FIELD).
Local Abbreviation updateRows := (updateRows engine PARENT_FIELD).

Lemma getProp_setExtra (cols : list (string * JsValue)) (k k' : string) (v : JsValue) :
  getProp (setExtra cols k v) k' = if String.eqb k k' then v else getProp cols k'.
Proof.
  induction cols as [| [k0 x] cols IH]; simpl.
  - now destruct (String.eqb k k').
  - destruct (String.eqb k0 k) eqn:E0; simpl.
    + apply String.eqb_eq in E0. subst k0. now destruct (String.eqb k k').
    + rewrite IH. destruct (String.eqb k0 k') eqn:E1; [| reflexivity].
      apply String.eqb_eq in E1. subst k0.
      rewrite String.eqb_sym, E0. reflexivity.
Qed.

(** One assignment: the column holds the stored form of the bound value,
    and every other column is as it was. *)
Lemma column_assign (present : Z -> bool) (r r' : Row) (col : string) (v : JsValue) :
  assign present r (col, v) = Some r' ->
  column r' col = storedForm col v /\
  forall c, c <> col -> column r' c = column r c.
Proof.
  unfold Server.assign, Server.column, Server.storedForm.
  destruct (String.eqb col PARENT_FIELD) eqn:E.
  - apply String.eqb_eq in E. subst col.
    destruct v as [| | b | [| z | t] | s | o]; simpl; try discriminate.
    + intros H. inversion H. simpl. split; [reflexivity |].
      intros c Hc. destruct (String.eqb c PARENT_FIELD) eqn:Ec; [| reflexivity].
      apply String.eqb_eq in Ec. contradiction.
    + destruct (present z); [| discriminate].
      intros H. inversion H. simpl. split; [reflexivity |].
      intros c Hc. destruct (String.eqb c PARENT_FIELD) eqn:Ec; [| reflexivity].
      apply String.eqb_eq in Ec. contradiction.
  - intros H. inversion H. simpl. rewrite getProp_setExtra, String.eqb_refl.
    split; [reflexivity |]. intros c Hc.
    destruct (String.eqb c PARENT_FIELD); [reflexivity |].
    rewrite getProp_setExtra.
    destruct (String.eqb col c) eqn:Ec; [| reflexivity].
    apply String.eqb_eq in Ec. congruence.
Qed.

Lemma column_kept (present : Z -> bool) (kvs : list (string * JsValue)) (r r' : Row)
    (c : string) :
  assignAll present r kvs = Some r' -> ~ In c (map fst kvs) -> column r' c = column r c.
Proof.
  revert r. induction kvs as [| [col v] kvs IH]; intros r;
    cbn [Server.assignAll map fst In].
  - intros H _. now inversion H.
  - destruct (assign present r (col, v)) as [r1 |] eqn:E; [| discriminate].
    intros H Hc. rewrite (IH r1 H) by tauto.
    apply column_assign in E as [_ E]. apply E. intros ->. tauto.
Qed.

(** All assignments of a statement that binds [f col] to every [col]. *)
Lemma column_assignAll (present : Z -> bool) (f : string -> JsValue)
    (cols : list string) (r r' : Row) (c : string) :
  assignAll present r (map (fun col => (col, f col)) cols) = Some r' ->
  In c cols -> column r' c = storedForm c (f c).
Proof.
  revert r. induction cols as [| col cols IH]; intros r;
    cbn [Server.assignAll map In]; [intros _ [] |].
  destruct (assign present r (col, f col)) as [r1 |] eqn:E; [| discriminate].
  intros H Hin.
  destruct (in_dec string_dec c cols) as [Hc | Hc]; [exact (IH r1 H Hc) |].
  destruct Hin as [-> | Hin]; [| contradiction].
  rewrite (column_kept present _ r1 r' c H).
  - now apply column_assign in E as [E _].
  - rewrite map_map. simpl. now rewrite map_id.
Qed.

Lemma updateRows_target (present : Z -> bool) (kvs : list (string * JsValue)) (t : Z)
    (rs rs' : list Row) (r' : Row) :
  updateRows present kvs t rs = Some rs' ->
  List.find (fun x => Z.eqb (id x) t) rs' = Some r' ->
  exists r, assignAll present r kvs = Some r'.
Proof.
  revert rs'. induction rs as [| r rs IH]; intros rs'; cbn [Server.updateRows].
  - intros H. inversion H. discriminate.
  - destruct (Z.eqb (id r) t) eqn:E.
    + destruct (assignAll present r kvs) as [r1 |] eqn:Ea; [| discriminate].
      destruct (updateRows present kvs t rs) as [rest |]; [| discriminate].
      intros H. inversion H. subst rs'. simpl.
      assert (id r1 = id r) as Hid
        by (now apply (ServerExtra.assignAll_row engine PARENT_FIELD present kvs r r1)).
      rewrite Hid, E. intros Hf. inversion Hf. subst. eauto.
    + destruct (updateRows present kvs t rs) as [rest |] eqn:Er; [| discriminate].
      intros H. inversion H. subst rs'. simpl. rewrite E. now apply IH.
Qed.

(** What the claim says of a value, of the column [key] of the row [r]. *)
Lemma normalized_stored (key : string) (v : JsValue) (r : Row) :
  column r key = storedForm key (normalizeIncomingValue key v) ->
  (v = JString "" \/ v = JUndefined -> column r key = JNull) /\
  (v <> JString "" -> v <> JUndefined -> isIdLike PARENT_FIELD key = true ->
   column r key = match Number StringToNumber v with
                  | NaN => JNull
                  | n => storedForm key (JNumber n)
                  end).
Proof.
  assert (storedForm key JNull = JNull) as Hnull.
  { unfold Server.storedForm. now destruct (String.eqb key PARENT_FIELD). }
  intros ->. split.
  - intros Hv. now rewrite (ServerFacts.normalize_blank StringToNumber PARENT_FIELD key v Hv).
  - intros Hs Hu Hk.
    rewrite (ServerFacts.normalize_idlike StringToNumber PARENT_FIELD key v Hs Hu Hk).
    now destruct (Number StringToNumber v).
Qed.


End Stored.

End NormalizeFacts.


(** ** More on the renumbering script *)

Module RenumberExtra.

Import Renumber RenumberFacts.

Lemma insertBySort_sorted (r : Tool) (l : list Tool) :
  StronglySorted (fun a b => sort_order a <= sort_order b) l ->
  StronglySorted (fun a b => sort_order a <= sort_order b) (insertBySort r l).
Proof.
  induction 1 as [| x l Hs IH Hall]; simpl.
  - repeat constructor.
  - destruct (Z.leb (sort_order r) (sort_order x)) eqn:E.
    + apply Z.leb_le in E. constructor; [now constructor |].
      constructor; [exact E |].
      eapply Forall_impl; [exact Hall |]. simpl. intros; lia.
    + apply Z.leb_gt in E. constructor; [exact IH |].
      eapply Permutation_Forall; [symmetry; apply insertBySort_perm |].
      constructor; [lia | exact Hall].
Qed.

Lemma orderBySort_sorted (tool : list Tool) :
  StronglySorted (fun a b => sort_order a <= sort_order b) (orderBySort tool).
Proof.
  induction tool as [| r l IH]; simpl; [constructor |].
  now apply insertBySort_sorted.
Qed.

Lemma lookup_skip (tmp : list (Z * Z)) (k v i : Z) :
  k <> i -> new_sort_order ((k, v) :: tmp) i = new_sort_order tmp i.
Proof.
  intros Hne. simpl. destruct (Z.eqb k i) eqn:E; [| reflexivity].
  apply Z.eqb_eq in E. contradiction.
Qed.

(** Along the sorted rows the new keys grow. *)
Lemma rowNumbers_grow (rn : Z) (l : list Tool) (r r' : Tool) (v v' : Z) :
  StronglySorted (fun a b => sort_order a <= sort_order b) l ->
  List.NoDup (map id l) ->
  In r l -> In r' l -> sort_order r < sort_order r' ->
  new_sort_order (rowNumbers rn l) (id r) = Some v ->
  new_sort_order (rowNumbers rn l) (id r') = Some v' ->
  v < v'.
Proof.
  intros Hs. revert rn. induction Hs as [| x l Hs IH Hall]; intros rn Hnd Hr Hr' Hlt Hv Hv';
    [destruct Hr |].
  simpl in Hnd. apply List.NoDup_cons_iff in Hnd as [Hx Hnd].
  rewrite List.Forall_forall in Hall. simpl in Hv, Hv'.
  destruct Hr as [<- | Hr], Hr' as [<- | Hr'].
  - lia.
  - rewrite Z.eqb_refl in Hv. inversion Hv. subst v.
    destruct (Z.eqb (id x) (id r')) eqn:E.
    + apply Z.eqb_eq in E. exfalso. apply Hx. rewrite E. now apply in_map.
    + apply lookup_In, rowNumbers_In in Hv' as (a & Ha & ->). lia.
  - specialize (Hall r Hr). lia.
  - destruct (Z.eqb (id x) (id r)) eqn:E;
      [apply Z.eqb_eq in E; exfalso; apply Hx; rewrite E; now apply in_map |].
    destruct (Z.eqb (id x) (id r')) eqn:E';
      [apply Z.eqb_eq in E'; exfalso; apply Hx; rewrite E'; now apply in_map |].
    eapply IH; eassumption.
Qed.

Lemma same_id_same_row (l : list Tool) (x y : Tool) :
  List.NoDup (map id l) -> In x l -> In y l -> id x = id y -> x = y.
Proof.
  induction l as [| z l IH]; simpl; [intros _ [] |].
  intros Hnd. apply List.NoDup_cons_iff in Hnd as [Hz Hnd].
  intros [-> | Hx] [-> | Hy] Heq; auto.
  - exfalso. apply Hz. rewrite Heq. now apply in_map.
  - exfalso. apply Hz. rewrite <- Heq. now apply in_map.
Qed.

(** X10: the script keeps the order of the rows: of two rows, the one with
    the smaller [sort_order] before the script has the smaller one after. *)
Theorem renumber_keeps_order (tool : list Tool) (t1 : list Written) (t2 : list Tool)
    (r r' f f' : Tool) :
  renumberGroup tool = Some (t1, t2) ->
  In r tool -> In r' tool -> sort_order r < sort_order r' ->
  In f t2 -> In f' t2 -> id f = id r -> id f' = id r' ->
  sort_order f < sort_order f'.
Proof.
  destruct (fillTmp tool) as [tmp |] eqn:Hfill;
    [| unfold renumberGroup; rewrite Hfill; discriminate].
  rewrite (renumberGroup_filled tool tmp Hfill).
  intros H Hr Hr' Hlt Hf Hf' Hid Hid'. inversion H. subst t1 t2. clear H.
  assert (forall x, In x tool -> exists v, new_sort_order tmp (id x) = Some v) as Hall
    by (intros x Hx; now apply (tmp_covers tool tmp)).
  apply in_map_iff in Hf as (x & <- & Hx). apply in_map_iff in Hf' as (x' & <- & Hx').
  simpl in *. rewrite Hid, Hid'.
  destruct (Hall r Hr) as [v Hv]. destruct (Hall r' Hr') as [v' Hv'].
  rewrite Hv, Hv'. simpl.
  destruct (fillTmp_inv tool tmp Hfill) as [Htmp Hnd]. subst tmp.
  pose proof (orderBySort_perm tool) as Hperm.
  eapply (rowNumbers_grow 1 (orderBySort tool) r r').
  - apply orderBySort_sorted.
  - eapply Permutation.Permutation_NoDup; [| exact Hnd].
    apply Permutation_map. now symmetry.
  - eapply Permutation_in; [symmetry; exact Hperm | exact Hr].
  - eapply Permutation_in; [symmetry; exact Hperm | exact Hr'].
  - exact Hlt.
  - exact Hv.
  - exact Hv'.
Qed.

Lemma NoDup_distinct (l : list Z) : List.NoDup l -> distinct l = true.
Proof.
  induction 1 as [| x l Hx Hnd IH]; simpl; [reflexivity |].
  rewrite IH, andb_true_r. apply negb_true_iff, not_true_iff_false.
  intros H. apply existsb_exists in H as (y & Hy & Heq).
  apply Z.eqb_eq in Heq. subst. contradiction.
Qed.

Lemma final_ids (tmp : list (Z * Z)) (tool : list Tool) :
  map id (map (fun r => mkTool (id r) (default 0 (new_sort_order tmp (id r)))) tool) =
    map id tool.
Proof. rewrite map_map. reflexivity. Qed.

(** X11: the script fails, at the filling of the temporary table, exactly
    when two rows of [tool] have the same [id]; when it runs through, both
    updates leave the rows' ids and their order in the table as they were. *)
Theorem renumber_fails_on_duplicates (tool : list Tool) :
  (renumberGroup tool = None <-> ~ List.NoDup (map id tool)) /\
  (forall t1 t2, renumberGroup tool = Some (t1, t2) ->
     map wid t1 = map id tool /\ map id t2 = map id tool).
Proof.
  split.
  - destruct (fillTmp tool) as [tmp |] eqn:Hfill.
    + rewrite (renumberGroup_filled tool tmp Hfill).
      split; [discriminate |]. intros Hdup. exfalso. apply Hdup.
      now apply (fillTmp_inv tool tmp).
    + unfold renumberGroup. rewrite Hfill. split; [| reflexivity]. intros _ Hnd.
      unfold fillTmp in Hfill. destruct (distinct _) eqn:E; [discriminate |].
      apply not_true_iff_false in E. apply E. apply NoDup_distinct.
      rewrite rowNumbers_fst.
      eapply Permutation.Permutation_NoDup; [| exact Hnd].
      apply Permutation_map. symmetry. apply orderBySort_perm.
  - intros t1 t2.
    destruct (fillTmp tool) as [tmp |] eqn:Hfill;
      [| unfold renumberGroup; rewrite Hfill; discriminate].
    rewrite (renumberGroup_filled tool tmp Hfill).
    intros H. inversion H. split; [apply phase1_ids | apply final_ids].
Qed.

Lemma rowNumbers_values_sorted (rn : Z) (l : list Tool) :
  StronglySorted Z.lt (map snd (rowNumbers rn l)).
Proof.
  revert rn. induction l as [| x l IH]; intros rn; simpl; constructor; [apply IH |].
  apply List.Forall_forall. intros v Hv.
  apply in_map_iff in Hv as ([i w] & <- & Hin). simpl.
  apply rowNumbers_In in Hin as (a & Ha & ->). lia.
Qed.

Lemma own_keys (rn : Z) (l : list Tool) :
  List.NoDup (map id l) ->
  map (fun x => default 0 (new_sort_order (rowNumbers rn l) (id x))) l =
    map snd (rowNumbers rn l).
Proof.
  revert rn. induction l as [| x l IH]; intros rn Hnd; simpl; [reflexivity |].
  simpl in Hnd. apply List.NoDup_cons_iff in Hnd as [Hx Hnd].
  rewrite Z.eqb_refl. simpl. f_equal. rewrite <- (IH (rn + 1) Hnd).
  apply map_ext_in. intros y Hy.
  destruct (Z.eqb (id x) (id y)) eqn:E; [| reflexivity].
  apply Z.eqb_eq in E. exfalso. apply Hx. rewrite E. now apply in_map.
Qed.

Lemma rowNumbers_by_ids (rn : Z) (l l' : list Tool) :
  map id l = map id l' -> rowNumbers rn l = rowNumbers rn l'.
Proof.
  revert rn l'. induction l as [| x l IH]; intros rn [| x' l'] H; simpl in *;
    try discriminate; [reflexivity |].
  inversion H as [[Hx Hl]]. rewrite Hx. f_equal. now apply IH.
Qed.

(** Two lists of rows in strictly increasing order of [sort_order] that hold
    the same rows are the same list. *)
Lemma sorted_unique (l1 l2 : list Tool) :
  StronglySorted (fun a b => sort_order a < sort_order b) l1 ->
  StronglySorted (fun a b => sort_order a < sort_order b) l2 ->
  Permutation l1 l2 -> l1 = l2.
Proof.
  intros H1. revert l2. induction H1 as [| x l1 Hs1 IH Hall1]; intros l2 H2 Hperm.
  - apply Permutation_nil in Hperm. now subst.
  - destruct H2 as [| y l2 Hs2 Hall2];
      [symmetry in Hperm; apply Permutation_nil in Hperm; discriminate |].
    rewrite List.Forall_forall in Hall1, Hall2.
    assert (x = y) as ->.
    { assert (In x (y :: l2)) as Hx by (eapply Permutation_in; [exact Hperm | now left]).
      assert (In y (x :: l1))
        as Hy by (eapply Permutation_in; [symmetry; exact Hperm | now left]).
      destruct Hx as [-> | Hx]; [reflexivity |].
      destruct Hy as [-> | Hy]; [reflexivity |].
      specialize (Hall1 y Hy). specialize (Hall2 x Hx). lia. }
    f_equal. apply IH; [exact Hs2 |]. eapply Permutation_cons_inv. exact Hperm.
Qed.

Lemma sorted_by_keys (l : list Tool) :
  StronglySorted Z.lt (map sort_order l) ->
  StronglySorted (fun a b => sort_order a < sort_order b) l.
Proof.
  induction l as [| x l IH]; simpl; intros H; [constructor |].
  apply StronglySorted_inv in H as [Hs Hall]. constructor; [now apply IH |].
  rewrite List.Forall_forall in *. intros y Hy. apply Hall. now apply in_map.
Qed.

Lemma sorted_strictly (l : list Tool) :
  List.NoDup (map sort_order l) ->
  StronglySorted (fun a b => sort_order a <= sort_order b) l ->
  StronglySorted (fun a b => sort_order a < sort_order b) l.
Proof.
  induction l as [| x l IH]; intros Hnd Hs; [constructor |].
  apply StronglySorted_inv in Hs as [Hs Hall].
  simpl in Hnd. apply List.NoDup_cons_iff in Hnd as [Hx Hnd].
  constructor; [auto |].
  rewrite List.Forall_forall in *. intros y Hy. specialize (Hall y Hy).
  assert (sort_order x <> sort_order y).
  { intros E. apply Hx. rewrite E. now apply in_map. }
  lia.
Qed.

(** X12: run on the table it has produced, the script produces that table
    again. *)
Theorem renumber_again (tool : list Tool) (t1 : list Written) (t2 : list Tool) :
  renumberGroup tool = Some (t1, t2) ->
  exists t1', renumberGroup t2 = Some (t1', t2).
Proof.
  destruct (fillTmp tool) as [tmp |] eqn:Hfill;
    [| unfold renumberGroup; rewrite Hfill; discriminate].
  rewrite (renumberGroup_filled tool tmp Hfill).
  intros H. injection H as H1 H2. clear H1.
  assert (forall x, In x tool -> exists v, new_sort_order tmp (id x) = Some v) as Hall
    by (intros x Hx; now apply (tmp_covers tool tmp)).
  set (g := fun r => mkTool (id r) (default 0 (new_sort_order tmp (id r)))) in *.
  destruct (fillTmp_inv tool tmp Hfill) as [Htmp Hnd].
  pose proof (orderBySort_perm tool) as Hperm.
  assert (List.NoDup (map id (orderBySort tool))) as Hnds.
  { eapply Permutation.Permutation_NoDup; [| exact Hnd].
    apply Permutation_map. now symmetry. }
  assert (map sort_order (map g (orderBySort tool)) = map snd tmp) as Hkeys.
  { rewrite map_map. simpl. rewrite Htmp. now apply own_keys. }
  assert (StronglySorted (fun a b => sort_order a < sort_order b)
            (map g (orderBySort tool))) as Hsorted.
  { apply sorted_by_keys. rewrite Hkeys, Htmp. apply rowNumbers_values_sorted. }
  assert (Permutation (map g (orderBySort tool)) t2) as Hp2.
  { subst t2. now apply Permutation_map. }
  assert (orderBySort t2 = map g (orderBySort tool)) as Horder.
  { apply sorted_unique; [| exact Hsorted |].
    - apply sorted_strictly; [| apply orderBySort_sorted].
      eapply Permutation.Permutation_NoDup;
        [apply Permutation_map; symmetry; apply orderBySort_perm |].
      eapply Permutation.Permutation_NoDup; [apply Permutation_map; exact Hp2 |].
      rewrite Hkeys, Htmp. apply rowNumbers_values_NoDup.
    - rewrite orderBySort_perm. now symmetry. }
  assert (fillTmp t2 = Some tmp) as Hfill2.
  { unfold fillTmp. rewrite Horder.
    rewrite (rowNumbers_by_ids 1 (map g (orderBySort tool)) (orderBySort tool))
      by (rewrite map_map; reflexivity).
    rewrite <- Htmp. unfold fillTmp in Hfill. rewrite <- Htmp in Hfill.
    destruct (distinct (map fst tmp)); [reflexivity | discriminate]. }
  rewrite (renumberGroup_filled t2 tmp Hfill2). eexists. f_equal. f_equal.
  subst t2. rewrite map_map. reflexivity.
Qed.

End RenumberExtra.

(** ** More on the traversals *)

Module TreeExtra.

Import Server Closure Tree TreeMore Integrity.

(** *** [getAncestorIds] *)

Lemma findParent_bounded (data : list Row) (fuel : nat) (i : Z) (w w' : Walk) :
  findParent fuel data i w = Some w' ->
  (List.length (ancestors w') <=
   List.length (ancestors w) + List.length (unvisited data (visited w)))%nat.
Proof.
  revert i w. induction fuel as [| fuel IH]; intros i w; simpl; [discriminate |].
  destruct (existsb (Z.eqb i) (visited w)) eqn:Hv;
    [intros H; inversion H; lia |].
  destruct (List.find _ data) as [node |] eqn:Hf;
    [| intros H; inversion H; simpl; lia].
  destruct (truthyParent node) as [p |]; [| intros H; inversion H; simpl; lia].
  intros H. apply IH in H. simpl in H. rewrite length_app in H. simpl in H.
  pose proof (TreeFacts.unvisited_lt data (visited w) i node Hv Hf). lia.
Qed.

(** X13: [getAncestorIds] returns on every array, cyclic or not, once the
    stack has room for one call more than the array has rows, and what it
    returns has at most as many entries as the array has rows. *)
Theorem getAncestorIds_bounded (data : list Row) (nodeId : Z) :
  exists res,
    (forall fuel, (List.length data < fuel)%nat ->
       getAncestorIds fuel data nodeId = Some res /\
       getNodeDepth fuel data nodeId = Some (List.length res)) /\
    (List.length res <= List.length data)%nat.
Proof.
  destruct (TreeFacts.findParent_returns data (S (List.length data)) nodeId (mkWalk [] []))
    as [w Hw].
  { cbn [visited]. pose proof (TreeFacts.unvisited_bound data []). lia. }
  exists (ancestors w). split.
  - intros fuel Hlt. unfold getNodeDepth, getAncestorIds.
    rewrite (TreeFacts.findParent_enough data _ fuel _ _ w Hw) by lia. split; reflexivity.
  - apply findParent_bounded in Hw. cbn [ancestors visited] in Hw.
    pose proof (TreeFacts.unvisited_bound data []). simpl in Hw. lia.
Qed.

(** *** [getDescendantIds] *)

Lemma fold_collect (rec : Z -> option (list Z)) (cs : list Row) (acc : option (list Z)) :
  fold_left
    (fun descendants child =>
       match descendants, rec (id child) with
       | Some ds, Some sub => Some (ds ++ [id child] ++ sub)
       | _, _ => None
       end) cs acc =
  match acc, collectAll rec cs with
  | Some ds, Some more => Some (ds ++ more)
  | _, _ => None
  end.
Proof.
  revert acc. induction cs as [| c cs IH]; intros acc; simpl.
  - destruct acc; [now rewrite app_nil_r | reflexivity].
  - rewrite IH. destruct acc as [ds |]; [| now destruct (collectAll rec cs)].
    destruct (rec (id c)) as [sub |]; [| now destruct (collectAll rec cs)].
    destruct (collectAll rec cs) as [more |]; [| reflexivity].
    simpl. now rewrite <- !app_assoc.
Qed.

Lemma getDescendantIds_unfold (fuel : nat) (data : list Row) (nodeId : Z) :
  getDescendantIds (S fuel) data nodeId =
    if existsb (fun n => Z.eqb (id n) nodeId) data
    then collectAll (getDescendantIds fuel data) (List.filter (hasParent nodeId) data)
    else Some [].
Proof.
  simpl. destruct (existsb _ data); [| reflexivity].
  rewrite fold_collect. now destruct (collectAll _ _).
Qed.

Lemma collectAll_more (rec rec' : Z -> option (list Z)) (cs : list Row) (out : list Z) :
  (forall x r, rec x = Some r -> rec' x = Some r) ->
  collectAll rec cs = Some out -> collectAll rec' cs = Some out.
Proof.
  intros Hrec. revert out. induction cs as [| c cs IH]; intros out; simpl; [auto |].
  destruct (rec (id c)) as [sub |] eqn:E; [| discriminate].
  destruct (collectAll rec cs) as [more |]; [| discriminate].
  rewrite (Hrec _ _ E), (IH more eq_refl). auto.
Qed.

Lemma getDescendantIds_enough (data : list Row) (fuel fuel' : nat) (nodeId : Z)
    (res : list Z) :
  getDescendantIds fuel data nodeId = Some res -> (fuel <= fuel')%nat ->
  getDescendantIds fuel' data nodeId = Some res.
Proof.
  revert fuel' nodeId res. induction fuel as [| fuel IH]; intros fuel' nodeId res H Hle;
    [discriminate |].
  destruct fuel' as [| fuel']; [lia |].
  rewrite getDescendantIds_unfold in *.
  destruct (existsb _ data); [| exact H].
  eapply collectAll_more; [| exact H].
  intros x r Hx. apply IH; [exact Hx | lia].
Qed.

Lemma collectAll_none (rec : Z -> option (list Z)) (cs : list Row) (c : Row) :
  In c cs -> rec (id c) = None -> collectAll rec cs = None.
Proof.
  induction cs as [| x cs IH]; simpl; [intros [] |].
  intros [-> | Hin] Hnone.
  - now rewrite Hnone.
  - rewrite (IH Hin Hnone). now destruct (rec (id x)).
Qed.

Lemma collectAll_spec (rec : Z -> option (list Z)) (P : Z -> Z -> Prop) (cs : list Row) :
  (forall c, In c cs ->
     exists res, rec (id c) = Some res /\ forall y, In y res <-> P (id c) y) ->
  exists out,
    collectAll rec cs = Some out /\
    forall y, In y out <-> exists c, In c cs /\ (y = id c \/ P (id c) y).
Proof.
  induction cs as [| c cs IH]; intros H; simpl.
  - exists []. split; [reflexivity |]. intros y. split; [intros [] | intros (c & [] & _)].
  - destruct (H c (or_introl eq_refl)) as (res & Hres & Hspec).
    destruct IH as (more & Hmore & Hmspec); [intros x Hx; apply H; now right |].
    rewrite Hres, Hmore. eexists. split; [reflexivity |].
    intros y. simpl. rewrite in_app_iff, Hspec, Hmspec. split.
    + intros [Hy | [Hy | (x & Hx & Hy)]].
      * exists c. split; [now left | left; now symmetry].
      * exists c. split; [now left | now right].
      * exists x. split; [now right | exact Hy].
    + intros (x & [<- | Hx] & [Hy | Hy]).
      * left. now symmetry.
      * right. left. exact Hy.
      * right. right. exists x. auto.
      * right. right. exists x. auto.
Qed.

Lemma common_fuel (data : list Row) (P : Z -> Z -> Prop) (cs : list Row) :
  (forall c, In c cs ->
     exists fuel res,
       getDescendantIds fuel data (id c) = Some res /\ forall y, In y res <-> P (id c) y) ->
  exists fuel,
    forall c, In c cs ->
      exists res,
        getDescendantIds fuel data (id c) = Some res /\ forall y, In y res <-> P (id c) y.
Proof.
  induction cs as [| c cs IH]; intros H.
  - exists O. intros c [].
  - destruct (H c (or_introl eq_refl)) as (f1 & res & Hres & Hspec).
    destruct IH as (f2 & Hf2); [intros x Hx; apply H; now right |].
    exists (Nat.max f1 f2). intros x [<- | Hx].
    + exists res. split; [| exact Hspec].
      eapply getDescendantIds_enough; [exact Hres | lia].
    + destruct (Hf2 x Hx) as (r & Hr & Hs). exists r. split; [| exact Hs].
      eapply getDescendantIds_enough; [exact Hr | lia].
Qed.

Lemma children_rows (data : list Row) (nodeId : Z) (c : Row) :
  In c (List.filter (hasParent nodeId) data) <->
  In c data /\ parent_id c = Some nodeId.
Proof.
  rewrite filter_In. unfold hasParent. split; intros [Hin Hp]; split; auto.
  - destruct (parent_id c) as [p |]; [| discriminate].
    apply Z.eqb_eq in Hp. now subst.
  - rewrite Hp. apply Z.eqb_refl.
Qed.

Lemma descendant_step (db : Db) (x y : Z) :
  descendant db x y <-> exists c, childOf db x c /\ (y = c \/ descendant db c y).
Proof.
  unfold descendant. split.
  - intros H. inversion H as [? ? Hxy | ? c ? Hxc Hcy]; subst.
    + exists y. auto.
    + exists c. auto.
  - intros (c & Hxc & [-> | Hcy]); [now apply tc_once | eapply tc_l; eassumption].
Qed.

Lemma getDescendantIds_below (data : list Row) (t x : Z) :
  sn (childBelow (tableOf data) t) x ->
  inClosure (tableOf data) t x ->
  existsb (fun n => Z.eqb (id n) x) data = true ->
  exists fuel res,
    getDescendantIds fuel data x = Some res /\
    forall y, In y res <-> descendant (tableOf data) x y.
Proof.
  induction 1 as [x _ IH]. intros Hx Hex.
  destruct (common_fuel data (descendant (tableOf data))
              (List.filter (hasParent x) data)) as (fuel & Hfuel).
  { intros c Hc. apply children_rows in Hc as [Hc Hp].
    assert (childOf (tableOf data) x (id c)) as Hchild by (exists c; simpl; auto).
    apply IH.
    - split; assumption.
    - unfold inClosure in *. eapply rtc_r; eassumption.
    - apply existsb_exists. exists c. split; [exact Hc | apply Z.eqb_refl]. }
  destruct (collectAll_spec _ _ _ Hfuel) as (out & Hout & Hspec).
  exists (S fuel), out. split.
  - rewrite getDescendantIds_unfold, Hex. exact Hout.
  - intros y. rewrite Hspec, descendant_step. split.
    + intros (c & Hc & Hy). apply children_rows in Hc as [Hc Hp].
      exists (id c). split; [exists c; simpl; auto | exact Hy].
    + intros (ci & (c & Hc & <- & Hp) & Hy). exists c.
      split; [apply children_rows; auto | exact Hy].
Qed.

Lemma getDescendantIds_cycle (data : list Row) (fuel : nat) (x : Z) :
  existsb (fun n => Z.eqb (id n) x) data = true ->
  reachesCycle (tableOf data) x ->
  getDescendantIds fuel data x = None.
Proof.
  revert x. induction fuel as [| fuel IH]; intros x Hex Hcyc; [reflexivity |].
  rewrite getDescendantIds_unfold, Hex.
  destruct (ServerFacts.reachesCycle_child (tableOf data) x Hcyc) as (ci & Hci & Hcc).
  apply ServerFacts.childrenOf_spec in Hci as (c & Hc & <- & Hp). simpl in Hc.
  apply (collectAll_none _ _ c); [apply children_rows; auto |].
  apply IH; [| exact Hcc].
  apply existsb_exists. exists c. split; [exact Hc | apply Z.eqb_refl].
Qed.

(** X14: for a node of the array, [getDescendantIds] returns exactly when
    no cycle can be reached from the node by child links, and then returns
    the ids of the node's descendants and no other; for a node the array does
    not have it returns the empty list. *)
Theorem getDescendantIds_descendants (data : list Row) (nodeId : Z) :
  (existsb (fun n => Z.eqb (id n) nodeId) data = true ->
   ((exists fuel res, getDescendantIds fuel data nodeId = Some res) <->
    ~ reachesCycle (tableOf data) nodeId) /\
   (~ reachesCycle (tableOf data) nodeId ->
    exists fuel res,
      (forall fuel', (fuel <= fuel')%nat ->
         getDescendantIds fuel' data nodeId = Some res) /\
      forall y, In y res <-> descendant (tableOf data) nodeId y)) /\
  (existsb (fun n => Z.eqb (id n) nodeId) data = false ->
   forall fuel, getDescendantIds (S fuel) data nodeId = Some []).
Proof.
  split.
  - intros Hex.
    assert (~ reachesCycle (tableOf data) nodeId ->
            exists fuel res,
              (forall fuel', (fuel <= fuel')%nat ->
                 getDescendantIds fuel' data nodeId = Some res) /\
              forall y, In y res <-> descendant (tableOf data) nodeId y) as Hgood.
    { intros Hno.
      destruct (getDescendantIds_below data nodeId nodeId) as (fuel & res & Hres & Hspec).
      - now apply ServerExtra.sn_below.
      - constructor.
      - exact Hex.
      - exists fuel, res. split; [| exact Hspec].
        intros fuel' Hle. eapply getDescendantIds_enough; eassumption. }
    split; [| exact Hgood]. split.
    + intros (fuel & res & Hres) Hcyc.
      rewrite (getDescendantIds_cycle data fuel nodeId Hex Hcyc) in Hres. discriminate.
    + intros Hno. destruct (Hgood Hno) as (fuel & res & Hres & _).
      exists fuel, res. apply Hres. lia.
  - intros Hex fuel. rewrite getDescendantIds_unfold, Hex. reflexivity.
Qed.

(** *** The client's copy after a [DELETE] *)

Lemma delete_answer_rejected (engine : Engine) (StringToNumber : string -> JsNum)
    (ID_FIELD PARENT_FIELD : string) (fuel : nat) (db db' : Db) (i : Z)
    (resp : Response) :
  handleApi engine StringToNumber ID_FIELD PARENT_FIELD fuel db (deleteRequest i) =
    Some (resp, db') ->
  requestResolves resp = false /\
  (db' = db \/
   (0 <= i /\ resp = sendNoContent /\
    deleteNode engine fuel db i = Some (sendNoContent, db'))).
Proof.
  unfold deleteRequest. destruct (Z.leb 0 i) eqn:Ei; simpl.
  - apply Z.leb_le in Ei. intros H. pose proof H as H0. revert H.
    unfold deleteNode.
    destruct (subtree _ _ _) as [[| x l] |]; [| | discriminate].
    + intros H. inversion H. auto.
    + destruct (_ <=? _)%nat; intros H; inversion H; subst; auto.
  - intros H. inversion H. auto.
Qed.

(** X15: [DetailsRenderer.deleteNode] never changes the client's copy when
    the server is [handleApi]: [request] rejects whatever the server answers
    to the [DELETE], an error status as well as the 204, which has no body
    for [response.json()]. So when the server has carried out the deletion,
    the copy still holds the rows it has removed. *)
Theorem ui_delete_keeps_copy (engine : Engine) (StringToNumber : string -> JsNum)
    (ID_FIELD PARENT_FIELD : string) (confirmed : bool) (stack fuel : nat)
    (st st' : ClientState) (db db' : Db) :
  uiDeleteNode engine StringToNumber ID_FIELD PARENT_FIELD confirmed stack fuel st db =
    Some (st', db') ->
  st' = st /\
  (db' = db \/
   exists i,
     selectedNodeId st = Some i /\ 0 < i /\ confirmed = true /\
     deleteNode engine fuel db i = Some (sendNoContent, db')).
Proof.
  unfold uiDeleteNode.
  destruct (selectedNodeId st) as [i |] eqn:Hsel; [| intros H; inversion H; auto].
  assert (forall out : option (ClientState * Db),
            (i <> 0 ->
             out = (if negb confirmed then Some (st, db)
                    else match getDescendantIds stack (data st) i with
                         | None => Some (st, db)
                         | Some descendants =>
                             match handleApi engine StringToNumber ID_FIELD PARENT_FIELD
                                             fuel db (deleteRequest i) with
                             | None => None
                             | Some (resp, db1) =>
                                 if requestResolves resp
                                 then Some (mkClientState
                                              (removeLocal (data st) i descendants) None,
                                            db1)
                                 else Some (st, db1)
                             end
                         end) ->
             out = Some (st', db') ->
             st' = st /\
             (db' = db \/
              exists j, Some i = Some j /\ 0 < j /\ confirmed = true /\
                        deleteNode engine fuel db j = Some (sendNoContent, db')))) as Hrun.
  { intros out Hi -> . destruct confirmed; simpl; [| intros H; inversion H; auto].
    destruct (getDescendantIds stack (data st) i); [| intros H; inversion H; auto].
    destruct (handleApi _ _ _ _ _ _ _) as [[resp db1] |] eqn:Hreq; [| discriminate].
    apply delete_answer_rejected in Hreq as [-> Hdb].
    intros H. inversion H. subst. split; [reflexivity |].
    destruct Hdb as [-> | (Hle & _ & Hdel)]; [now left |].
    right. exists i. repeat split; [lia | exact Hdel]. }
  destruct i as [| i | i]; [intros H; inversion H; auto | |];
    intros H; eapply Hrun; try exact H; try reflexivity; discriminate.
Qed.

(** *** The walk to the root on a proper tree table *)

Lemma find_unique (data : list Row) (i : Z) (r : Row) :
  List.NoDup (map id data) -> In r data -> id r = i ->
  List.find (fun n => Z.eqb (id n) i) data = Some r.
Proof.
  induction data as [| x data IH]; simpl; [intros _ [] |].
  intros Hnd. apply List.NoDup_cons_iff in Hnd as [Hx Hnd].
  intros [-> | Hin] Hid.
  - now rewrite Hid, Z.eqb_refl.
  - destruct (Z.eqb (id x) i) eqn:E; [| now apply IH].
    apply Z.eqb_eq in E. exfalso. apply Hx. rewrite E, <- Hid. now apply in_map.
Qed.

Lemma tc_last {A : Type} (R : A -> A -> Prop) (a i : A) :
  tc R a i -> exists q, rtc R a q /\ R q i.
Proof.
  induction 1 as [a i H | a b i H _ (q & Hbq & Hqi)].
  - exists a. split; [constructor | exact H].
  - exists q. split; [eapply rtc_l; eassumption | exact Hqi].
Qed.

Lemma one_parent (data : list Row) (p q i : Z) :
  List.NoDup (map id data) ->
  childOf (tableOf data) p i -> childOf (tableOf data) q i -> p = q.
Proof.
  intros Hnd (r & Hr & Hid & Hp) (r' & Hr' & Hid' & Hq). simpl in *.
  assert (List.find (fun n => Z.eqb (id n) i) data = Some r) by now apply find_unique.
  assert (List.find (fun n => Z.eqb (id n) i) data = Some r') by now apply find_unique.
  congruence.
Qed.

Lemma truthyParent_some (node : Row) (p : Z) :
  truthyParent node = Some p -> parent_id node = Some p.
Proof.
  unfold truthyParent. destruct (parent_id node) as [[| q | q] |]; congruence.
Qed.

Lemma truthyParent_none (data : list Row) (node : Row) :
  keyed data -> In node data -> truthyParent node = None -> parent_id node = None.
Proof.
  intros [_ Hz] Hin. specialize (Hz node Hin). unfold truthyParent.
  destruct (parent_id node) as [[| q | q] |]; congruence.
Qed.

(** What a set of ids closed under the parent link holds of the ancestors. *)
Lemma closed_under_parent (data : list Row) (S : list Z) (a q : Z) :
  (forall p v, In v S -> childOf (tableOf data) p v -> In p S) ->
  rtc (childOf (tableOf data)) a q -> In q S -> In a S.
Proof.
  intros Hclosed. induction 1 as [| a b q Hab _ IH]; [auto |].
  intros Hq. eapply Hclosed; [apply IH; exact Hq | exact Hab].
Qed.

(** The walk of [findParent] from [n], at the call for [i]: what has been
    pushed are ancestors of [n]; the parent of every visited node has been
    pushed; every ancestor of [n] has been pushed or is an ancestor of
    [i]. *)
Lemma findParent_keyed (data : list Row) (n : Z) (fuel : nat) (i : Z) (w w' : Walk) :
  keyed data ->
  rtc (childOf (tableOf data)) i n ->
  (forall a, In a (ancestors w) -> descendant (tableOf data) a n) ->
  (forall p v, In v (visited w) -> childOf (tableOf data) p v -> In p (ancestors w)) ->
  (forall a, In a (ancestors w) -> In a (visited w) \/ a = i) ->
  (forall a, descendant (tableOf data) a n ->
             In a (ancestors w) \/ descendant (tableOf data) a i) ->
  findParent fuel data i w = Some w' ->
  forall a, In a (ancestors w') <-> descendant (tableOf data) a n.
Proof.
  intros Hkeyed. pose proof Hkeyed as [Hnd _]. revert i w.
  induction fuel as [| fuel IH]; intros i w HC HS HV HA HR; simpl; [discriminate |].
  destruct (existsb (Z.eqb i) (visited w)) eqn:Hv.
  { apply existsb_exists in Hv as (v & Hin & Heq). apply Z.eqb_eq in Heq. subst v.
    intros H a. inversion H. subst w'. split; [apply HS |].
    intros Ha. destruct (HR a Ha) as [Hd | Hd]; [exact Hd |].
    apply tc_last in Hd as (q & Haq & Hqi).
    assert (forall p v, In v (ancestors w) -> childOf (tableOf data) p v ->
                        In p (ancestors w)) as Hclosed.
    { intros p v Hvin Hpv. apply (HV p v); [| exact Hpv].
      destruct (HA v Hvin) as [Hvis | ->]; assumption. }
    apply (closed_under_parent data (ancestors w) a q Hclosed Haq).
    now apply (HV q i). }
  assert (forall node, List.find (fun r => Z.eqb (id r) i) data = node ->
            (forall p, ~ childOf (tableOf data) p i) ->
            forall a, In a (ancestors w) <-> descendant (tableOf data) a n) as Hstop.
  { intros _ _ Hroot a. split; [apply HS |].
    intros Ha. destruct (HR a Ha) as [Hd | Hd]; [exact Hd |].
    apply tc_last in Hd as (q & _ & Hqi). now destruct (Hroot q). }
  destruct (List.find _ data) as [node |] eqn:Hf.
  - apply find_some in Hf as Hnode. destruct Hnode as [Hin Hid]. apply Z.eqb_eq in Hid.
    destruct (truthyParent node) as [p |] eqn:Ep.
    + apply truthyParent_some in Ep.
      assert (childOf (tableOf data) p i) as Hchild by (exists node; simpl; auto).
      apply IH; cbn [ancestors visited].
      * eapply rtc_l; eassumption.
      * intros a Ha. apply in_app_iff in Ha as [Ha | [<- | []]]; [now apply HS |].
        unfold descendant. eapply tc_rtc_r; [apply tc_once; exact Hchild | exact HC].
      * intros q v [<- | Hvin] Hqv; apply in_app_iff.
        -- right. left. eapply one_parent; eassumption.
        -- left. eapply HV; eassumption.
      * intros a Ha. apply in_app_iff in Ha as [Ha | [<- | []]]; [| now right].
        left. destruct (HA a Ha) as [Hvis | ->]; [now right | now left].
      * intros a Ha. destruct (HR a Ha) as [Hd | Hd].
        -- left. apply in_app_iff. now left.
        -- apply tc_last in Hd as (q & Haq & Hqi).
           assert (q = p) as -> by (eapply one_parent; eassumption).
           apply rtc_tc in Haq as [-> | Haq]; [| now right].
           left. apply in_app_iff. right. now left.
    + intros H. inversion H. subst w'. cbn [ancestors].
      apply (Hstop _ eq_refl). intros q (r & Hr & Hrid & Hrp). simpl in Hr.
      assert (List.find (fun x => Z.eqb (id x) i) data = Some r) as Hfr
        by now apply find_unique.
      rewrite (find_unique data i node Hnd Hin Hid) in Hfr. inversion Hfr. subst r.
      rewrite (truthyParent_none data node Hkeyed Hin Ep) in Hrp. discriminate.
  - intros H. inversion H. subst w'. cbn [ancestors].
    apply (Hstop _ eq_refl). intros q (r & Hr & Hrid & Hrp). simpl in Hr.
    pose proof (find_none _ _ Hf r Hr) as Hnone. simpl in Hnone.
    rewrite Hrid, Z.eqb_refl in Hnone. discriminate.
Qed.

Lemma getAncestorIds_keyed (data : list Row) (fuel : nat) (nodeId : Z) (res : list Z) :
  keyed data ->
  getAncestorIds fuel data nodeId = Some res ->
  forall a, In a res <-> descendant (tableOf data) a nodeId.
Proof.
  intros Hkeyed. unfold getAncestorIds.
  destruct (findParent fuel data nodeId (mkWalk [] [])) as [w |] eqn:Hw; [| discriminate].
  intros H. inversion H. subst res.
  apply (findParent_keyed data nodeId fuel nodeId (mkWalk [] []) w Hkeyed);
    cbn [ancestors visited]; try (intros; contradiction); [constructor | | exact Hw].
  intros a Ha. now right.
Qed.

Lemma getAncestorIds_some (data : list Row) (fuel : nat) (nodeId : Z) :
  (List.length data < fuel)%nat ->
  exists res, getAncestorIds fuel data nodeId = Some res.
Proof.
  intros Hfuel.
  destruct (TreeFacts.findParent_returns data fuel nodeId (mkWalk [] [])) as [w Hw].
  { cbn [visited]. pose proof (TreeFacts.unvisited_bound data []). lia. }
  exists (ancestors w). unfold getAncestorIds. now rewrite Hw.
Qed.

(** The outcome of [isDescendant] on a keyed array. *)
Lemma isDescendant_keyed (data : list Row) (fuel : nat) (x a : Z) :
  (List.length data < fuel)%nat ->
  exists b, isDescendant fuel data x a = Some b /\
            (keyed data -> (b = true <-> descendant (tableOf data) a x)).
Proof.
  intros Hfuel.
  destruct (getAncestorIds_some data fuel x Hfuel) as [res Hres].
  exists (existsb (Z.eqb a) res). unfold isDescendant. rewrite Hres. simpl.
  split; [reflexivity |]. intros Hkeyed.
  pose proof (getAncestorIds_keyed data fuel x res Hkeyed Hres) as Hspec.
  rewrite existsb_exists. split.
  - intros (y & Hy & Heq). apply Z.eqb_eq in Heq. subst y. now apply Hspec.
  - intros Hd. exists a. split; [now apply Hspec | apply Z.eqb_refl].
Qed.

(** X18: on an array with unique ids, cyclic or not, [getAncestorIds]
    returns the ids of the proper ancestors of the node and no other (the
    node itself among them exactly when it lies on a cycle), so
    [isDescendant] tells whether its first node is a proper descendant of
    its second. *)
Theorem getAncestorIds_ancestors (data : list Row) (fuel : nat) (nodeId : Z) :
  keyed data ->
  (List.length data < fuel)%nat ->
  exists res,
    getAncestorIds fuel data nodeId = Some res /\
    (forall a, In a res <-> descendant (tableOf data) a nodeId) /\
    (forall a, isDescendant fuel data nodeId a = Some true <->
               descendant (tableOf data) a nodeId).
Proof.
  intros Hkeyed Hfuel.
  destruct (getAncestorIds_some data fuel nodeId Hfuel) as [res Hres].
  pose proof (getAncestorIds_keyed data fuel nodeId res Hkeyed Hres) as Hspec.
  exists res. split; [exact Hres |]. split; [exact Hspec |].
  intros a. unfold isDescendant. rewrite Hres. simpl. rewrite <- Hspec. split.
  - intros H. inversion H as [He]. apply existsb_exists in He as (x & Hx & Heq).
    apply Z.eqb_eq in Heq. now subst.
  - intros Hin. f_equal. apply existsb_exists. exists a. split; [exact Hin | apply Z.eqb_refl].
Qed.

End TreeExtra.

(** ** A node made its own parent, on the client *)

Module SelfParentFacts.

Import Server Closure Forest Tree TreeMore Examples.

Section OwnParent.

Variable db : Db.
Variable i : Z.
Hypothesis Hhas : hasId db i = true.

Local Abbreviation data := (orderById (setParent i (Some i) (rows db))).

Lemma own_parent_row (r : Row) : In r data -> id r = i -> parent_id r = Some i.
Proof.
  intros Hin Hid. eapply SelfParent.setParent_parent; [| exact Hid].
  eapply Permutation_in; [apply ServerFacts.orderById_perm | exact Hin].
Qed.

Lemma own_parent_found :
  exists r, List.find (fun n => Z.eqb (id n) i) data = Some r /\ In r data /\ id r = i.
Proof.
  apply SelfParent.find_by_id.
  destruct (SelfParent.setParent_has i (Some i) db Hhas) as (r & Hin & Hid).
  exists r. split; [| exact Hid].
  eapply Permutation_in; [symmetry; apply ServerFacts.orderById_perm | exact Hin].
Qed.

Lemma own_parent_listed : existsb (fun n => Z.eqb (id n) i) data = true.
Proof.
  destruct own_parent_found as (r & _ & Hin & Hid).
  apply existsb_exists. exists r. split; [exact Hin | now apply Z.eqb_eq].
Qed.

Lemma own_parent_cycle : reachesCycle (tableOf data) i.
Proof.
  destruct own_parent_found as (r & _ & Hin & Hid).
  exists i. split; [constructor |].
  apply tc_once. exists r. simpl. split; [exact Hin |]. split; [exact Hid |].
  now apply own_parent_row.
Qed.

Lemma own_parent_not_listed_root : i <> 0 -> ~ In i (map id (getRootNodes data)).
Proof.
  intros Hi Hin. apply in_map_iff in Hin as (r & Hid & Hr).
  unfold getRootNodes in Hr. apply filter_In in Hr as [Hr Ht].
  unfold truthyParent in Ht. rewrite (own_parent_row r Hr Hid) in Ht.
  destruct i; [contradiction | discriminate | discriminate].
Qed.

Lemma own_parent_ancestors (fuel : nat) :
  i <> 0 -> (2 <= fuel)%nat -> getAncestorIds fuel data i = Some [i].
Proof.
  intros Hi Hfuel. destruct fuel as [| [| fuel]]; [lia | lia |].
  destruct own_parent_found as (r & Hfind & Hin & Hid).
  assert (truthyParent r = Some i) as Hp.
  { unfold truthyParent. rewrite (own_parent_row r Hin Hid).
    destruct i; [contradiction | reflexivity | reflexivity]. }
  unfold getAncestorIds. cbn [findParent visited ancestors existsb].
  rewrite Hfind, Hp. cbn [app existsb visited ancestors]. rewrite Z.eqb_refl.
  reflexivity.
Qed.

End OwnParent.




End SelfParentFacts.

(** ** More on [buildForest] *)

Module ForestExtra.

Import Server Forest.

Lemma mapSet_keys (m : list (Z * Row)) (k : Z) (v : Row) :
  map fst (mapSet m k v) = if mapHas m k then map fst m else map fst m ++ [k].
Proof.
  unfold mapHas. induction m as [| [k0 v0] m IH]; simpl; [reflexivity |].
  destruct (Z.eqb k0 k) eqn:E; simpl.
  - apply Z.eqb_eq in E. now subst.
  - rewrite IH. now destruct (existsb _ m).
Qed.

Lemma mapHas_keys (m : list (Z * Row)) (k : Z) : mapHas m k = true <-> In k (map fst m).
Proof.
  unfold mapHas. rewrite existsb_exists, in_map_iff. split.
  - intros (kv & Hin & Heq). apply Z.eqb_eq in Heq. eauto.
  - intros (kv & Heq & Hin). exists kv. split; [exact Hin | now apply Z.eqb_eq].
Qed.

Lemma mapSet_NoDup (m : list (Z * Row)) (k : Z) (v : Row) :
  List.NoDup (map fst m) -> List.NoDup (map fst (mapSet m k v)).
Proof.
  intros Hnd. rewrite mapSet_keys. destruct (mapHas m k) eqn:E; [exact Hnd |].
  apply List.NoDup_app; [exact Hnd | repeat constructor; intros [] |].
  intros x Hx [<- | []]. apply mapHas_keys in Hx. congruence.
Qed.

Lemma buildNodes_NoDup (data : list Row) : List.NoDup (map fst (buildNodes data)).
Proof.
  unfold buildNodes.
  assert (forall m, List.NoDup (map fst m) ->
            List.NoDup (map fst (fold_left (fun m row => mapSet m (id row) row) data m)))
    as H.
  { induction data as [| row data IH]; intros m Hm; simpl; [exact Hm |].
    apply IH. now apply mapSet_NoDup. }
  apply H. constructor.
Qed.

(** The keys that a result holds, wherever it holds them. *)
Lemma pushChild_perm (store : list (Z * list Z)) (p c : Z) :
  Permutation (List.concat (map snd (pushChild store p c))) (c :: List.concat (map snd store)).
Proof.
  induction store as [| [k cs] store IH]; simpl; [reflexivity |].
  destruct (Z.eqb k p); simpl.
  - rewrite <- app_assoc. simpl. symmetry. apply Permutation_middle.
  - rewrite IH. symmetry. apply Permutation_middle.
Qed.

Lemma place_perm (nodes : list (Z * Row)) (acc : Built) (n : Z * Row) :
  Permutation
    (roots (place nodes acc n) ++ orphans (place nodes acc n) ++
     List.concat (map snd (children (place nodes acc n))))
    (fst n :: roots acc ++ orphans acc ++ List.concat (map snd (children acc))).
Proof.
  unfold place. destruct (parent_id (snd n)) as [p |]; simpl.
  - destruct (Z.eqb p (id (snd n))); simpl.
    + rewrite <- app_assoc. simpl. symmetry. apply Permutation_middle.
    + destruct (mapHas nodes p); simpl.
      * rewrite pushChild_perm.
        rewrite <- (Permutation_middle (orphans acc)).
        symmetry. apply Permutation_middle.
      * rewrite <- app_assoc. simpl.
        rewrite <- (Permutation_middle (orphans acc)).
        symmetry. apply Permutation_middle.
  - rewrite <- app_assoc. simpl. symmetry. apply Permutation_middle.
Qed.

Lemma fold_place_perm (nodes l : list (Z * Row)) (acc : Built) :
  Permutation
    (roots (fold_left (place nodes) l acc) ++ orphans (fold_left (place nodes) l acc) ++
     List.concat (map snd (children (fold_left (place nodes) l acc))))
    (map fst l ++ roots acc ++ orphans acc ++ List.concat (map snd (children acc))).
Proof.
  revert acc. induction l as [| n l IH]; intros acc; simpl; [reflexivity |].
  rewrite IH, place_perm. symmetry. apply Permutation_middle.
Qed.

(** X16: [buildForest] places every node of its map exactly once: among
    the roots, among the orphans, or in the [children] of one node; this
    holds on every array, cyclic or not. *)
Theorem buildForest_places_each_once (data : list Row) :
  Permutation
    (roots (buildForest data) ++ orphans (buildForest data) ++
     List.concat (map snd (children (buildForest data))))
    (map fst (buildNodes data)) /\
  List.NoDup
    (roots (buildForest data) ++ orphans (buildForest data) ++
     List.concat (map snd (children (buildForest data)))) /\
  (forall k, In k (map fst (buildNodes data)) <-> exists r, In r data /\ id r = k).
Proof.
  assert (Permutation
            (roots (buildForest data) ++ orphans (buildForest data) ++
             List.concat (map snd (children (buildForest data))))
            (map fst (buildNodes data))) as Hperm.
  { unfold buildForest. rewrite fold_place_perm. simpl. now rewrite app_nil_r. }
  split; [exact Hperm |]. split.
  - eapply Permutation.Permutation_NoDup; [symmetry; exact Hperm |].
    apply buildNodes_NoDup.
  - intros k. split.
    + intros Hin. apply in_map_iff in Hin as ([k' v] & <- & Hin). simpl.
      unfold buildNodes in Hin. apply ForestFacts.buildNodes_from in Hin as [[] | [Hd Hid]].
      eauto.
    + intros Hex.
      destruct (ForestFacts.buildNodes_keys data [] k (or_intror Hex)) as (v & Hv).
      apply in_map_iff. exists (k, v). auto.
Qed.

Lemma fold_place_roots (nodes l : list (Z * Row)) (acc : Built) (k : Z) :
  In k (roots (fold_left (place nodes) l acc)) <->
  In k (roots acc) \/
  exists v, In (k, v) l /\ (parent_id v = None \/ parent_id v = Some (id v)).
Proof.
  revert acc. induction l as [| [k0 v0] l IH]; intros acc; simpl.
  - split; [auto | intros [H | (v & [] & _)]; exact H].
  - rewrite IH. unfold place. simpl.
    destruct (parent_id v0) as [p |] eqn:Ep; simpl.
    + destruct (Z.eqb p (id v0)) eqn:E; simpl.
      * apply Z.eqb_eq in E. subst p. rewrite in_app_iff. simpl. split.
        -- intros [[H | [<- | []]] | (v & Hv & Hp)]; auto.
           ++ right. exists v0. auto.
           ++ right. exists v. auto.
        -- intros [H | (v & [Heq | Hv] & Hp)]; auto.
           ++ inversion Heq; subst. left. right. now left.
           ++ right. exists v. auto.
      * apply Z.eqb_neq in E.
        assert (forall b : Built,
                  In k (roots b) \/
                  (exists v, In (k, v) l /\
                             (parent_id v = None \/ parent_id v = Some (id v))) <->
                  In k (roots b) \/
                  (exists v, ((k0, v0) = (k, v) \/ In (k, v) l) /\
                             (parent_id v = None \/ parent_id v = Some (id v)))) as Hskip.
        { intros b. split.
          - intros [H | (v & Hv & Hp)]; [now left | right; exists v; auto].
          - intros [H | (v & [Heq | Hv] & Hp)]; [now left | | right; exists v; auto].
            inversion Heq; subst. destruct Hp as [Hp | Hp]; congruence. }
        destruct (mapHas nodes p); simpl; apply Hskip.
    + rewrite in_app_iff. simpl. split.
      * intros [[H | [<- | []]] | (v & Hv & Hp)]; auto.
        -- right. exists v0. auto.
        -- right. exists v. auto.
      * intros [H | (v & [Heq | Hv] & Hp)]; auto.
        -- inversion Heq; subst. left. right. now left.
        -- right. exists v. auto.
Qed.

Lemma fold_place_orphans (nodes l : list (Z * Row)) (acc : Built) (k : Z) :
  In k (orphans (fold_left (place nodes) l acc)) <->
  In k (orphans acc) \/
  exists v p, In (k, v) l /\ parent_id v = Some p /\ p <> id v /\ mapHas nodes p = false.
Proof.
  revert acc. induction l as [| [k0 v0] l IH]; intros acc; simpl.
  - split; [auto | intros [H | (v & p & [] & _)]; exact H].
  - rewrite IH. unfold place. simpl.
    assert (forall b : Built,
              ~ (exists p, parent_id v0 = Some p /\ p <> id v0 /\ mapHas nodes p = false) ->
              (In k (orphans b) \/
               (exists v p, In (k, v) l /\ parent_id v = Some p /\ p <> id v /\
                            mapHas nodes p = false) <->
               In k (orphans b) \/
               (exists v p, ((k0, v0) = (k, v) \/ In (k, v) l) /\ parent_id v = Some p /\
                            p <> id v /\ mapHas nodes p = false))) as Hskip.
    { intros b Hnot. split.
      - intros [H | (v & p & Hv & Hp)]; [now left | right; exists v, p; auto].
      - intros [H | (v & p & [Heq | Hv] & Hp)]; [now left | | right; exists v, p; auto].
        inversion Heq; subst. exfalso. apply Hnot. exists p. exact Hp. }
    destruct (parent_id v0) as [p |] eqn:Ep; simpl.
    + destruct (Z.eqb p (id v0)) eqn:E; simpl.
      * apply Z.eqb_eq in E. apply Hskip.
        intros (q & Hq & Hne & _). inversion Hq. congruence.
      * apply Z.eqb_neq in E. destruct (mapHas nodes p) eqn:Eh; simpl.
        -- apply Hskip. intros (q & Hq & _ & Hm). inversion Hq. congruence.
        -- rewrite in_app_iff. simpl. split.
           ++ intros [[H | [<- | []]] | (v & q & Hv & Hp)]; auto.
              ** right. exists v0, p. auto.
              ** right. exists v, q. auto.
           ++ intros [H | (v & q & [Heq | Hv] & Hp)]; auto.
              ** inversion Heq; subst. left. right. now left.
              ** right. exists v, q. auto.
    + apply Hskip. intros (q & Hq & _). discriminate.
Qed.

(** X17: [buildForest] makes a node a root exactly when its parent is
    [null] or the node itself, and an orphan exactly when its parent is
    neither and is the id of no row. *)
Theorem buildForest_sorts_nodes (data : list Row) (k : Z) :
  (In k (roots (buildForest data)) <->
   exists v, In (k, v) (buildNodes data) /\
             (parent_id v = None \/ parent_id v = Some (id v))) /\
  (In k (orphans (buildForest data)) <->
   exists v p, In (k, v) (buildNodes data) /\ parent_id v = Some p /\ p <> id v /\
               ~ (exists r, In r data /\ id r = p)).
Proof.
  unfold buildForest. split.
  - rewrite fold_place_roots. simpl. split; [intros [[] | H]; exact H | auto].
  - rewrite fold_place_orphans. simpl. split.
    + intros [[] | (v & p & Hv & Hp & Hne & Hm)]. exists v, p.
      repeat split; auto. intros Hex.
      destruct (ForestFacts.buildNodes_keys data [] p (or_intror Hex)) as (w & Hw).
      apply not_true_iff_false in Hm. apply Hm. apply mapHas_keys.
      apply in_map_iff. exists (p, w). auto.
    + intros (v & p & Hv & Hp & Hne & Hno). right. exists v, p.
      repeat split; auto. apply not_true_iff_false. intros Hm. apply Hno.
      apply mapHas_keys in Hm. apply in_map_iff in Hm as ([p' w] & <- & Hw).
      unfold buildNodes in Hw. apply ForestFacts.buildNodes_from in Hw as [[] | [Hd Hid]].
      eauto.
Qed.

End ForestExtra.

(** ** [moveNode] *)

Module MoveExtra.

Import Server Tree Closure TreeMore.

Lemma links_ids (d : list Row) : map fst (links d) = map id d.
Proof. unfold links. rewrite map_map. reflexivity. Qed.

Lemma childOf_links (d : list Row) (p c : Z) :
  childOf (tableOf d) p c <-> In (c, Some p) (links d).
Proof.
  unfold childOf, links. simpl. rewrite in_map_iff. split.
  - intros (r & Hr & <- & <-). now exists r.
  - intros (r & Heq & Hr). inversion Heq. now exists r.
Qed.

Lemma links_updateFirst_same (i : Z) (f : Row -> Row) (d : list Row) :
  (forall r, id (f r) = id r /\ parent_id (f r) = parent_id r) ->
  links (updateFirst i f d) = links d.
Proof.
  intros Hf. induction d as [| r d IH]; simpl; [reflexivity |].
  destruct (Z.eqb (id r) i); simpl.
  - destruct (Hf r) as [-> ->]. reflexivity.
  - now rewrite IH.
Qed.

Lemma links_renumber (sibs d : list Row) (i : Z) :
  links (renumberSiblings i sibs d) = links d.
Proof.
  revert i d. induction sibs as [| s sibs IH]; intros i d; simpl; [reflexivity |].
  rewrite IH. apply links_updateFirst_same. intros r. split; reflexivity.
Qed.

Lemma links_reparent (n : Z) (newParentId : option Z) (d : list Row) :
  List.NoDup (map id d) ->
  links (updateFirst n (fun r => mkRow (id r) newParentId (extra r)) d) =
  map (relink n newParentId) (links d).
Proof.
  induction d as [| r d IH]; simpl; [reflexivity |].
  intros Hnd. apply List.NoDup_cons_iff in Hnd as [Hr Hnd].
  unfold relink at 1. simpl. destruct (Z.eqb (id r) n) eqn:E; simpl.
  - apply Z.eqb_eq in E. rewrite E. f_equal.
    clear IH Hnd. induction d as [| x d IH]; simpl; [reflexivity |].
    simpl in Hr. unfold relink at 1. simpl.
    destruct (Z.eqb (id x) n) eqn:E'.
    + apply Z.eqb_eq in E'. exfalso. apply Hr. left. congruence.
    + f_equal. apply IH. tauto.
  - f_equal. now apply IH.
Qed.

Lemma relink_ids (n : Z) (newParentId : option Z) (l : list (Z * option Z)) :
  map fst (map (relink n newParentId) l) = map fst l.
Proof.
  rewrite map_map. apply map_ext. intros [c p]. unfold relink. simpl.
  destruct (Z.eqb c n) eqn:E; [apply Z.eqb_eq in E; now subst | reflexivity].
Qed.

Lemma relink_In (n : Z) (newParentId : option Z) (l : list (Z * option Z))
    (c : Z) (p : option Z) :
  In (c, p) (map (relink n newParentId) l) ->
  (c <> n /\ In (c, p) l) \/ (c = n /\ p = newParentId).
Proof.
  rewrite in_map_iff. intros ([c' p'] & Heq & Hin). unfold relink in Heq. simpl in Heq.
  destruct (Z.eqb c' n) eqn:E.
  - inversion Heq. now right.
  - inversion Heq. subst. left. split; [now apply Z.eqb_neq | exact Hin].
Qed.

Lemma isDescendant_clean (data : list Row) (fuel : nat) (x a : Z) :
  clean data ->
  (List.length data < fuel)%nat ->
  exists b, isDescendant fuel data x a = Some b /\
            (b = true <-> descendant (tableOf data) a x).
Proof.
  intros [Hkeyed _] Hfuel.
  destruct (TreeExtra.isDescendant_keyed data fuel x a Hfuel) as (b & E & Hb).
  exists b. split; [exact E | now apply Hb].
Qed.

Lemma moveNode_links (data : list Row) (n : Z) (newParentId : option Z)
    (index : option Z) :
  List.NoDup (map id data) ->
  let moved := updateFirst n (fun r => mkRow (id r) newParentId (extra r)) data in
  links match index with
        | Some ix =>
            updateFirst n (setSort (ix * 10))
              (renumberSiblings 0 (List.filter (sameParent newParentId) moved) moved)
        | None => moved
        end = map (relink n newParentId) (links data).
Proof.
  intros Hnd moved. destruct index as [ix |].
  - rewrite links_updateFirst_same by (intros r; split; reflexivity).
    rewrite links_renumber. now apply links_reparent.
  - now apply links_reparent.
Qed.

Lemma has_row (data : list Row) (n : Z) :
  existsb (fun r => Z.eqb (id r) n) data = true <-> In n (map id data).
Proof.
  rewrite existsb_exists, in_map_iff. split.
  - intros (r & Hr & E). apply Z.eqb_eq in E. now exists r.
  - intros (r & E & Hr). exists r. split; [exact Hr | now apply Z.eqb_eq].
Qed.

(** The links of the new array lead from [x] to [y] only where the old ones
    do, or through the moved node. *)
Lemma relinked_path (data d : list Row) (n : Z) (newParentId : option Z) :
  links d = map (relink n newParentId) (links data) ->
  forall x y, tc (childOf (tableOf d)) x y ->
    tc (childOf (tableOf data)) x y \/
    exists p, newParentId = Some p /\
              rtc (childOf (tableOf data)) x p /\ rtc (childOf (tableOf data)) n y.
Proof.
  intros Hl.
  assert (forall p c, childOf (tableOf d) p c ->
            (c <> n /\ childOf (tableOf data) p c) \/ (c = n /\ newParentId = Some p))
    as Hstep.
  { intros p c H. apply childOf_links in H. rewrite Hl in H.
    apply relink_In in H as [[Hc H] | [Hc H]].
    - left. split; [exact Hc | now apply childOf_links].
    - right. split; [exact Hc | now symmetry]. }
  induction 1 as [x y H | x z y H _ IH].
  - apply Hstep in H as [[_ H] | [-> H]].
    + left. now apply tc_once.
    + right. exists x. split; [exact H |]. split; constructor.
  - apply Hstep in H as [[_ H] | [-> H]].
    + destruct IH as [IH | (p & Hp & Hzp & Hny)].
      * left. eapply tc_l; eassumption.
      * right. exists p. split; [exact Hp |]. split; [| exact Hny].
        eapply rtc_l; eassumption.
    + right. exists x. split; [exact H |]. split; [constructor |].
      destruct IH as [IH | (p & _ & _ & Hny)]; [now apply tc_rtc | exact Hny].
Qed.

(** X19: on an array with unique ids in which no row names 0 as its parent,
    [moveNode] returns; it throws the cycle error
    exactly when the new parent is a proper descendant of the node, the
    other error only for an id that no row has, and otherwise returns the
    array with the ids as they were and the links as they were but for the
    moved node, whose parent is the new one. *)
Theorem moveNode_outcome (data : list Row) (fuel : nat) (nodeId : Z)
    (newParentId : option Z) (index : option Z) :
  keyed data ->
  (List.length data < fuel)%nat ->
  exists res,
    moveNode fuel data nodeId newParentId index = Some res /\
    (res = MoveCycle <->
     exists p, newParentId = Some p /\ descendant (tableOf data) nodeId p) /\
    (res = MoveMissing -> ~ In nodeId (map id data)) /\
    (forall d, res = Moved d ->
       In nodeId (map id data) /\
       map id d = map id data /\
       links d = map (relink nodeId newParentId) (links data)).
Proof.
  intros Hkeyed Hfuel. unfold moveNode.
  assert (exists b,
            match newParentId with
            | Some p => isDescendant fuel data p nodeId
            | None => Some false
            end = Some b /\
            (b = true <->
             exists p, newParentId = Some p /\ descendant (tableOf data) nodeId p))
    as (b & -> & Hb).
  { destruct newParentId as [p |].
    - destruct (TreeExtra.isDescendant_keyed data fuel p nodeId Hfuel) as (b & E & Hb).
      specialize (Hb Hkeyed).
      exists b. split; [exact E |]. rewrite Hb. split.
      + intros H. now exists p.
      + intros (q & Hq & H). now inversion Hq.
    - exists false. split; [reflexivity |]. split; [discriminate |].
      intros (q & Hq & _). discriminate. }
  destruct Hkeyed as (Hnd & _).
  destruct b.
  - exists MoveCycle. split; [reflexivity |]. split; [| split].
    + split; [intros _; now apply Hb | reflexivity].
    + discriminate.
    + discriminate.
  - assert (~ exists p, newParentId = Some p /\ descendant (tableOf data) nodeId p)
      as Hno by (intros H; apply Hb in H; discriminate).
    destruct (existsb _ data) eqn:Hex.
    + eexists. split; [reflexivity |]. split; [| split].
      * split; [discriminate | intros H; now destruct Hno].
      * discriminate.
      * intros d Hd. inversion Hd as [Hd']. clear Hd.
        pose proof (moveNode_links data nodeId newParentId index Hnd) as Hl.
        simpl in Hl. split; [now apply has_row |]. split; [| exact Hl].
        rewrite <- !links_ids, Hl. apply relink_ids.
    + exists MoveMissing. split; [reflexivity |]. split; [| split].
      * split; [discriminate | intros H; now destruct Hno].
      * intros _ H. apply has_row in H. congruence.
      * discriminate.
Qed.

(** X20: a move that [moveNode] accepts on a proper tree table, to a new
    parent that is not the node itself and not the id 0, leaves a proper
    tree table. *)
Theorem moveNode_keeps_clean (data d : list Row) (fuel : nat) (nodeId : Z)
    (newParentId : option Z) (index : option Z) :
  clean data ->
  (List.length data < fuel)%nat ->
  newParentId <> Some nodeId ->
  newParentId <> Some 0 ->
  moveNode fuel data nodeId newParentId index = Some (Moved d) ->
  clean d.
Proof.
  intros Hclean Hfuel Hself Hzero Hmove.
  pose proof Hclean as ((Hnd & Hz) & Hacyc).
  assert (links d = map (relink nodeId newParentId) (links data) /\
          ~ exists p, newParentId = Some p /\ descendant (tableOf data) nodeId p)
    as [Hl Hno].
  { unfold moveNode in Hmove.
    destruct newParentId as [p |].
    - destruct (isDescendant_clean data fuel p nodeId Hclean Hfuel) as (b & E & Hb).
      rewrite E in Hmove. destruct b; [discriminate |].
      destruct (existsb _ data); [| discriminate].
      inversion Hmove as [Hd]. split.
      + exact (moveNode_links data nodeId (Some p) index Hnd).
      + intros (q & Hq & H). inversion Hq. subst q. apply Hb in H. discriminate.
    - destruct (existsb _ data); [| discriminate].
      inversion Hmove as [Hd]. split.
      + exact (moveNode_links data nodeId None index Hnd).
      + intros (q & Hq & _). discriminate. }
  split; [split |].
  - rewrite <- links_ids, Hl, relink_ids, links_ids. exact Hnd.
  - intros r Hr Hp.
    assert (In (id r, Some 0) (links d)) as Hin.
    { unfold links. apply in_map_iff. exists r. now rewrite Hp. }
    rewrite Hl in Hin. apply relink_In in Hin as [[_ Hin] | [_ Hin]].
    + unfold links in Hin. apply in_map_iff in Hin as (r' & Heq & Hr').
      inversion Heq as [[Hid Hpar]]. exact (Hz r' Hr' Hpar).
    + now apply Hzero.
  - intros x Hx. apply (relinked_path data d nodeId newParentId Hl) in Hx
      as [Hx | (p & Hp & Hxp & Hnx)].
    + exact (Hacyc x Hx).
    + assert (rtc (childOf (tableOf data)) nodeId p) as Hnp
        by (etrans; eassumption).
      apply rtc_tc in Hnp as [-> | Hnp]; [now apply Hself |].
      apply Hno. now exists p.
Qed.

(** X21: [moveNode] does not refuse the node itself as its new parent: on a
    proper tree table that has the node, it returns an array in which the
    node is its own parent. *)
Theorem moveNode_under_itself (data : list Row) (fuel : nat) (nodeId : Z)
    (index : option Z) :
  clean data ->
  (List.length data < fuel)%nat ->
  In nodeId (map id data) ->
  exists d, moveNode fuel data nodeId (Some nodeId) index = Some (Moved d) /\
            childOf (tableOf d) nodeId nodeId /\
            ~ acyclic (tableOf d).
Proof.
  intros Hclean Hfuel Hin.
  pose proof Hclean as ((Hnd & _) & Hacyc).
  unfold moveNode.
  destruct (isDescendant_clean data fuel nodeId nodeId Hclean Hfuel) as (b & -> & Hb).
  destruct b; [exfalso; apply (Hacyc nodeId); now apply Hb |].
  apply has_row in Hin as Hex. rewrite Hex.
  eexists. split; [reflexivity |].
  pose proof (moveNode_links data nodeId (Some nodeId) index Hnd) as Hl. simpl in Hl.
  assert (childOf (tableOf
            match index with
            | Some ix =>
                updateFirst nodeId (setSort (ix * 10))
                  (renumberSiblings 0
                     (List.filter (sameParent (Some nodeId))
                        (updateFirst nodeId
                           (fun r => mkRow (id r) (Some nodeId) (extra r)) data))
                     (updateFirst nodeId
                        (fun r => mkRow (id r) (Some nodeId) (extra r)) data))
            | None =>
                updateFirst nodeId (fun r => mkRow (id r) (Some nodeId) (extra r)) data
            end) nodeId nodeId) as Hc.
  { apply childOf_links. rewrite Hl. rewrite <- links_ids in Hin.
    apply in_map_iff in Hin as ([c p] & Hc & Hin). simpl in Hc. subst c.
    apply in_map_iff. exists (nodeId, p). split; [| exact Hin].
    unfold relink. simpl. now rewrite Z.eqb_refl. }
  split; [exact Hc |].
  intros Ha. apply (Ha nodeId). now apply tc_once.
Qed.

End MoveExtra.

(** ** [validateTree] *)

Module ValidateExtra.

Import Server Tree Closure TreeMore.

Lemma setAdd_In (x y : Z) (s : list Z) : In y (setAdd x s) <-> In y s \/ y = x.
Proof.
  unfold setAdd. destruct (existsb (Z.eqb x) s) eqn:E.
  - split; [auto |]. intros [H | ->]; [exact H |].
    apply existsb_exists in E as (z & Hz & Heq). apply Z.eqb_eq in Heq. now subst.
  - rewrite in_app_iff. simpl. split; [intros [H | [<- | []]]; auto |].
    intros [H | ->]; auto.
Qed.

Lemma has_In (x : Z) (s : list Z) : existsb (Z.eqb x) s = true <-> In x s.
Proof.
  rewrite existsb_exists. split.
  - intros (z & Hz & Heq). apply Z.eqb_eq in Heq. now subst.
  - intros H. exists x. split; [exact H | apply Z.eqb_refl].
Qed.

Lemma scanIds_spec (data : list Row) (N P : list Z) (E : list TreeError) :
  exists extra,
    snd (scanIds data N P E) = E ++ extra /\
    (extra = [] <->
     List.NoDup (map id data) /\ forall x, In x (map id data) -> ~ In x N) /\
    (forall x, In x (fst (fst (scanIds data N P E))) <-> In x N \/ In x (map id data)) /\
    (forall p, In p (snd (fst (scanIds data N P E))) <->
               In p P \/ exists r, In r data /\ truthyParent r = Some p).
Proof.
  revert N P E. induction data as [| node rest IH]; intros N P E.
  - exists []. simpl. rewrite app_nil_r. split; [reflexivity |]. split; [| split].
    + split; [| reflexivity]. intros _. split; [constructor | intros x []].
    + intros x. tauto.
    + intros p. split; [auto |]. intros [H | (r & [] & _)]. exact H.
  - cbn [scanIds].
    destruct (IH (setAdd (id node) N)
                 match truthyParent node with
                 | Some p => setAdd p P
                 | None => P
                 end
                 (if existsb (Z.eqb (id node)) N
                  then E ++ [DuplicateId (id node)] else E))
      as (extra & Herr & Hextra & HN & HP).
    exists ((if existsb (Z.eqb (id node)) N then [DuplicateId (id node)] else []) ++ extra).
    split; [| split; [| split]].
    + rewrite Herr. destruct (existsb (Z.eqb (id node)) N).
      * now rewrite <- app_assoc.
      * reflexivity.
    + simpl map. rewrite List.NoDup_cons_iff.
      destruct (existsb (Z.eqb (id node)) N) eqn:Hhas.
      * apply has_In in Hhas. split; [discriminate |].
        intros [_ Hfresh]. exfalso. apply (Hfresh (id node)); [now left | exact Hhas].
      * assert (~ In (id node) N) as Hnot
          by (intros H; apply has_In in H; congruence).
        simpl. rewrite Hextra. split.
        -- intros [Hnd Hfresh]. split; [split |].
           ++ intros Hin. apply (Hfresh _ Hin). apply setAdd_In. now right.
           ++ exact Hnd.
           ++ intros x [<- | Hin]; [exact Hnot |].
              intros HxN. apply (Hfresh x Hin). apply setAdd_In. now left.
        -- intros [[Hhead Hnd] Hfresh]. split; [exact Hnd |].
           intros x Hin Hadd. apply setAdd_In in Hadd as [HxN | ->].
           ++ apply (Hfresh x); [now right | exact HxN].
           ++ exact (Hhead Hin).
    + intros x. rewrite HN, setAdd_In. simpl. intuition congruence.
    + intros p. rewrite HP. split.
      * intros [Hin | (r & Hr & Hp)].
        -- destruct (truthyParent node) as [q |] eqn:Eq; [| now left].
           apply setAdd_In in Hin as [Hin | ->]; [now left |].
           right. exists node. split; [now left | exact Eq].
        -- right. exists r. split; [now right | exact Hp].
      * intros [Hin | (r & [<- | Hr] & Hp)].
        -- left. destruct (truthyParent node); [apply setAdd_In; now left | exact Hin].
        -- left. rewrite Hp. apply setAdd_In. now right.
        -- right. now exists r.
Qed.

Lemma scanCycles_spec (fuel : nat) (data rest : list Row) (E : list TreeError) :
  (List.length data < fuel)%nat ->
  (forall r, In r rest -> In r data) ->
  exists extra,
    scanCycles fuel data rest E = Some (E ++ extra) /\
    (keyed data ->
     (extra = [] <->
      forall node p, In node rest -> parent_id node = Some p ->
                     ~ descendant (tableOf data) (id node) p)).
Proof.
  intros Hfuel. revert E. induction rest as [| node rest IH]; intros E Hsub.
  - exists []. simpl. rewrite app_nil_r. split; [reflexivity |].
    intros _. split; [intros _ node p [] | reflexivity].
  - assert (forall r, In r rest -> In r data) as Hsub' by (intros r Hr; apply Hsub; now right).
    cbn [scanCycles]. destruct (truthyParent node) as [p |] eqn:Ep.
    + destruct (TreeExtra.isDescendant_keyed data fuel p (id node) Hfuel) as (b & -> & Hb).
      apply TreeExtra.truthyParent_some in Ep.
      destruct b.
      * destruct (IH (E ++ [CircularRef (id node)]) Hsub') as (extra & -> & _).
        exists (CircularRef (id node) :: extra).
        split; [now rewrite <- app_assoc |].
        intros Hkeyed. split; [discriminate |].
        intros Hall. exfalso. apply (Hall node p); [now left | exact Ep |].
        now apply Hb.
      * destruct (IH E Hsub') as (extra & -> & Hextra).
        exists extra. split; [reflexivity |].
        intros Hkeyed. rewrite (Hextra Hkeyed). split.
        -- intros Hall n q [<- | Hin] Hq; [| now apply Hall].
           assert (q = p) as -> by congruence.
           intros Hd. apply Hb in Hd; [discriminate | exact Hkeyed].
        -- intros Hall n q Hin. apply Hall. now right.
    + destruct (IH E Hsub') as (extra & -> & Hextra).
      exists extra. split; [reflexivity |].
      intros Hkeyed. rewrite (Hextra Hkeyed). split.
      * intros Hall n q [<- | Hin] Hq; [| now apply Hall].
        rewrite (TreeExtra.truthyParent_none data node Hkeyed (Hsub node (or_introl eq_refl)) Ep)
          in Hq. discriminate.
      * intros Hall n q Hin. apply Hall. now right.
Qed.

Lemma acyclic_rows (data : list Row) :
  acyclic (tableOf data) <->
  forall node p, In node data -> parent_id node = Some p ->
                 ~ descendant (tableOf data) (id node) p.
Proof.
  split.
  - intros Hacyc node p Hin Hp Hd. apply (Hacyc (id node)).
    unfold descendant in *. eapply tc_r; [exact Hd |]. now exists node.
  - intros Hall x Hx. apply TreeExtra.tc_last in Hx as (q & Hxq & (r & Hr & Hid & Hp)).
    simpl in Hr. subst x. apply (Hall r q Hr Hp).
    apply rtc_tc in Hxq as [<- | Hxq]; [| exact Hxq].
    apply tc_once. now exists r.
Qed.

(** X23: when no row names 0 as its parent, [validateTree] returns, and
    reports the array as valid exactly when no two rows have the same id and
    no node is its own ancestor; its warnings are the parents that rows name
    and that are the id of no row. *)
Theorem validateTree_valid (data : list Row) (fuel : nat) :
  (forall r, In r data -> parent_id r <> Some 0) ->
  (List.length data < fuel)%nat ->
  exists res,
    validateTree fuel data = Some res /\
    (isValid res = true <-> List.NoDup (map id data) /\ acyclic (tableOf data)) /\
    (forall p, In p (warnings res) <->
               (exists r, In r data /\ parent_id r = Some p) /\ ~ In p (map id data)).
Proof.
  intros Hzero Hfuel. unfold validateTree.
  destruct (scanIds_spec data [] [] []) as (extra1 & Herr & Hextra1 & HN & HP).
  destruct (scanIds data [] [] []) as [[N P] E]. simpl in Herr, HN, HP. subst E.
  destruct (scanCycles_spec fuel data data extra1 Hfuel (fun r H => H))
    as (extra2 & -> & Hextra2).
  eexists. split; [reflexivity |]. cbn [isValid warnings]. split.
  - assert (match extra1 ++ extra2 with [] => true | _ => false end = true <->
            extra1 = [] /\ extra2 = []) as ->.
    { destruct extra1; simpl; [destruct extra2; simpl |]; intuition congruence. }
    rewrite Hextra1, acyclic_rows. split.
    + intros [[Hnd _] H2]. split; [exact Hnd |]. apply Hextra2; [now split | exact H2].
    + intros [Hnd Hacyc]. split; [split; [exact Hnd | intros x _ []] |].
      apply Hextra2; [now split | exact Hacyc].
  - intros p. rewrite filter_In, HP, negb_true_iff. split.
    + intros [[[] | (r & Hr & Hp)] Hnot]. split.
      * exists r. split; [exact Hr | now apply TreeExtra.truthyParent_some].
      * intros Hin. assert (existsb (Z.eqb p) N = true) as Hhas
          by (apply has_In, HN; now right).
        congruence.
    + intros [(r & Hr & Hp) Hnot]. split.
      * right. exists r. split; [exact Hr |].
        unfold truthyParent. rewrite Hp.
        destruct p as [| p | p]; [now destruct (Hzero r Hr) | reflexivity | reflexivity].
      * destruct (existsb (Z.eqb p) N) eqn:Hhas; [| reflexivity].
        apply has_In, HN in Hhas as [[] | Hin]. now destruct Hnot.
Qed.

End ValidateExtra.

(** ** Cycles and the walks down; [filterTree] *)

Module CycleExtra.

Import Server Tree Closure Integrity TreeMore.

(** With unique ids, whatever leads to a cycle lies on it. *)
Lemma cycle_back (data : list Row) (x y : Z) :
  List.NoDup (map id data) ->
  rtc (childOf (tableOf data)) x y ->
  tc (childOf (tableOf data)) y y ->
  tc (childOf (tableOf data)) x x.
Proof.
  intros Hnd. induction 1 as [| x b y Hxb _ IH]; [auto |].
  intros Hy. specialize (IH Hy).
  apply TreeExtra.tc_last in IH as (q & Hbq & Hqb).
  assert (q = x) as -> by (eapply TreeExtra.one_parent; eassumption).
  eapply tc_rtc_r; [apply tc_once; exact Hxb | exact Hbq].
Qed.

(** X24: in a table with unique keys a cycle can be reached from a node only
    if the node lies on it; so [DELETE] and [getDescendantIds] return exactly
    for the nodes that are not their own ancestor. *)
Theorem returns_off_cycle (engine : Engine) (db : Db) (t : Z) :
  uniqueIds db ->
  hasId db t = true ->
  (reachesCycle db t <-> descendant db t t) /\
  ((exists fuel out, deleteNode engine fuel db t = Some out) <-> ~ descendant db t t) /\
  ((exists fuel res, getDescendantIds fuel (rows db) t = Some res) <->
   ~ descendant db t t).
Proof.
  intros Hnd Hhas.
  assert (reachesCycle db t <-> descendant db t t) as Hcyc.
  { split.
    - intros (y & Hty & Hyy). exact (cycle_back (rows db) t y Hnd Hty Hyy).
    - intros H. exists t. split; [constructor | exact H]. }
  split; [exact Hcyc |]. rewrite <- Hcyc. split; split.
  - intros (fuel & out & Hout) Hc.
    rewrite (ServerFacts.deleteNode_diverges engine db fuel t Hhas Hc) in Hout.
    discriminate.
  - intros Hno.
    destruct (ServerExtra.subtree_closure_below db t Hno Hhas) as (fuel & gone & Hrun & _).
    exists fuel. unfold deleteNode. rewrite Hrun.
    destruct gone; [eauto |]. destruct (_ <=? _)%nat; eauto.
  - intros (fuel & res & Hres) Hc.
    rewrite (TreeExtra.getDescendantIds_cycle (rows db) fuel t Hhas Hc) in Hres.
    discriminate.
  - intros Hno.
    destruct (TreeExtra.getDescendantIds_below (rows db) t t) as (fuel & res & Hres & _).
    + exact (ServerExtra.sn_below (tableOf (rows db)) t t Hno).
    + constructor.
    + exact Hhas.
    + eauto.
Qed.

Lemma fold_setAdd_In (l found : list Z) (a : Z) :
  In a (fold_left (fun s aid => setAdd aid s) l found) <-> In a found \/ In a l.
Proof.
  revert found. induction l as [| x l IH]; intros found; simpl; [tauto |].
  rewrite IH, ValidateExtra.setAdd_In. intuition congruence.
Qed.

Lemma matched_from (predicate : Row -> bool) (data : list Row) (s : list Z) (x : Z) :
  In x (fold_left (fun matched node =>
                     if predicate node then setAdd (id node) matched else matched)
                  data s) <->
  In x s \/ exists m, In m data /\ predicate m = true /\ id m = x.
Proof.
  revert s. induction data as [| node data IH]; intros s; simpl.
  - split; [auto |]. intros [H | (m & [] & _)]. exact H.
  - rewrite IH. destruct (predicate node) eqn:Hp.
    + rewrite ValidateExtra.setAdd_In. split.
      * intros [[H | ->] | (m & Hm & Hpm & Hid)]; [now left | |].
        -- right. exists node. auto.
        -- right. exists m. auto.
      * intros [H | (m & [<- | Hm] & Hpm & Hid)]; [now left; left | |].
        -- left. right. now symmetry.
        -- right. exists m. auto.
    + split.
      * intros [H | (m & Hm & Hpm & Hid)]; [now left |]. right. exists m. auto.
      * intros [H | (m & [<- | Hm] & Hpm & Hid)]; [now left | congruence |].
        right. exists m. auto.
Qed.

Lemma collectAncestors_spec (fuel : nat) (data : list Row) (matched found : list Z) :
  keyed data ->
  (List.length data < fuel)%nat ->
  exists res,
    collectAncestors fuel data matched found = Some res /\
    forall a, In a res <->
              In a found \/ exists i, In i matched /\ descendant (tableOf data) a i.
Proof.
  intros Hkeyed Hfuel. revert found.
  induction matched as [| i rest IH]; intros found; simpl.
  - exists found. split; [reflexivity |]. intros a. split; [auto |].
    intros [H | (i & [] & _)]. exact H.
  - destruct (TreeExtra.getAncestorIds_some data fuel i Hfuel) as [l Hl]. rewrite Hl.
    pose proof (TreeExtra.getAncestorIds_keyed data fuel i l Hkeyed Hl) as Hspec.
    destruct (IH (fold_left (fun s aid => setAdd aid s) l found)) as (res & -> & Hres).
    exists res. split; [reflexivity |]. intros a. rewrite Hres, fold_setAdd_In, Hspec.
    split.
    + intros [[H | H] | (j & Hj & Hd)]; [now left | |].
      * right. exists i. auto.
      * right. exists j. auto.
    + intros [H | (j & [<- | Hj] & Hd)]; [now left; left | now left; right |].
      right. exists j. auto.
Qed.

Lemma same_id_same_node (data : list Row) (a b : Row) :
  List.NoDup (map id data) -> In a data -> In b data -> id a = id b -> a = b.
Proof.
  intros Hnd Ha Hb Hid.
  pose proof (TreeExtra.find_unique data (id b) a Hnd Ha Hid) as H1.
  pose proof (TreeExtra.find_unique data (id b) b Hnd Hb eq_refl) as H2.
  congruence.
Qed.

(** X25: on an array with unique ids, cyclic or not, [filterTree] returns the
    rows that [predicate] holds of and the rows of their ancestors, and no
    other; so with every row that names a parent it keeps the parent's
    row. *)
Theorem filterTree_keeps_ancestors (data : list Row) (fuel : nat)
    (predicate : Row -> bool) :
  keyed data ->
  (List.length data < fuel)%nat ->
  exists res,
    filterTree fuel data predicate = Some res /\
    (forall r, In r res <->
       In r data /\
       (predicate r = true \/
        exists m, In m data /\ predicate m = true /\
                  descendant (tableOf data) (id r) (id m))) /\
    (forall r p, In r res -> In p data -> parent_id r = Some (id p) -> In p res).
Proof.
  intros Hkeyed Hfuel. pose proof Hkeyed as [Hnd _]. unfold filterTree.
  destruct (collectAncestors_spec fuel data (matchedIds predicate data) [] Hkeyed Hfuel)
    as (found & -> & Hfound).
  assert (forall r, In r (List.filter
                            (fun node =>
                               existsb (Z.eqb (id node)) (matchedIds predicate data) ||
                               existsb (Z.eqb (id node)) found) data) <->
            In r data /\
            (predicate r = true \/
             exists m, In m data /\ predicate m = true /\
                       descendant (tableOf data) (id r) (id m))) as Hspec.
  { intros r. rewrite filter_In, orb_true_iff, !ValidateExtra.has_In, Hfound.
    unfold matchedIds. rewrite matched_from. split.
    - intros [Hr [[[] | (m & Hm & Hp & Hid)] | [[] | (i & Hi & Hd)]]]; split; try exact Hr.
      + left. now rewrite <- (same_id_same_node data m r Hnd Hm Hr Hid).
      + apply matched_from in Hi as [[] | (m & Hm & Hp & <-)].
        right. exists m. auto.
    - intros [Hr [Hp | (m & Hm & Hp & Hd)]]; split; try exact Hr.
      + left. right. exists r. auto.
      + right. right. exists (id m). split; [| exact Hd].
        apply matched_from. right. exists m. auto. }
  eexists. split; [reflexivity |]. split; [exact Hspec |].
  intros r p Hr Hp Hpar. apply Hspec. split; [exact Hp |].
  apply Hspec in Hr as [Hr Hwhy].
  assert (childOf (tableOf data) (id p) (id r)) as Hchild by (exists r; simpl; auto).
  right. destruct Hwhy as [Hpr | (m & Hm & Hpm & Hd)].
  - exists r. split; [exact Hr |]. split; [exact Hpr | now apply tc_once].
  - exists m. split; [exact Hm |]. split; [exact Hpm |].
    unfold descendant in *. eapply tc_l; eassumption.
Qed.

End CycleExtra.

(** ** [applyConfig], further *)

Module ConfigFormExtra.

Import ConfigForm.

Lemma updateConfig_returned (env : Env) (sessionId : string) (before trace : list Event) :
  updateConfig env sessionId before = (trace, Returned) ->
  (trace = before ++ [PostConfig sessionId] /\ configAnswer env = ConfigOk) \/
  (trace = before ++ [PostConfig sessionId; PutSessionForce (Token sessionId)] /\
   configAnswer env = ConfigConflict /\ forceUpdateOk env = true).
Proof.
  unfold updateConfig. destruct (configAnswer env).
  - intros H. inversion H. now left.
  - destruct (forceUpdateOk env); intros H; inversion H. right. auto.
  - discriminate.
Qed.

(** X22: [applyConfig] returns only after it has posted the configuration
    under the session id of the store: the id it found there (one that is
    not the empty string), with no request before, or else the id it has
    stored just before. The post was accepted, or it was answered 409 and
    the forcing [PUT] for that session that followed was accepted. *)
Theorem applyConfig_returns_after_post (env : Env) (config : FormConfig)
    (trace : list Event) :
  applyConfig env config = (trace, Returned) ->
  exists s before after,
    trace = before ++ PostConfig s :: after /\
    s <> "" /\
    ((storedSessionId env = Some s /\ before = []) \/
     (truthyId (storedSessionId env) = None /\
      exists earlier, before = earlier ++ [StoreSessionId s])) /\
    ((after = [] /\ configAnswer env = ConfigOk) \/
     (after = [PutSessionForce (Token s)] /\
      configAnswer env = ConfigConflict /\ forceUpdateOk env = true)).
Proof.
  assert (forall s before,
            updateConfig env s before = (trace, Returned) ->
            exists after,
              trace = before ++ PostConfig s :: after /\
              ((after = [] /\ configAnswer env = ConfigOk) \/
               (after = [PutSessionForce (Token s)] /\
                configAnswer env = ConfigConflict /\ forceUpdateOk env = true)))
    as Hupdate.
  { intros s before H. apply updateConfig_returned in H as [[-> Hc] | (-> & Hc & Hf)].
    - exists []. auto.
    - exists [PutSessionForce (Token s)]. auto. }
  assert (forall o s, truthyId o = Some s -> o = Some s /\ s <> "") as Htruthy.
  { intros [[| c r] |] s H; simpl in H; inversion H. split; [reflexivity | discriminate]. }
  unfold applyConfig. destruct (truthyId (storedSessionId env)) as [s |] eqn:Hs.
  - intros H. apply Hupdate in H as (after & -> & Hafter).
    apply Htruthy in Hs as [Hs Hne].
    exists s, [], after. split; [reflexivity |]. split; [exact Hne |].
    split; [left; split; [exact Hs | reflexivity] | exact Hafter].
  - destruct (createAnswer env) as [created | |]; try discriminate.
    + destruct (truthyId created) as [s |] eqn:Hc; [| discriminate].
      apply Htruthy in Hc as [_ Hne].
      intros H. apply Hupdate in H as (after & -> & Hafter).
      eexists s, _, after. split; [reflexivity |]. split; [exact Hne |].
      split; [| exact Hafter].
      right. split; [reflexivity |]. eexists. reflexivity.
    + destruct (operatorConfirms env); [| discriminate].
      destruct (truthyId (forceCreateAnswer env)) as [s |] eqn:Hf.
      * apply Htruthy in Hf as [_ Hne].
        intros H. apply Hupdate in H as (after & -> & Hafter).
        eexists s, _, after. split; [reflexivity |]. split; [exact Hne |].
        split; [| exact Hafter].
        right. split; [reflexivity |]. eexists. reflexivity.
      * destruct (match sessionListAfter env with
                  | Some sessions => List.find (sameResource config) sessions
                  | None => None
                  end) as [existing |]; [| discriminate].
        destruct (String.eqb (sid existing) "") eqn:He; [discriminate |].
        apply String.eqb_neq in He.
        intros H. apply Hupdate in H as (after & -> & Hafter).
        eexists (sid existing), _, after. split; [reflexivity |]. split; [exact He |].
        split; [| exact Hafter].
        right. split; [reflexivity |]. eexists. reflexivity.
Qed.

End ConfigFormExtra.

(** ** The further properties on the scenario *)

Module ScenarioExtra.

Import Server Tree Closure Forest Integrity TreeMore Examples MoreExamples.
Import ConfigForm.

Lemma scenario_sound : sound scenario.
Proof.
  split.
  - unfold uniqueIds, ids. simpl. repeat constructor; simpl; intuition lia.
  - intros r p Hin Hp. simpl in Hin.
    repeat (destruct Hin as [<- | Hin]; [simpl in Hp; inversion Hp; reflexivity |]).
    destruct Hin.
Qed.

Lemma scenario_keyed : keyed (rows scenario).
Proof.
  split.
  - simpl. repeat constructor; simpl; intuition lia.
  - simpl. intros r Hin.
    repeat (destruct Hin as [<- | Hin]; [simpl; discriminate |]).
    destruct Hin.
Qed.

Lemma scenario_clean : clean (rows scenario).
Proof.
  split; [exact scenario_keyed |].
  apply ScenarioFacts.increasing_acyclic. simpl. intros r p Hin Hp.
  repeat (destruct Hin as [<- | Hin]; [simpl in Hp; inversion Hp; subst; simpl; lia |]).
  destruct Hin.
Qed.

Lemma names_differ : "id" <> "parent_id".
Proof. discriminate. Qed.


Lemma error_leaves_table_witness :
  handleApi plain decimalToNumber "id" "parent_id" 1 scenario (PutNode 9 NoChunks) =
    Some (sendError 400, scenario) /\
  400 <= status (sendError 400) /\
  scenario = scenario.
Proof.
  assert (400 <= status (sendError 400)) as Hst by (simpl; lia).
  split; [reflexivity |]. split; [exact Hst |].
  exact (ServerExtra.error_leaves_table plain decimalToNumber "id" "parent_id" 1 scenario
           scenario (PutNode 9 NoChunks) (sendError 400) eq_refl Hst).
Defined.

Lemma put_touches_target_only_witness :
  named "id" "parent_id" scenario (Some [("parent_id", JNumber (Int 2))]) = true /\
  putNode plain decimalToNumber "id" "parent_id" scenario 3
          (Some [("parent_id", JNumber (Int 2))]) =
    (sendJsonRow 200 (Some (node 3 (Some 2) 2000)), afterPut) /\
  Forall2 (fun r r' => id r' = id r /\ (id r <> 3 -> r' = r))
          (rows scenario) (rows afterPut).
Proof.
  split; [reflexivity |]. split; [reflexivity |].
  exact (proj2 (proj2 (ServerExtra.put_touches_target_only plain decimalToNumber "id"
                         "parent_id" scenario afterPut 3
                         (Some [("parent_id", JNumber (Int 2))])
                         (sendJsonRow 200 (Some (node 3 (Some 2) 2000)))
                         eq_refl eq_refl))).
Defined.

Lemma handleApi_keeps_sound_witness :
  namedRequest "id" "parent_id" scenario
    (PutNode 3 (Parsed (Some [("parent_id", JNumber (Int 2))]))) = true /\
  sound scenario /\
  handleApi plain decimalToNumber "id" "parent_id" 5 scenario
    (PutNode 3 (Parsed (Some [("parent_id", JNumber (Int 2))]))) =
    Some (sendJsonRow 200 (Some (node 3 (Some 2) 2000)), afterPut) /\
  sound afterPut.
Proof.
  split; [reflexivity |]. split; [exact scenario_sound |]. split; [reflexivity |].
  exact (ServerExtra.handleApi_keeps_sound plain decimalToNumber "id" "parent_id" 5
           scenario afterPut
           (PutNode 3 (Parsed (Some [("parent_id", JNumber (Int 2))])))
           (sendJsonRow 200 (Some (node 3 (Some 2) 2000)))
           eq_refl scenario_sound eq_refl).
Defined.

Lemma post_adds_fresh_row_witness :
  named "id" "parent_id" scenario (Some [("parent_id", JNumber (Int 2))]) = true /\
  postNodes plain decimalToNumber "id" "parent_id" scenario
            (Some [("parent_id", JNumber (Int 2))]) =
    (sendJsonRow 201 (Some newRow), afterPost) /\
  status (sendJsonRow 201 (Some newRow)) = 201 /\
  exists r,
    rows afterPost = rows scenario ++ [r] /\
    body (sendJsonRow 201 (Some newRow)) = BodyRow (Some r) /\
    (forall old, In old (rows scenario) -> id old < id r) /\
    sequence scenario < id r /\ sequence afterPost = id r /\
    schema afterPost = schema scenario.
Proof.
  split; [reflexivity |]. split; [reflexivity |]. split; [reflexivity |].
  exact (ServerExtra.post_adds_fresh_row plain decimalToNumber "id" "parent_id" scenario
           afterPost (Some [("parent_id", JNumber (Int 2))])
           (sendJsonRow 201 (Some newRow)) eq_refl eq_refl eq_refl).
Defined.

Lemma put_dangling_parent_refused_witness :
  "id" <> "parent_id" /\
  named "id" "parent_id" scenario
    (Some [("sort_order", JNumber (Int 7)); ("parent_id", JNumber (Int 99))]) = true /\
  hasId scenario 3 = true /\ hasId scenario 99 = false /\
  putNode plain decimalToNumber "id" "parent_id" scenario 3
          (Some [("sort_order", JNumber (Int 7)); ("parent_id", JNumber (Int 99))]) =
    (sendError 500, scenario).
Proof.
  split; [exact names_differ |]. split; [reflexivity |].
  split; [reflexivity |]. split; [reflexivity |].
  exact (ServerExtra.put_dangling_parent_refused plain decimalToNumber "id" "parent_id"
           scenario 3 99
           (Some [("sort_order", JNumber (Int 7)); ("parent_id", JNumber (Int 99))])
           names_differ eq_refl eq_refl eq_refl eq_refl).
Defined.

Lemma put_null_parent_is_zero_witness :
  "id" <> "parent_id" /\ hasId scenario 3 = true /\ hasId scenario 0 = false /\
  putNode plain decimalToNumber "id" "parent_id" scenario 3
          (Some [("parent_id", JNull)]) = (sendError 500, scenario).
Proof.
  split; [exact names_differ |]. split; [reflexivity |]. split; [reflexivity |].
  exact (proj2 (proj2 (ServerExtra.put_null_parent_is_zero plain decimalToNumber "id"
                         "parent_id" scenario 3 names_differ eq_refl)) eq_refl).
Defined.

Lemma delete_returns_iff_no_cycle_below_witness :
  hasId scenario 2 = true /\
  ((exists fuel out, deleteNode plain fuel scenario 2 = Some out) <->
   ~ reachesCycle scenario 2).
Proof.
  split; [reflexivity |].
  exact (proj1 (ServerExtra.delete_returns_iff_no_cycle_below plain scenario 2 eq_refl)).
Defined.

Lemma delete_twice_witness :
  deleteNode plain 5 scenario 2 = Some (sendNoContent, afterDelete) /\
  forall fuel', deleteNode plain fuel' afterDelete 2 = Some (sendError 404, afterDelete).
Proof.
  split; [reflexivity |].
  exact (ServerExtra.delete_twice plain scenario 5 2 afterDelete eq_refl).
Defined.


Lemma renumber_keeps_order_witness :
  Renumber.renumberGroup siblings = Some (siblingsPhase1, siblingsRenumbered) /\
  Renumber.sort_order (Renumber.mkTool 1 (-1000)) <
  Renumber.sort_order (Renumber.mkTool 2 0).
Proof.
  assert (Renumber.sort_order (Renumber.mkTool 1 10) <
          Renumber.sort_order (Renumber.mkTool 2 11)) as Hlt by (simpl; lia).
  split; [reflexivity |].
  exact (RenumberExtra.renumber_keeps_order siblings siblingsPhase1 siblingsRenumbered
           (Renumber.mkTool 1 10) (Renumber.mkTool 2 11)
           (Renumber.mkTool 1 (-1000)) (Renumber.mkTool 2 0)
           eq_refl (or_introl eq_refl) (or_intror (or_introl eq_refl)) Hlt
           (or_introl eq_refl) (or_intror (or_introl eq_refl)) eq_refl eq_refl).
Defined.

Lemma renumber_again_witness :
  Renumber.renumberGroup siblings = Some (siblingsPhase1, siblingsRenumbered) /\
  exists t1', Renumber.renumberGroup siblingsRenumbered = Some (t1', siblingsRenumbered).
Proof.
  split; [reflexivity |].
  exact (RenumberExtra.renumber_again siblings siblingsPhase1 siblingsRenumbered eq_refl).
Defined.

Lemma ui_delete_keeps_copy_witness :
  uiDeleteNode plain decimalToNumber "id" "parent_id" true 5 5
    (mkClientState (listAll scenario) (Some 2)) scenario =
    Some (mkClientState (listAll scenario) (Some 2), afterDelete) /\
  (afterDelete = scenario \/
   exists i,
     selectedNodeId (mkClientState (listAll scenario) (Some 2)) = Some i /\ 0 < i /\
     true = true /\
     deleteNode plain 5 scenario i = Some (sendNoContent, afterDelete)).
Proof.
  split; [reflexivity |].
  exact (proj2 (TreeExtra.ui_delete_keeps_copy plain decimalToNumber "id" "parent_id"
                  true 5 5 (mkClientState (listAll scenario) (Some 2))
                  (mkClientState (listAll scenario) (Some 2)) scenario afterDelete
                  eq_refl)).
Defined.

Lemma getAncestorIds_ancestors_witness :
  keyed (rows scenario) /\
  exists res,
    getAncestorIds 5 (rows scenario) 4 = Some res /\
    (forall a, In a res <-> descendant (tableOf (rows scenario)) a 4) /\
    (forall a, isDescendant 5 (rows scenario) 4 a = Some true <->
               descendant (tableOf (rows scenario)) a 4).
Proof.
  assert ((List.length (rows scenario) < 5)%nat) as Hfuel by (simpl; lia).
  split; [exact scenario_keyed |].
  exact (TreeExtra.getAncestorIds_ancestors (rows scenario) 5 4 scenario_keyed Hfuel).
Defined.

Lemma moveNode_outcome_witness :
  keyed (rows scenario) /\
  exists res,
    moveNode 5 (rows scenario) 1 (Some 4) None = Some res /\
    (res = MoveCycle <->
     exists p, Some 4 = Some p /\ descendant (tableOf (rows scenario)) 1 p).
Proof.
  assert ((List.length (rows scenario) < 5)%nat) as Hfuel by (simpl; lia).
  split; [exact scenario_keyed |].
  destruct (MoveExtra.moveNode_outcome (rows scenario) 5 1 (Some 4) None
              scenario_keyed Hfuel) as (res & Hres & Hcycle & _).
  exists res. split; [exact Hres | exact Hcycle].
Defined.

Lemma moveNode_keeps_clean_witness :
  clean (rows scenario) /\
  moveNode 5 (rows scenario) 4 (Some 3) None = Some (Moved afterMove) /\
  clean afterMove.
Proof.
  assert ((List.length (rows scenario) < 5)%nat) as Hfuel by (simpl; lia).
  assert (Some 3 <> Some 4) as Hself by discriminate.
  assert (Some 3 <> Some 0) as Hzero by discriminate.
  split; [exact scenario_clean |]. split; [reflexivity |].
  exact (MoveExtra.moveNode_keeps_clean (rows scenario) afterMove 5 4 (Some 3) None
           scenario_clean Hfuel Hself Hzero eq_refl).
Defined.

Lemma moveNode_under_itself_witness :
  clean (rows scenario) /\ In 3 (map id (rows scenario)) /\
  exists d, moveNode 5 (rows scenario) 3 (Some 3) None = Some (Moved d) /\
            childOf (tableOf d) 3 3 /\
            ~ acyclic (tableOf d).
Proof.
  assert ((List.length (rows scenario) < 5)%nat) as Hfuel by (simpl; lia).
  assert (In 3 (map id (rows scenario))) as Hin by (simpl; auto).
  split; [exact scenario_clean |]. split; [exact Hin |].
  exact (MoveExtra.moveNode_under_itself (rows scenario) 5 3 None
           scenario_clean Hfuel Hin).
Defined.

Lemma validateTree_valid_witness :
  (List.length (rows scenario) < 5)%nat /\
  exists res,
    validateTree 5 (rows scenario) = Some res /\
    (isValid res = true <->
     List.NoDup (map id (rows scenario)) /\ acyclic (tableOf (rows scenario))).
Proof.
  assert ((List.length (rows scenario) < 5)%nat) as Hfuel by (simpl; lia).
  split; [exact Hfuel |].
  destruct (ValidateExtra.validateTree_valid (rows scenario) 5 (proj2 scenario_keyed) Hfuel)
    as (res & Hres & Hvalid & _).
  exists res. split; [exact Hres | exact Hvalid].
Defined.

Lemma applyConfig_returns_after_post_witness :
  applyConfig otherTabHolds formConfig =
    (fst (applyConfig otherTabHolds formConfig), ConfigForm.Returned) /\
  exists s before after,
    fst (applyConfig otherTabHolds formConfig) =
      before ++ ConfigForm.PostConfig s :: after /\
    s <> "" /\
    ((ConfigForm.storedSessionId otherTabHolds = Some s /\ before = []) \/
     (ConfigForm.truthyId (ConfigForm.storedSessionId otherTabHolds) = None /\
      exists earlier, before = earlier ++ [ConfigForm.StoreSessionId s])) /\
    ((after = [] /\ ConfigForm.configAnswer otherTabHolds = ConfigForm.ConfigOk) \/
     (after = [ConfigForm.PutSessionForce (ConfigForm.Token s)] /\
      ConfigForm.configAnswer otherTabHolds = ConfigForm.ConfigConflict /\
      ConfigForm.forceUpdateOk otherTabHolds = true)).
Proof.
  split; [reflexivity |].
  exact (ConfigFormExtra.applyConfig_returns_after_post otherTabHolds formConfig
           (fst (applyConfig otherTabHolds formConfig)) eq_refl).
Defined.

Lemma returns_off_cycle_witness :
  uniqueIds scenario /\ hasId scenario 2 = true /\
  (reachesCycle scenario 2 <-> descendant scenario 2 2).
Proof.
  split; [exact (proj1 scenario_sound) |]. split; [reflexivity |].
  exact (proj1 (CycleExtra.returns_off_cycle plain scenario 2 (proj1 scenario_sound) eq_refl)).
Defined.

Lemma filterTree_keeps_ancestors_witness :
  keyed (rows scenario) /\
  exists res,
    filterTree 5 (rows scenario) (fun r => Z.eqb (id r) 4) = Some res /\
    (forall r p, In r res -> In p (rows scenario) -> parent_id r = Some (id p) ->
                 In p res).
Proof.
  assert ((List.length (rows scenario) < 5)%nat) as Hfuel by (simpl; lia).
  split; [exact scenario_keyed |].
  destruct (CycleExtra.filterTree_keeps_ancestors (rows scenario) 5
              (fun r => Z.eqb (id r) 4) scenario_keyed Hfuel) as (res & Hres & _ & Hup).
  exists res. split; [exact Hres | exact Hup].
Defined.

End ScenarioExtra.
